(** * Dose-event scheduling core

    A shallow embedding of the scheduling pipeline [generateDoseEvents]
    (time arithmetic, order validation, occurrence generation, overlap
    resolution, event assembly) together with the properties stated about it.
    A second part embeds the observation normaliser [normalizeObservations]
    of the repository's other program, with properties of its own.

    Modelling conventions.
    - JavaScript strings are [string]s; a character stands for one code unit.
    - Numbers that the code has checked to be integers, and the time values
      derived from them, are integers of [Z], the doubles among them.  A sum,
      a difference or a product that the scheduler forms is the exact result
      rounded to the nearest double ([double]): nothing is rounded below
      2^53, and the model describes the runs in which no product leaves the
      range of doubles (none is an infinity).  A number that is not an
      integer (a fraction, NaN, an infinity) is the single value [NonInt]
      where the code only tests integrality, [None] where the code only
      tests finiteness, and a rational of [Q] where its value is used.
    - A thrown [Error] is the left summand of [result]; nothing is returned
      besides it.
    - What the language leaves to the host (collation, the digest, the
      fallback of [Date.parse]) is a [Runtime]. *)

From Stdlib Require Import ZArith QArith Qabs Qround String Ascii List Lia.
From Stdlib Require Import DecimalString DecimalZ Permutation Sorted.
From stdpp Require Import gmap strings list.

Open Scope Z_scope.

(** ** Thrown errors *)

Inductive exn := Error (message : string).

Definition result (A : Type) : Type := (exn + A)%type.

Definition throw {A} (message : string) : result A := inl (Error message).
Definition ret {A} (a : A) : result A := inr a.

Definition bind {A B} (m : result A) (k : A -> result B) : result B :=
  match m with
  | inl e => inl e
  | inr a => k a
  end.

Notation "'let?' x ':=' m 'in' k" := (bind m (fun x => k))
  (at level 10, x pattern, m at level 100, k at level 200).

(** [for (const x of xs) f(x)] where [f] may throw. *)
Fixpoint forEach {A} (f : A -> result unit) (xs : list A) : result unit :=
  match xs with
  | [] => ret tt
  | x :: rest => let? _ := f x in forEach f rest
  end.

(** ** The host *)

Class Runtime := {
  (** [createHash("sha256").update(input).digest("hex")] *)
  sha256Hex : string -> string;
  (** [String.prototype.localeCompare]: negative, zero or positive; the language
      requires a consistent comparator and leaves the order to the host. *)
  localeCompare : string -> string -> Z;
  localeCompare_sym : forall a b,
    Z.sgn (localeCompare b a) = - Z.sgn (localeCompare a b);
  localeCompare_trans : forall a b c,
    localeCompare a b <= 0 -> localeCompare b c <= 0 -> localeCompare a c <= 0;
  (** [Date.parse] on a string that is not a zoned date-time string, or that
      names a day its month lacks (see [Date_parse]); [None] is NaN. *)
  Date_parse_host : string -> option Z
}.

(** ** Numbers *)

(** A number of which the code first asks whether it is an integer. *)
Inductive number :=
  | Int (z : Z)
  | NonInt.

Definition Number_isInteger (n : number) : bool :=
  match n with Int _ => true | NonInt => false end.

(** [!Number.isInteger(n) || n < lo || n > hi] *)
Definition notIntegerIn (n : number) (lo hi : Z) : bool :=
  match n with
  | Int z => (z <? lo) || (hi <? z)
  | NonInt => true
  end.

(** The integer a validated field holds (a field that fails the integer
    check is never read: validation comes first). *)
Definition intValue (n : number) : Z :=
  match n with Int z => z | NonInt => 0 end.

(** A value that is NaN, an integer, or [Number.POSITIVE_INFINITY]. *)
Inductive num :=
  | NaN
  | Fin (z : Z)
  | PosInf.

(** A time value: an integer or NaN ([None]). *)
Definition ofTime (t : option Z) : num :=
  match t with Some z => Fin z | None => NaN end.

Definition Math_max (a b : num) : num :=
  match a, b with
  | NaN, _ | _, NaN => NaN
  | PosInf, _ | _, PosInf => PosInf
  | Fin x, Fin y => Fin (Z.max x y)
  end.

Definition Math_min (a b : num) : num :=
  match a, b with
  | NaN, _ | _, NaN => NaN
  | PosInf, c | c, PosInf => c
  | Fin x, Fin y => Fin (Z.min x y)
  end.

(** [a <= b]; every comparison with NaN is false. *)
Definition num_le (a b : num) : bool :=
  match a, b with
  | NaN, _ | _, NaN => false
  | _, PosInf => true
  | PosInf, Fin _ => false
  | Fin x, Fin y => x <=? y
  end.

(** [a > b] *)
Definition num_gt (a b : num) : bool :=
  match a, b with
  | NaN, _ | _, NaN => false
  | PosInf, PosInf => false
  | PosInf, Fin _ => true
  | Fin _, PosInf => false
  | Fin x, Fin y => y <? x
  end.

(** [ToIntegerOrInfinity] of a finite number: truncation towards zero. *)
Definition truncate (q : Q) : Z :=
  if (0 <=? Qnum q) then Qfloor q else Qceiling q.

(** [Math.round]: the nearest integer, a half rounding up. *)
Definition Math_round (q : Q) : Z := Qfloor (q + (1 # 2)).

(** *** Arithmetic of doubles that hold integers *)

(** The double nearest to an integer, a tie going to the even significand;
    an integer below 2^53 is a double. *)
Definition double (v : Z) : Z :=
  let a := Z.abs v in
  if a <? 2 ^ 53 then v
  else
    let e := Z.log2 a - 52 in
    let q := a / 2 ^ e in
    let r := a mod 2 ^ e in
    let up := (2 ^ (e - 1) <? r) || ((r =? 2 ^ (e - 1)) && Z.odd q) in
    Z.sgn v * ((if up then q + 1 else q) * 2 ^ e).

(** [a * b] *)
Definition mulDouble (a b : Z) : Z := double (a * b).

(** [a + b] *)
Definition addDouble (a b : Z) : Z := double (a + b).

(** [t + z] and [t - z] of a time value, NaN when [None], and a double. *)
Definition addTime (t : option Z) (z : Z) : option Z :=
  match t with Some x => Some (double (x + z)) | None => None end.

Definition subTime (t : option Z) (z : Z) : option Z :=
  match t with Some x => Some (double (x - z)) | None => None end.

(** ** Constants *)

Definition MS_PER_MIN : Z := 60000.
Definition MS_PER_DAY : Z := 86400000.
Definition START_HOUR : Z := 8.
Definition OVERLAP_WINDOW_MS : Z := 60 * MS_PER_MIN.

(** ** Strings *)

Definition chars (s : string) : list ascii := list_ascii_of_string s.
Definition str (l : list ascii) : string := string_of_list_ascii l.

(** [\d] *)
Definition isDigit (c : ascii) : bool :=
  (48 <=? nat_of_ascii c)%nat && (nat_of_ascii c <=? 57)%nat.

Definition digitValue (c : ascii) : Z := Z.of_nat (nat_of_ascii c) - 48.

(** The value of a run of decimal digits, most significant first. *)
Definition digitsValue (l : list ascii) : Z :=
  fold_left (fun acc c => 10 * acc + digitValue c) l 0.

(** [Number::toString] of an integer. *)
Definition Z_toString (z : Z) : string :=
  NilZero.string_of_int (Z.to_int z).

(** [s.padStart(n, '0')] *)
Definition padStart (n : nat) (s : string) : string :=
  str (repeat "0"%char (n - String.length s)) +:+ s.

(** [ymd.split("-")] for a one-character separator. *)
Fixpoint splitOn (sep : ascii) (l : list ascii) : list (list ascii) :=
  match l with
  | [] => [[]]
  | c :: rest =>
      if Ascii.eqb c sep then [] :: splitOn sep rest
      else match splitOn sep rest with
           | [] => [[c]]
           | w :: ws => (c :: w) :: ws
           end
  end.

(** The longest prefix of digits, and what follows it. *)
Fixpoint spanDigits (l : list ascii) : list ascii * list ascii :=
  match l with
  | c :: rest =>
      if isDigit c then let '(ds, tl) := spanDigits rest in (c :: ds, tl)
      else ([], l)
  | [] => ([], [])
  end.

(** *** [Number(string)]

    The StringNumericLiteral grammar over the code units below 256.  The
    result is the double nearest to the literal's value, [None] when the
    number is NaN or infinite (exactly when [Number.isFinite] fails). *)

Definition isWhiteSpace (c : ascii) : bool :=
  let n := nat_of_ascii c in
  ((9 <=? n)%nat && (n <=? 13)%nat) || (n =? 32)%nat || (n =? 160)%nat.

Fixpoint trimStart (l : list ascii) : list ascii :=
  match l with
  | c :: rest => if isWhiteSpace c then trimStart rest else l
  | [] => []
  end.

Definition trim (l : list ascii) : list ascii :=
  rev (trimStart (rev (trimStart l))).

Definition radixDigit (radix : Z) (c : ascii) : option Z :=
  let n := Z.of_nat (nat_of_ascii c) in
  let v := if (48 <=? n) && (n <=? 57) then n - 48
           else if (97 <=? n) && (n <=? 102) then n - 87
           else if (65 <=? n) && (n <=? 70) then n - 55
           else radix in
  if v <? radix then Some v else None.

Fixpoint radixValue (radix : Z) (acc : Z) (l : list ascii) : option Z :=
  match l with
  | [] => Some acc
  | c :: rest =>
      match radixDigit radix c with
      | Some v => radixValue radix (radix * acc + v) rest
      | None => None
      end
  end.

(** 10^e as a rational. *)
Definition pow10 (e : Z) : Q :=
  if 0 <=? e then inject_Z (10 ^ e) else / inject_Z (10 ^ (- e)).

(** The doubles end below 2^1024; a value that rounds to it is infinite. *)
Definition overflows (q : Q) : bool :=
  Qle_bool (inject_Z (2 ^ 1024 - 2 ^ 970)) (Qabs q).

(** The double nearest to a rational, a tie going to the even significand;
    the last place of a double is 2^-1074 at least, and an integer below
    2^53 is a double. *)
Definition nearestDouble (q : Q) : Q :=
  let d := Z.pos (Qden q) in
  let a := Z.abs (Qnum q) in
  if (d =? 1) && (a <? 2 ^ 53) then q
  else
    let e0 := Z.log2 a - Z.log2 d in
    let below := if 0 <=? e0 then a <? d * 2 ^ e0 else a * 2 ^ (- e0) <? d in
    let e := if below then e0 - 1 else e0 in
    let u := Z.max (e - 52) (-1074) in
    let N := if 0 <=? u then a else a * 2 ^ (- u) in
    let D := if 0 <=? u then d * 2 ^ u else d in
    let m := N / D in
    let r := N mod D in
    let up := (D <? 2 * r) || ((2 * r =? D) && Z.odd m) in
    let m' := if up then m + 1 else m in
    let v := if 0 <=? u then inject_Z (m' * 2 ^ u)
             else Qred (m' # Z.to_pos (2 ^ (- u))) in
    if Qnum q <? 0 then (- v)%Q else v.

(** An optional ExponentPart that must end the literal. *)
Definition exponentPart (l : list ascii) : option Z :=
  match l with
  | [] => Some 0
  | c :: rest =>
      if Ascii.eqb c "e" || Ascii.eqb c "E" then
        let '(neg, rest') :=
          match rest with
          | s :: r => if Ascii.eqb s "-" then (true, r)
                      else if Ascii.eqb s "+" then (false, r)
                      else (false, rest)
          | [] => (false, rest)
          end in
        match spanDigits rest' with
        | (d :: ds, []) => Some (if neg : bool then - digitsValue (d :: ds)
                                 else digitsValue (d :: ds))
        | _ => None
        end
      else None
  end.

(** StrUnsignedDecimalLiteral other than [Infinity]. *)
Definition unsignedDecimal (l : list ascii) : option Q :=
  let '(ip, r1) := spanDigits l in
  let '(fp, r2) :=
    match r1 with
    | c :: r => if Ascii.eqb c "." then spanDigits r else ([], r1)
    | [] => ([], r1)
    end in
  match ip, fp with
  | [], [] => None
  | _, _ =>
      match exponentPart r2 with
      | Some e =>
          Some (inject_Z (digitsValue (ip ++ fp))
                * pow10 (e - Z.of_nat (length fp)))%Q
      | None => None
      end
  end.

Definition StringToNumber (s : string) : option Q :=
  let finite (q : Q) := if overflows q then None else Some (nearestDouble q) in
  match trim (chars s) with
  | [] => Some 0%Q
  | c :: rest =>
      let prefixed (radix : Z) :=
        match rest with
        | _ :: d :: ds =>
            match radixValue radix 0 (d :: ds) with
            | Some v => finite (inject_Z v)
            | None => None
            end
        | _ => None
        end in
      let radixOf (x : ascii) : option Z :=
        if Ascii.eqb x "x" || Ascii.eqb x "X" then Some 16
        else if Ascii.eqb x "o" || Ascii.eqb x "O" then Some 8
        else if Ascii.eqb x "b" || Ascii.eqb x "B" then Some 2
        else None in
      match (if Ascii.eqb c "0" then
               match rest with x :: _ => radixOf x | [] => None end
             else None) with
      | Some radix => prefixed radix
      | None =>
          if Ascii.eqb c "-" then
            match unsignedDecimal rest with
            | Some q => finite (- q)%Q
            | None => None
            end
          else if Ascii.eqb c "+" then
            match unsignedDecimal rest with
            | Some q => finite q
            | None => None
            end
          else
            match unsignedDecimal (c :: rest) with
            | Some q => finite q
            | None => None
            end
      end
  end.

(** [Number(x)] where [x] may be [undefined] ([None]), whose number is NaN. *)
Definition Number_ (x : option (list ascii)) : option Q :=
  match x with
  | Some l => StringToNumber (str l)
  | None => None
  end.

(** ** Dates: the time-value arithmetic of the language *)

Definition msPerDay : Z := 86400000.
Definition msPerHour : Z := 3600000.
Definition msPerMinute : Z := 60000.
Definition msPerSecond : Z := 1000.

Definition Day (t : Z) : Z := t / msPerDay.
Definition TimeWithinDay (t : Z) : Z := t mod msPerDay.

Definition DaysInYear (y : Z) : Z :=
  if negb (y mod 4 =? 0) then 365
  else if negb (y mod 100 =? 0) then 366
  else if negb (y mod 400 =? 0) then 365
  else 366.

Definition DayFromYear (y : Z) : Z :=
  365 * (y - 1970) + (y - 1969) / 4 - (y - 1901) / 100 + (y - 1601) / 400.

Definition TimeFromYear (y : Z) : Z := msPerDay * DayFromYear y.

(** The largest year that starts no later than [t]: one of the three years
    around the mean-year estimate (see [YearFromTime_spec]). *)
Definition YearFromTime (t : Z) : Z :=
  let y := 1970 + (400 * Day t) / 146097 in
  if DayFromYear (y + 1) <=? Day t then y + 1
  else if DayFromYear y <=? Day t then y
  else y - 1.

Definition InLeapYear (t : Z) : Z :=
  if DaysInYear (YearFromTime t) =? 366 then 1 else 0.

Definition DayWithinYear (t : Z) : Z := Day t - DayFromYear (YearFromTime t).

(** The day of the year on which month [m] (0 to 11) starts; [leap] is 0 or 1. *)
Definition monthStart (leap m : Z) : Z :=
  match m with
  | 0 => 0
  | 1 => 31
  | 2 => 59 + leap
  | 3 => 90 + leap
  | 4 => 120 + leap
  | 5 => 151 + leap
  | 6 => 181 + leap
  | 7 => 212 + leap
  | 8 => 243 + leap
  | 9 => 273 + leap
  | 10 => 304 + leap
  | 11 => 334 + leap
  | _ => 365 + leap
  end.

Definition MonthFromTime (t : Z) : Z :=
  let d := DayWithinYear t in
  let leap := InLeapYear t in
  if d <? 31 then 0
  else if d <? 59 + leap then 1
  else if d <? 90 + leap then 2
  else if d <? 120 + leap then 3
  else if d <? 151 + leap then 4
  else if d <? 181 + leap then 5
  else if d <? 212 + leap then 6
  else if d <? 243 + leap then 7
  else if d <? 273 + leap then 8
  else if d <? 304 + leap then 9
  else if d <? 334 + leap then 10
  else 11.

Definition DateFromTime (t : Z) : Z :=
  DayWithinYear t - monthStart (InLeapYear t) (MonthFromTime t) + 1.

Definition HourFromTime (t : Z) : Z := (t / msPerHour) mod 24.
Definition MinFromTime (t : Z) : Z := (t / msPerMinute) mod 60.
Definition SecFromTime (t : Z) : Z := (t / msPerSecond) mod 60.

Definition MakeTime (hour min sec ms : Z) : Z :=
  hour * msPerHour + min * msPerMinute + sec * msPerSecond + ms.

(** The day number of day [date] of month [month] of [year]; months outside
    0 to 11 carry into the year. *)
Definition MakeDay (year month date : Z) : Z :=
  let ym := year + month / 12 in
  let mn := month mod 12 in
  let leap := if DaysInYear ym =? 366 then 1 else 0 in
  DayFromYear ym + monthStart leap mn + date - 1.

Definition MakeDate (day time : Z) : Z := day * msPerDay + time.

Definition MakeFullYear (year : Z) : Z :=
  if (0 <=? year) && (year <=? 99) then 1900 + year else year.

(** NaN beyond 100,000,000 days from the epoch. *)
Definition TimeClip (time : Z) : option Z :=
  if 8640000000000000 <? Z.abs time then None else Some time.

(** [Date.UTC(year, month, date, hours, minutes, seconds)] of finite numbers. *)
Definition Date_UTC (year month date hours minutes seconds : Q) : option Z :=
  let yr := MakeFullYear (truncate year) in
  TimeClip
    (MakeDate (MakeDay yr (truncate month) (truncate date))
              (MakeTime (truncate hours) (truncate minutes) (truncate seconds) 0)).

(** *** [new Date(ms)] and its UTC getters; [None] is the invalid date. *)

Record DateFields := {
  fullYear : Z;
  month : Z;      (* getUTCMonth() + 1 *)
  date : Z;
  hours : Z;
  minutes : Z;
  seconds : Z
}.

Definition utcFields (ms : Z) : option DateFields :=
  match TimeClip ms with
  | Some t =>
      Some {| fullYear := YearFromTime t;
              month := MonthFromTime t + 1;
              date := DateFromTime t;
              hours := HourFromTime t;
              minutes := MinFromTime t;
              seconds := SecFromTime t |}
  | None => None
  end.

(** *** [Date.parse]

    A string with the syntax of the date-time string format and an explicit
    zone, [YYYY[-MM[-DD]]THH:mm[:ss[.sss]]] followed by [Z] or [+HH:mm] or
    [-HH:mm] (the year may also be a sign and six digits), denotes the
    instant the language defines, and is NaN when an element is out of its
    bounds.  Every other string, and a day that its month lacks, is the
    host's to interpret. *)

Fixpoint takeDigits (n : nat) (acc : Z) (l : list ascii) : option (Z * list ascii) :=
  match n with
  | O => Some (acc, l)
  | S n' =>
      match l with
      | c :: rest =>
          if isDigit c then takeDigits n' (10 * acc + digitValue c) rest else None
      | [] => None
      end
  end.

Definition startsWith (c : ascii) (l : list ascii) : bool :=
  match l with
  | x :: _ => Ascii.eqb x c
  | [] => false
  end.

Definition DaysInMonth (year m : Z) : Z :=
  let leap := if DaysInYear year =? 366 then 1 else 0 in
  monthStart leap m - monthStart leap (m - 1).

(** The elements of a zoned date-time string, as written. *)
Record DateTimeElements := {
  elYear : Z;
  elMonth : Z;          (* 1 when absent *)
  elDay : Z;            (* 1 when absent *)
  elHour : Z;
  elMinute : Z;
  elSecond : Z;         (* 0 when absent *)
  elMilli : Z;          (* 0 when absent *)
  elZoneSign : Z;       (* 1 or -1 *)
  elZoneHour : Z;
  elZoneMinute : Z
}.

(** [YYYY[-MM[-DD]]]: the year, month and day, and what follows. *)
Definition dateSyntax (l : list ascii) : option (Z * Z * Z * list ascii) :=
  let year :=
    if startsWith "+" l then takeDigits 6 0 (tl l)
    else if startsWith "-" l then
      match takeDigits 6 0 (tl l) with
      | Some (y, r) => if y =? 0 then None else Some (- y, r)
      | None => None
      end
    else takeDigits 4 0 l in
  match year with
  | None => None
  | Some (y, r1) =>
      if startsWith "-" r1 then
        match takeDigits 2 0 (tl r1) with
        | None => None
        | Some (m, r2) =>
            if startsWith "-" r2 then
              match takeDigits 2 0 (tl r2) with
              | None => None
              | Some (d, r3) => Some (y, m, d, r3)
              end
            else Some (y, m, 1, r2)
        end
      else Some (y, 1, 1, r1)
  end.

(** [HH:mm[:ss[.sss]]]: hour, minute, second, millisecond, and what follows. *)
Definition timeSyntax (l : list ascii) : option (Z * Z * Z * Z * list ascii) :=
  match takeDigits 2 0 l with
  | None => None
  | Some (h, r1) =>
      if negb (startsWith ":" r1) then None else
      match takeDigits 2 0 (tl r1) with
      | None => None
      | Some (mi, r2) =>
          if startsWith ":" r2 then
            match takeDigits 2 0 (tl r2) with
            | None => None
            | Some (s, r3) =>
                if startsWith "." r3 then
                  match takeDigits 3 0 (tl r3) with
                  | None => None
                  | Some (ms, r4) => Some (h, mi, s, ms, r4)
                  end
                else Some (h, mi, s, 0, r3)
            end
          else Some (h, mi, 0, 0, r2)
      end
  end.

(** [Z], or a signed [HH:mm], ending the string: sign, hours, minutes. *)
Definition zoneSyntax (l : list ascii) : option (Z * Z * Z) :=
  match l with
  | [c] => if Ascii.eqb c "Z" then Some (1, 0, 0) else None
  | c :: rest =>
      if Ascii.eqb c "+" || Ascii.eqb c "-" then
        match takeDigits 2 0 rest with
        | Some (h, r1) =>
            if negb (startsWith ":" r1) then None else
            match takeDigits 2 0 (tl r1) with
            | Some (mi, []) => Some (if Ascii.eqb c "-" then -1 else 1, h, mi)
            | _ => None
            end
        | None => None
        end
      else None
  | [] => None
  end.

Definition zonedSyntax (l : list ascii) : option DateTimeElements :=
  match dateSyntax l with
  | Some (y, m, d, r1) =>
      if negb (startsWith "T" r1) then None else
      match timeSyntax (tl r1) with
      | Some (h, mi, s, ms, r2) =>
          match zoneSyntax r2 with
          | Some (sign, zh, zm) =>
              Some {| elYear := y; elMonth := m; elDay := d;
                      elHour := h; elMinute := mi; elSecond := s; elMilli := ms;
                      elZoneSign := sign; elZoneHour := zh; elZoneMinute := zm |}
          | None => None
          end
      | None => None
      end
  | None => None
  end.

(** Month 01-12, day 01-31, hour 00-24 (24 only as 24:00:00.000), minutes
    and seconds 00-59, zone hours 00-23. *)
Definition inBounds (e : DateTimeElements) : bool :=
  (1 <=? elMonth e) && (elMonth e <=? 12)
  && (1 <=? elDay e) && (elDay e <=? 31)
  && (elHour e <=? 24) && (elMinute e <=? 59) && (elSecond e <=? 59)
  && ((elHour e <? 24)
      || ((elMinute e =? 0) && (elSecond e =? 0) && (elMilli e =? 0)))
  && (elZoneHour e <=? 23) && (elZoneMinute e <=? 59).

Definition elementsTime (e : DateTimeElements) : Z :=
  MakeDate (MakeDay (elYear e) (elMonth e - 1) (elDay e))
           (MakeTime (elHour e) (elMinute e) (elSecond e) (elMilli e))
  - elZoneSign e * (elZoneHour e * 60 + elZoneMinute e) * msPerMinute.

Definition Date_parse `{Runtime} (s : string) : option Z :=
  match zonedSyntax (chars s) with
  | Some e =>
      if negb (inBounds e) then None
      else if DaysInMonth (elYear e) (elMonth e) <? elDay e then Date_parse_host s
      else TimeClip (elementsTime e)
  | None => Date_parse_host s
  end.

(** ** Time arithmetic of the scheduler *)

(** [formatOffset].  The quotient of the hours is the code's
    [Math.floor(abs / 60)] while the division of doubles keeps the sixtieths
    apart, for an offset below 60 * 2^48 in magnitude. *)
Definition formatOffset (minutes : Z) : string :=
  let sign := if 0 <=? minutes then "+" else "-" in
  let abs := Z.abs minutes in
  let hh := abs / 60 in
  let mm := abs mod 60 in
  sign +:+ padStart 2 (Z_toString hh) +:+ ":" +:+ padStart 2 (Z_toString mm).

(** [parseYmd]: the first three parts between hyphens, as numbers. *)
Definition parseYmd (ymd : string) : result (Q * Q * Q) :=
  let parts := splitOn "-" (chars ymd) in
  match Number_ (nth_error parts 0), Number_ (nth_error parts 1),
        Number_ (nth_error parts 2) with
  | Some y, Some m, Some d => ret (y, m, d)
  | _, _, _ => throw ("invalid start_date: " +:+ ymd)
  end.

(** [/Z$/.test(s) || /[+\-]\d{2}:\d{2}$/.test(s)] *)
Definition isIsoWithTz (s : string) : bool :=
  match rev (chars s) with
  | z :: rest =>
      Ascii.eqb z "Z" ||
      match z :: rest with
      | m2 :: m1 :: colon :: h2 :: h1 :: sign :: _ =>
          (Ascii.eqb sign "+" || Ascii.eqb sign "-")
          && isDigit h1 && isDigit h2 && Ascii.eqb colon ":"
          && isDigit m1 && isDigit m2
      | _ => false
      end
  | [] => false
  end.

(** The groups of [/^(\d{4})-(\d{2})-(\d{2})T(\d{2}):(\d{2})(?::(\d{2}))?$/]:
    each is a run of digits, given by its number; the last may be absent. *)
Definition matchNaive (s : string) : option (Z * Z * Z * Z * Z * option Z) :=
  match takeDigits 4 0 (chars s) with
  | Some (y, r1) =>
  if negb (startsWith "-" r1) then None else
  match takeDigits 2 0 (tl r1) with
  | Some (mo, r2) =>
  if negb (startsWith "-" r2) then None else
  match takeDigits 2 0 (tl r2) with
  | Some (d, r3) =>
  if negb (startsWith "T" r3) then None else
  match takeDigits 2 0 (tl r3) with
  | Some (hh, r4) =>
  if negb (startsWith ":" r4) then None else
  match takeDigits 2 0 (tl r4) with
  | Some (mm, []) => Some (y, mo, d, hh, mm, None)
  | Some (mm, r5) =>
      if negb (startsWith ":" r5) then None else
      match takeDigits 2 0 (tl r5) with
      | Some (ss, []) => Some (y, mo, d, hh, mm, Some ss)
      | _ => None
      end
  | None => None
  end
  | None => None
  end
  | None => None
  end
  | None => None
  end
  | None => None
  end.

(** [a + b] of a time value and an integer, where the sum is exact. *)
Definition timePlus (t : option Z) (z : Z) : option Z :=
  match t with Some x => Some (x + z) | None => None end.

Definition parseIsoInFixedOffset `{Runtime} (iso : string) (offsetMinutes : Z)
  : result (option Z) :=
  if isIsoWithTz iso then
    match Date_parse iso with
    | Some ms => ret (Some ms)
    | None => throw ("invalid iso: " +:+ iso)
    end
  else
    match matchNaive iso with
    | None => throw ("invalid naive iso: " +:+ iso)
    | Some (y, mo, d, hh, mm, m6) =>
        let ss := match m6 with Some ss => ss | None => 0 end in
        let utcMs :=
          subTime (Date_UTC (inject_Z y) (inject_Z (mo - 1)) (inject_Z d)
                            (inject_Z hh) (inject_Z mm) (inject_Z ss))
                  (mulDouble offsetMinutes MS_PER_MIN) in
        ret utcMs
    end.

Definition localMidnightUtcMs (startYmd : string) (offsetMinutes : Z)
  : result (option Z) :=
  let? (y, m, d) := parseYmd startYmd in
  ret (subTime (Date_UTC y (m - 1) d 0 0 0) (mulDouble offsetMinutes MS_PER_MIN)).

Definition toIsoInFixedOffset (utcMs offsetMinutes : Z) : string :=
  let localMs := addDouble utcMs (mulDouble offsetMinutes MS_PER_MIN) in
  let pad2 (f : DateFields -> Z) :=
    match utcFields localMs with
    | Some dt => padStart 2 (Z_toString (f dt))
    | None => "NaN"
    end in
  let y :=
    match utcFields localMs with
    | Some dt => Z_toString (fullYear dt)
    | None => "NaN"
    end in
  y +:+ "-" +:+ pad2 month +:+ "-" +:+ pad2 date +:+ "T" +:+ pad2 hours
    +:+ ":" +:+ pad2 minutes +:+ ":" +:+ pad2 seconds +:+ formatOffset offsetMinutes.

(** ** Data model *)

Record Order := {
  order_id : string;
  patient_id : string;
  tz_offset_minutes : number;
  start_datetime : string;
  end_datetime : option string;          (* absent or null: [None] *)
  frequency_per_day : number;
  window_minutes : number;
  do_not_overlap_group : option string;  (* absent or null: [None] *)
  priority : number
}.

Record DoseEvent := {
  event_id : string;
  event_order_id : string;               (* the event's [order_id] *)
  scheduled_time : string;
  status : string
}.

Record ScheduledDose := {
  orderId : string;
  patientId : string;
  group : option string;
  dosePriority : Z;                      (* the candidate's [priority] *)
  utcMs : Z;
  tzOffset : Z;
  windowMs : Z
}.

(** ** Order validator *)

Definition validateOrder (o : Order) : result unit :=
  if String.eqb (order_id o) "" then throw "order_id required"
  else if String.eqb (patient_id o) "" then throw "patient_id required"
  else if negb (Number_isInteger (tz_offset_minutes o)) then
    throw "tz_offset_minutes must be int"
  else if notIntegerIn (frequency_per_day o) 1 6 then
    throw "frequency_per_day must be 1..6"
  else if notIntegerIn (priority o) 1 5 then
    throw "priority must be 1..5"
  else if match window_minutes o with Int w => w <? 0 | NonInt => true end then
    throw "window_minutes must be non-negative int"
  else ret tt.

(** ** Occurrence generator *)

(** The candidate of order [o] at instant [tUtc]. *)
Definition doseAt (o : Order) (tUtc : Z) : ScheduledDose :=
  {| orderId := order_id o;
     patientId := patient_id o;
     group := do_not_overlap_group o;
     dosePriority := intValue (priority o);
     utcMs := tUtc;
     tzOffset := intValue (tz_offset_minutes o);
     windowMs := mulDouble (intValue (window_minutes o)) MS_PER_MIN |}.

(** [Math.round(i * intervalMin)] with [intervalMin = 1440 / freq] *)
Definition minutesFromCycleStart (freq i : Z) : Z :=
  Math_round (inject_Z i * (inject_Z 1440 / inject_Z freq)).

(** The [`${d.orderId}|${d.utcMs}`] of the duplicate filter.  From 10^21 on
    the code spells the instant with an exponent; either spelling tells
    two doubles apart, which is all the filter uses. *)
Definition seenKey (d : ScheduledDose) : string :=
  orderId d +:+ "|" +:+ Z_toString (utcMs d).

(** [out.filter(d => ...)] with the set [seen] of the keys met so far. *)
Fixpoint dedupe (seen : gset string) (out : list ScheduledDose) : list ScheduledDose :=
  match out with
  | [] => []
  | d :: rest =>
      if decide (seenKey d ∈ seen) then dedupe seen rest
      else d :: dedupe ({[ seenKey d ]} ∪ seen) rest
  end.

(** The window in which order [o] may be dosed: the horizon met with the
    order's own active window ([effectiveStart], [effectiveEnd]). *)
Definition effectiveWindow (globalStartUtc : option Z) (days : Z)
    (orderStartUtc : option Z) (orderEndUtc : num) : num * num :=
  let globalEndUtc := addTime globalStartUtc (mulDouble days MS_PER_DAY) in
  (Math_max (ofTime globalStartUtc) (ofTime orderStartUtc),
   Math_min (ofTime globalEndUtc) orderEndUtc).

(** The two nested loops: the kept instants in generation order.  The
    constant [START_HOUR * 60 * MS_PER_MIN] is exact. *)
Definition templateDoses (o : Order) (globalStartUtc : option Z) (days : Z)
    (effectiveStart effectiveEnd : num) : list ScheduledDose :=
  let freq := intValue (frequency_per_day o) in
  let firstCycleStart := addTime globalStartUtc (START_HOUR * 60 * MS_PER_MIN) in
  let numCycles := days + 1 in
  flat_map (fun cycleIdx =>
    let cycleStartUtc := addTime firstCycleStart (mulDouble cycleIdx MS_PER_DAY) in
    flat_map (fun i =>
      match addTime cycleStartUtc
              (mulDouble (minutesFromCycleStart freq i) MS_PER_MIN) with
      | Some tUtc =>
          if num_le effectiveStart (Fin tUtc) && num_le (Fin tUtc) effectiveEnd
          then [doseAt o tUtc] else []
      | None => []
      end) (seqZ 0 freq)) (seqZ 0 numCycles).

Definition generateScheduledTimes `{Runtime} (startDate : string) (days : Z)
    (o : Order) : result (list ScheduledDose) :=
  let offset := intValue (tz_offset_minutes o) in
  let? globalStartUtc := localMidnightUtcMs startDate offset in
  let? orderStartUtc := parseIsoInFixedOffset (start_datetime o) offset in
  let? orderEndUtc :=
    match end_datetime o with
    | None => ret PosInf
    | Some e => let? t := parseIsoInFixedOffset e offset in ret (ofTime t)
    end in
  let '(effectiveStart, effectiveEnd) :=
    effectiveWindow globalStartUtc days orderStartUtc orderEndUtc in
  if num_gt effectiveStart effectiveEnd then ret []
  else ret (dedupe ∅ (templateDoses o globalStartUtc days effectiveStart effectiveEnd)).

(** ** Conflict resolver *)

(** [Array.prototype.sort(cmp)]: a stable sort, here by insertion from the
    right; under a consistent comparator every stable sort gives this list.
    Under another comparator the language leaves the order to the host, and
    what is proved of the order carries the comparator's consistency. *)
Fixpoint insertSorted {A} (cmp : A -> A -> Z) (x : A) (l : list A) : list A :=
  match l with
  | [] => [x]
  | y :: rest => if cmp x y <=? 0 then x :: l else y :: insertSorted cmp x rest
  end.

Definition sortBy {A} (cmp : A -> A -> Z) (l : list A) : list A :=
  fold_right (insertSorted cmp) [] l.

(** [!d.group] is false: the group is a non-empty string. *)
Definition hasGroup (d : ScheduledDose) : bool :=
  match group d with
  | Some g => negb (String.eqb g "")
  | None => false
  end.

(** [`${d.patientId}::${d.group}`] *)
Definition groupKey (d : ScheduledDose) : string :=
  patientId d +:+ "::" +:+ match group d with Some g => g | None => "null" end.

(** A [Map] from strings to arrays, in insertion order of its keys. *)
Definition keyedDoses := list (string * list ScheduledDose).

(** [arr = byKey.get(key); if (arr) arr.push(d); else byKey.set(key, [d])] *)
Fixpoint byKeyPush (key : string) (d : ScheduledDose) (byKey : keyedDoses) : keyedDoses :=
  match byKey with
  | [] => [(key, [d])]
  | (k, arr) :: rest =>
      if String.eqb k key then (k, arr ++ [d]) :: rest
      else (k, arr) :: byKeyPush key d rest
  end.

(** The first loop: [(byKey, passthrough)]. *)
Definition bucketDoses (doses : list ScheduledDose) : keyedDoses * list ScheduledDose :=
  fold_left (fun '(byKey, passthrough) d =>
               if negb (hasGroup d) then (byKey, passthrough ++ [d])
               else (byKeyPush (groupKey d) d byKey, passthrough))
            doses ([], []).

(** The comparator of a group: priority descending, order identifier
    ascending, instant ascending. *)
Definition comparePriority `{Runtime} (a b : ScheduledDose) : Z :=
  if negb (dosePriority a =? dosePriority b) then dosePriority b - dosePriority a
  else if negb (String.eqb (orderId a) (orderId b)) then
    localeCompare (orderId a) (orderId b)
  else utcMs a - utcMs b.

Definition minuteOf (d : ScheduledDose) : Z := utcMs d / MS_PER_MIN.

(** The scan of the buckets [minute - 60 .. minute + 60].  The loop of the
    code steps the bucket by one and ends where the buckets are below 2^53,
    as they are for every instant of the calendar; this is the scan of such
    a run. *)
Definition hasConflict (keptByMinute : gmap Z ScheduledDose) (d : ScheduledDose) : bool :=
  existsb (fun m =>
             match keptByMinute !! m with
             | None => false
             | Some other => Z.abs (utcMs d - utcMs other) <? OVERLAP_WINDOW_MS
             end)
          (seqZ (minuteOf d - 60) 121).

(** One candidate of a group, against [(keptByMinute, kept)]. *)
Definition scanDose (st : gmap Z ScheduledDose * list ScheduledDose)
    (d : ScheduledDose) : gmap Z ScheduledDose * list ScheduledDose :=
  if hasConflict st.1 d then st
  else (<[minuteOf d := d]> st.1, st.2 ++ [d]).

(** One group: sorted, then scanned with a fresh [keptByMinute]. *)
Definition resolveGroup `{Runtime} (kept : list ScheduledDose)
    (groupDoses : list ScheduledDose) : list ScheduledDose :=
  (fold_left scanDose (sortBy comparePriority groupDoses) (∅, kept)).2.

Definition resolveOverlaps `{Runtime} (doses : list ScheduledDose) : list ScheduledDose :=
  let '(byKey, passthrough) := bucketDoses doses in
  fold_left resolveGroup (map snd byKey) passthrough.

(** ** Event assembler *)

(** The comparator of the output: instant, then order identifier. *)
Definition compareInstant `{Runtime} (a b : ScheduledDose) : Z :=
  if negb (utcMs a =? utcMs b) then utcMs a - utcMs b
  else localeCompare (orderId a) (orderId b).

Definition toEvent `{Runtime} (d : ScheduledDose) : DoseEvent :=
  let scheduled := toIsoInFixedOffset (utcMs d) (tzOffset d) in
  {| event_id := sha256Hex (orderId d +:+ "|" +:+ scheduled);
     event_order_id := orderId d;
     scheduled_time := scheduled;
     status := "SCHEDULED" |}.

(** [for (const o of orders) allDoses.push(...generateScheduledTimes(..., o))] *)
Fixpoint collectDoses `{Runtime} (start_date : string) (days : Z)
    (orders : list Order) : result (list ScheduledDose) :=
  match orders with
  | [] => ret []
  | o :: rest =>
      let? doses := generateScheduledTimes start_date days o in
      let? more := collectDoses start_date days rest in
      ret (doses ++ more)
  end.

(** The winners, in output order. *)
Definition scheduleWinners `{Runtime} (allDoses : list ScheduledDose) : list ScheduledDose :=
  sortBy compareInstant (resolveOverlaps allDoses).

Definition generateDoseEvents `{Runtime} (start_date : string) (days : number)
    (orders : list Order) : result (list DoseEvent) :=
  if notIntegerIn days 1 30 then throw "days must be 1..30"
  else
    let? _ := forEach validateOrder orders in
    let? allDoses := collectDoses start_date (intValue days) orders in
    ret (map toEvent (scheduleWinners allDoses)).

(** * The observation normaliser

    [src/codes/problem2/index.js]: observations are rounded to five minutes,
    merged by patient, code, rounded time and unit, and sorted.  Numbers are
    integers that doubles hold exactly; the rounding is exact for instants
    of the present era (below 2^45 milliseconds from the epoch). *)

Module Observations.

(** A [patient_id]: a number or a string. *)
Inductive PatientId :=
  | IdNumber (n : Z)
  | IdString (s : string).

Record Observation := {
  patient_id : PatientId;
  code : string;
  unit : string;
  source : string;
  effective_datetime : string;
  ingested_at : string;
  (** the other own properties, which the spread copies *)
  others : list (string * string)
}.

Definition DEFAULT_ALLOWLIST : gset string := {[ "LIS"%string; "HIS"%string ]}.
Definition FIVE_MINUTES_MS : Z := 5 * 60 * 1000.

(** [String(value).padStart(n, "0")] of a number; [None] is NaN. *)
Definition padNumber (n : nat) (value : option Z) : string :=
  match value with
  | Some v => padStart n (Z_toString v)
  | None => "NaN"
  end.

Definition pad2 (value : option Z) : string := padNumber 2 value.
Definition pad3 (value : option Z) : string := padNumber 3 value.

(** The groups of [/([+-])(\d{2}):?(\d{2})$/], once they are placed: the
    offset in minutes and the suffix in normal form. *)
Definition signedOffset (sign h1 h2 m1 m2 : ascii) : option (Z * string) :=
  if (Ascii.eqb sign "+" || Ascii.eqb sign "-")
     && isDigit h1 && isDigit h2 && isDigit m1 && isDigit m2 then
    let sgn := if Ascii.eqb sign "-" then -1 else 1 in
    let hours := digitsValue [h1; h2] in
    let minutes := digitsValue [m1; m2] in
    Some (sgn * (hours * 60 + minutes), str [sign; h1; h2; ":"%char; m1; m2])
  else None.

(** [parseOffset]; [None] is [null].  The pattern matches a final signed
    [HH:MM] or, failing that, a final signed [HHMM]. *)
Definition parseOffset (iso : string) : option (Z * string) :=
  match rev (chars iso) with
  | [] => None
  | z :: rest =>
      if Ascii.eqb z "Z" || Ascii.eqb z "z" then Some (0, "Z"%string)
      else
        let withColon :=
          match z :: rest with
          | m2 :: m1 :: colon :: h2 :: h1 :: sign :: _ =>
              if Ascii.eqb colon ":" then signedOffset sign h1 h2 m1 m2 else None
          | _ => None
          end in
        match withColon with
        | Some r => Some r
        | None =>
            match z :: rest with
            | m2 :: m1 :: h2 :: h1 :: sign :: _ => signedOffset sign h1 h2 m1 m2
            | _ => None
            end
        end
  end.

(** [d.getUTCMilliseconds()] *)
Definition msFromTime (t : Z) : Z := t mod msPerSecond.

(** [formatWithOffset]; [ms] is NaN when [None]. *)
Definition formatWithOffset (ms : option Z) (offsetMinutes : Z) (suffix : string)
  : string :=
  let shifted := timePlus ms (offsetMinutes * 60 * 1000) in
  let d := match shifted with Some t => TimeClip t | None => None end in
  let field (f : Z -> Z) : option Z :=
    match d with Some t => Some (f t) | None => None end in
  let year :=
    match d with Some t => Z_toString (YearFromTime t) | None => "NaN"%string end in
  let month := pad2 (field (fun t => MonthFromTime t + 1)) in
  let day := pad2 (field DateFromTime) in
  let hours := pad2 (field HourFromTime) in
  let minutes := pad2 (field MinFromTime) in
  let seconds := pad2 (field SecFromTime) in
  let millis := pad3 (field msFromTime) in
  if String.eqb suffix "Z" then
    year +:+ "-" +:+ month +:+ "-" +:+ day +:+ "T" +:+ hours +:+ ":" +:+ minutes
      +:+ ":" +:+ seconds +:+ "." +:+ millis +:+ "Z"
  else
    year +:+ "-" +:+ month +:+ "-" +:+ day +:+ "T" +:+ hours +:+ ":" +:+ minutes
      +:+ ":" +:+ seconds +:+ "." +:+ millis +:+ suffix.

(** [new Date(ms).toISOString()]: a RangeError on an invalid date; the year
    has four digits from 0 to 9999, and a sign and six digits otherwise. *)
Definition toISOString (ms : option Z) : result string :=
  match match ms with Some t => TimeClip t | None => None end with
  | None => throw "Invalid time value"
  | Some t =>
      let y := YearFromTime t in
      let year :=
        if (0 <=? y) && (y <=? 9999) then padStart 4 (Z_toString y)
        else (if 0 <=? y then "+" else "-") +:+ padStart 6 (Z_toString (Z.abs y)) in
      ret (year +:+ "-" +:+ pad2 (Some (MonthFromTime t + 1))
             +:+ "-" +:+ pad2 (Some (DateFromTime t))
             +:+ "T" +:+ pad2 (Some (HourFromTime t))
             +:+ ":" +:+ pad2 (Some (MinFromTime t))
             +:+ ":" +:+ pad2 (Some (SecFromTime t))
             +:+ "." +:+ pad3 (Some (msFromTime t)) +:+ "Z")
  end.

(** [Math.round(ms / FIVE_MINUTES_MS) * FIVE_MINUTES_MS] *)
Definition roundedMs (ms : option Z) : option Z :=
  match ms with
  | Some m =>
      Some (Math_round (inject_Z m / inject_Z FIVE_MINUTES_MS) * FIVE_MINUTES_MS)
  | None => None
  end.

Definition roundToFiveMinutesIso `{Runtime} (iso : string) : result string :=
  let ms := Date_parse iso in
  let rounded := roundedMs ms in
  match parseOffset iso with
  | None => toISOString rounded
  | Some (minutes, suffix) => ret (formatWithOffset rounded minutes suffix)
  end.

(** [String(patientId)], for a number below 10^21 in magnitude, which the
    language spells without an exponent. *)
Definition String_ (patientId : PatientId) : string :=
  match patientId with
  | IdNumber n => Z_toString n
  | IdString s => s
  end.

Definition buildKey (patientId : PatientId) (code : string)
    (roundedEffective : string) (unit : string) : string :=
  let sep := String Ascii.zero EmptyString in
  String_ patientId +:+ sep +:+ code +:+ sep +:+ roundedEffective +:+ sep +:+ unit.

(** [isPlainIntegerString]: an optional minus sign, then either a single
    0 or a digit from 1 to 9 followed by any digits, and nothing else. *)
Definition isPlainIntegerString (value : string) : bool :=
  let body :=
    match chars value with
    | c :: rest => if Ascii.eqb c "-" then rest else c :: rest
    | [] => []
    end in
  match body with
  | [] => false
  | c :: rest =>
      if Ascii.eqb c "0" then match rest with [] => true | _ :: _ => false end
      else isDigit c && forallb isDigit rest
  end.

(** The double nearest to an integer below the range of doubles, a tie going
    to the even significand. *)
Definition toDouble (v : Z) : Z :=
  let a := Z.abs v in
  if a <? 2 ^ 53 then v
  else
    let e := Z.log2 a - 52 in
    let q := a / 2 ^ e in
    let r := a mod 2 ^ e in
    let up := (2 ^ (e - 1) <? r) || ((r =? 2 ^ (e - 1)) && Z.odd q) in
    Z.sgn v * ((if up then q + 1 else q) * 2 ^ e).

(** [comparePatientId], up to a positive factor: the sign is the code's. *)
Definition comparePatientId `{Runtime} (left right : PatientId) : Z :=
  match left, right with
  | IdNumber l, IdNumber r => l - r
  | _, _ =>
      let leftStr := String_ left in
      let rightStr := String_ right in
      let leftNum := StringToNumber leftStr in
      let rightNum := StringToNumber rightStr in
      let leftIsInt := isPlainIntegerString leftStr in
      let rightIsInt := isPlainIntegerString rightStr in
      match leftNum, rightNum with
      | Some l, Some r =>
          if leftIsInt && rightIsInt
             && negb (toDouble (Qfloor l) =? toDouble (Qfloor r))
          then toDouble (Qfloor l) - toDouble (Qfloor r)
          else localeCompare leftStr rightStr
      | _, _ => localeCompare leftStr rightStr
      end
  end.

(** A [Map] from strings to observations, in insertion order of its keys. *)
Definition obsMap := list (string * Observation).

Fixpoint mapGet (key : string) (m : obsMap) : option Observation :=
  match m with
  | [] => None
  | (k, v) :: rest => if String.eqb k key then Some v else mapGet key rest
  end.

(** [map.set(key, value)]: a key that is present keeps its place. *)
Fixpoint mapSet (key : string) (value : Observation) (m : obsMap) : obsMap :=
  match m with
  | [] => [(key, value)]
  | (k, v) :: rest =>
      if String.eqb k key then (k, value) :: rest
      else (k, v) :: mapSet key value rest
  end.

(** [a >= b] of two time values; false when either is NaN. *)
Definition time_ge (a b : option Z) : bool :=
  match a, b with
  | Some x, Some y => y <=? x
  | _, _ => false
  end.

(** The body of the loop, for one observation. *)
Definition mergeObservation `{Runtime} (allowlistSet : gset string) (m : obsMap)
    (obs : Observation) : result obsMap :=
  let? roundedEffective := roundToFiveMinutesIso (effective_datetime obs) in
  let key := buildKey (patient_id obs) (code obs) roundedEffective (unit obs) in
  let next :=
    {| patient_id := patient_id obs; code := code obs; unit := unit obs;
       source := source obs; effective_datetime := roundedEffective;
       ingested_at := ingested_at obs; others := others obs |} in
  match mapGet key m with
  | None => ret (mapSet key next m)
  | Some current =>
      let currentAllow := bool_decide (source current ∈ allowlistSet) in
      let nextAllow := bool_decide (source next ∈ allowlistSet) in
      if currentAllow && negb nextAllow then ret m
      else if nextAllow && negb currentAllow then ret (mapSet key next m)
      else
        let currentIngested := Date_parse (ingested_at current) in
        let nextIngested := Date_parse (ingested_at next) in
        if time_ge nextIngested currentIngested then ret (mapSet key next m)
        else ret m
  end.

Fixpoint mergeAll `{Runtime} (allowlistSet : gset string)
    (observations : list Observation) (m : obsMap) : result obsMap :=
  match observations with
  | [] => ret m
  | obs :: rest =>
      let? m' := mergeObservation allowlistSet m obs in
      mergeAll allowlistSet rest m'
  end.

(** The comparator of the final sort. *)
Definition compareObservations `{Runtime} (a b : Observation) : Z :=
  let patientOrder := comparePatientId (patient_id a) (patient_id b) in
  if negb (patientOrder =? 0) then patientOrder
  else if negb (String.eqb (code a) (code b)) then localeCompare (code a) (code b)
  else localeCompare (effective_datetime a) (effective_datetime b).

Definition normalizeObservations `{Runtime} (observations : list Observation)
    (allowlist : gset string) : result (list Observation) :=
  let? m := mergeAll allowlist observations [] in
  ret (sortBy compareObservations (map snd m)).

(** ** Vocabulary of the normaliser's properties *)

(** The key under which a record of the result is held. *)
Definition recordKey (v : Observation) : string :=
  buildKey (patient_id v) (code v) (effective_datetime v) (unit v).

(** The observation with its time replaced. *)
Definition withEffective (obs : Observation) (roundedEffective : string) : Observation :=
  {| patient_id := patient_id obs; code := code obs; unit := unit obs;
     source := source obs; effective_datetime := roundedEffective;
     ingested_at := ingested_at obs; others := others obs |}.

(** The offset and suffix that [parseOffset] can return. *)
Definition normalOffset (minutes : Z) (suffix : string) : Prop :=
  (minutes = 0 /\ suffix = "Z"%string)
  \/ exists sign h1 h2 m1 m2,
       (sign = "+"%char \/ sign = "-"%char)
       /\ isDigit h1 = true /\ isDigit h2 = true
       /\ isDigit m1 = true /\ isDigit m2 = true
       /\ suffix = str [sign; h1; h2; ":"%char; m1; m2]
       /\ minutes = (if Ascii.eqb sign "-" then -1 else 1)
                    * (digitsValue [h1; h2] * 60 + digitsValue [m1; m2]).

(** The source of the record is on the allowlist. *)
Definition allowed (allowlist : gset string) (v : Observation) : Prop :=
  source v ∈ allowlist.

(** The record [v] is held for observation [o]: it is as trusted as [o] or
    more, and among records trusted alike it was ingested no earlier. *)
Definition preferred `{Runtime} (allowlist : gset string) (o v : Observation) : Prop :=
  (allowed allowlist o -> allowed allowlist v)
  /\ ((allowed allowlist o <-> allowed allowlist v) ->
      forall t t', Date_parse (ingested_at o) = Some t ->
                   Date_parse (ingested_at v) = Some t' -> t <= t').

(** What the loop maintains over the observations [seen] so far. *)
Record mergeInvariant `{Runtime} (allowlist : gset string) (seen : list Observation)
    (m : obsMap) : Prop := {
  keys_once : List.NoDup (map fst m);
  entry_origin : forall k v, In (k, v) m ->
    k = recordKey v
    /\ exists o, In o seen
         /\ roundToFiveMinutesIso (effective_datetime o) = inr (effective_datetime v)
         /\ v = withEffective o (effective_datetime v);
  seen_held : forall o, In o seen ->
    exists r v, roundToFiveMinutesIso (effective_datetime o) = inr r
                /\ In (recordKey (withEffective o r), v) m
                /\ preferred allowlist o v
}.

(** A heart rate of patient 7 from the laboratory system. *)
Definition obsLab : Observation :=
  {| patient_id := IdNumber 7; code := "HR"; unit := "bpm"; source := "LIS";
     effective_datetime := "2026-01-15T08:03:10+05:30";
     ingested_at := "2026-01-15T09:00:00Z"; others := [] |}.

(** The same measurement from a source that is not on the allowlist, with the
    patient as text, a minute later and ingested later. *)
Definition obsApp : Observation :=
  {| patient_id := IdString "7"; code := "HR"; unit := "bpm"; source := "APP";
     effective_datetime := "2026-01-15T08:04:10+05:30";
     ingested_at := "2026-01-15T10:00:00Z"; others := [] |}.

(** An observation whose time has no offset and is no date. *)
Definition obsUndated : Observation :=
  {| patient_id := IdNumber 7; code := "HR"; unit := "bpm"; source := "LIS";
     effective_datetime := "this morning";
     ingested_at := "2026-01-15T09:00:00Z"; others := [] |}.

End Observations.

(** * A runtime for closed examples

    Collation by code units, no date format beyond the zoned date-time
    strings, and the identity in place of the digest. *)

Definition codeUnitCompare (a b : string) : Z :=
  match String.compare a b with
  | Eq => 0
  | Lt => -1
  | Gt => 1
  end.

Lemma ascii_compare_trans (a b c : ascii) :
  Ascii.compare a b = Lt -> Ascii.compare b c = Lt -> Ascii.compare a c = Lt.
Proof.
  unfold Ascii.compare. rewrite !N.compare_lt_iff. lia.
Qed.

Lemma string_compare_trans (a b c : string) :
  String.compare a b <> Gt -> String.compare b c <> Gt -> String.compare a c <> Gt.
Proof.
  revert b c. induction a as [|x a IH]; intros [|y b] [|z c]; simpl; try congruence.
  destruct (Ascii.compare x y) eqn:Hxy; try congruence;
    destruct (Ascii.compare y z) eqn:Hyz; try congruence.
  - apply Ascii.compare_eq_iff in Hxy, Hyz. subst.
    rewrite (proj2 (N.compare_eq_iff _ _) eq_refl : Ascii.compare z z = Eq). apply IH.
  - apply Ascii.compare_eq_iff in Hxy. subst. rewrite Hyz. congruence.
  - apply Ascii.compare_eq_iff in Hyz. subst. rewrite Hxy. congruence.
  - rewrite (ascii_compare_trans _ _ _ Hxy Hyz). congruence.
Qed.

Lemma codeUnitCompare_sym a b :
  Z.sgn (codeUnitCompare b a) = - Z.sgn (codeUnitCompare a b).
Proof.
  unfold codeUnitCompare. rewrite (String.compare_antisym a b).
  destruct (String.compare b a); reflexivity.
Qed.

Lemma codeUnitCompare_trans a b c :
  codeUnitCompare a b <= 0 -> codeUnitCompare b c <= 0 -> codeUnitCompare a c <= 0.
Proof.
  unfold codeUnitCompare. intros Hab Hbc.
  pose proof (string_compare_trans a b c) as Ht.
  destruct (String.compare a b), (String.compare b c), (String.compare a c);
    try lia; exfalso; apply Ht; congruence.
Qed.

Definition exampleRuntime : Runtime :=
  {| sha256Hex := fun input => input;
     localeCompare := codeUnitCompare;
     localeCompare_sym := codeUnitCompare_sym;
     localeCompare_trans := codeUnitCompare_trans;
     Date_parse_host := fun _ => None |}.

(** A collation that ignores the soft hyphen (code unit 173), as the
    collations of the Unicode standard do: identifiers that differ only in
    soft hyphens compare as equal. *)
Definition withoutSoftHyphens (s : string) : string :=
  str (List.filter (fun c => negb (Ascii.eqb c "173"%char)) (chars s)).

Definition ignoringCompare (a b : string) : Z :=
  codeUnitCompare (withoutSoftHyphens a) (withoutSoftHyphens b).

Definition ignoringRuntime : Runtime :=
  {| sha256Hex := fun input => input;
     localeCompare := ignoringCompare;
     localeCompare_sym := fun a b => codeUnitCompare_sym _ _;
     localeCompare_trans := fun a b c => codeUnitCompare_trans _ _ _;
     Date_parse_host := fun _ => None |}.

(** * Vocabulary of the properties *)

(** The horizon length is an integer from 1 to 30. *)
Definition validDays (days : number) : Prop :=
  exists n, days = Int n /\ 1 <= n <= 30.

(** What §4.2 asks of an order. *)
Definition wellFormedOrder (o : Order) : Prop :=
  order_id o <> ""%string /\ patient_id o <> ""%string
  /\ (exists tz, tz_offset_minutes o = Int tz)
  /\ (exists n, frequency_per_day o = Int n /\ 1 <= n <= 6)
  /\ (exists p, priority o = Int p /\ 1 <= p <= 5)
  /\ (exists w, window_minutes o = Int w /\ 0 <= w).

(** The minutes from dose [i] to the next dose, the one after the last being
    the next cycle's anchor, 1440 minutes after this cycle's. *)
Definition doseInterval (n i : Z) : Z :=
  (if i + 1 <? n then minutesFromCycleStart n (i + 1) else 1440)
  - minutesFromCycleStart n i.

Definition sumZ (l : list Z) : Z := fold_right Z.add 0 l.

(** A run of exactly [n] decimal digits. *)
Definition digits (n : nat) (l : list ascii) : Prop :=
  length l = n /\ Forall (fun c => isDigit c = true) l.

(** [YYYY-MM-DD] *)
Definition dateOnlyForm (s : string) : Prop :=
  exists y m d, digits 4 y /\ digits 2 m /\ digits 2 d
    /\ chars s = y ++ "-"%char :: m ++ "-"%char :: d.

(** [YYYY-MM-DDTHH:MM] and [YYYY-MM-DDTHH:MM:SS] *)
Definition naiveForm (s : string) : Prop :=
  exists y mo d hh mm, digits 4 y /\ digits 2 mo /\ digits 2 d
    /\ digits 2 hh /\ digits 2 mm
    /\ let stem := y ++ "-"%char :: mo ++ "-"%char :: d ++ "T"%char :: hh
                     ++ ":"%char :: mm in
       chars s = stem
       \/ exists ss, digits 2 ss /\ chars s = stem ++ ":"%char :: ss.

(** A final [Z], or a final signed [HH:MM]. *)
Definition zoneSuffix (s : string) : Prop :=
  (exists p, chars s = p ++ ["Z"%char])
  \/ (exists p sign hh mm, (sign = "+"%char \/ sign = "-"%char)
        /\ digits 2 hh /\ digits 2 mm
        /\ chars s = p ++ sign :: hh ++ ":"%char :: mm).

(** A zone-qualified string that [Date.parse] reads as an instant. *)
Definition zonedForm `{Runtime} (s : string) : Prop :=
  zoneSuffix s /\ Date_parse s <> None.

(** The call throws. *)
Definition throws {A} (r : result A) : Prop := exists e, r = inl e.

(** The instants of the daily template: [cycle] of 0 to [days], dose [i] of
    [n], from the anchor at 08:00 local time of the start date. *)
Definition templateInstant (anchor : Z) (n cycle i : Z) : Z :=
  anchor + START_HOUR * 60 * MS_PER_MIN + cycle * MS_PER_DAY
  + minutesFromCycleStart n i * MS_PER_MIN.

(** The instant the loops form for dose [i] of [cycle], each sum a double. *)
Definition candidateInstant (anchor : Z) (n cycle i : Z) : Z :=
  double (double (double (anchor + START_HOUR * 60 * MS_PER_MIN)
                  + mulDouble cycle MS_PER_DAY)
          + mulDouble (minutesFromCycleStart n i) MS_PER_MIN).

(** The end of an order's active window, once read. *)
Definition orderEndIs `{Runtime} (o : Order) (orderEndUtc : num) : Prop :=
  match end_datetime o with
  | None => orderEndUtc = PosInf
  | Some e =>
      exists t, parseIsoInFixedOffset e (intValue (tz_offset_minutes o)) = inr t
                /\ orderEndUtc = ofTime t
  end.

(** Candidates that do not conflict: at least the overlap window apart. *)
Definition apart (a b : ScheduledDose) : Prop :=
  OVERLAP_WINDOW_MS <= Z.abs (utcMs a - utcMs b).

(** What the scan maintains: [keptByMinute] indexes exactly the accepted
    candidates [acc], each under its own minute, and these are pairwise apart. *)
Record scanInvariant (keptByMinute : gmap Z ScheduledDose)
    (acc : list ScheduledDose) : Prop := {
  indexed_sound : forall m d, keptByMinute !! m = Some d -> In d acc /\ minuteOf d = m;
  indexed_complete : forall d, In d acc -> keptByMinute !! minuteOf d = Some d;
  accepted_apart : ForallOrdPairs apart acc
}.

(** The candidates a group keeps: the scan of its sorted array from nothing. *)
Definition groupWinners `{Runtime} (groupDoses : list ScheduledDose) : list ScheduledDose :=
  (fold_left scanDose (sortBy comparePriority groupDoses) (∅, [])).2.

Definition bucketStep (st : keyedDoses * list ScheduledDose) (d : ScheduledDose)
  : keyedDoses * list ScheduledDose :=
  if negb (hasGroup d) then (st.1, st.2 ++ [d])
  else (byKeyPush (groupKey d) d st.1, st.2).

(** What the first loop maintains over the candidates [src] seen so far. *)
Record bucketInvariant (src : list ScheduledDose) (byKey : keyedDoses)
    (passthrough : list ScheduledDose) : Prop := {
  keys_distinct : List.NoDup (map fst byKey);
  keyed_grouped : forall k arr d, In (k, arr) byKey -> In d arr ->
                    hasGroup d = true /\ groupKey d = k /\ In d src;
  passthrough_ungrouped : forall d, In d passthrough -> hasGroup d = false /\ In d src
}.

(** Both candidates are grouped, under the same entry of [byKey]. *)
Definition sameKey (a b : ScheduledDose) : Prop :=
  hasGroup a = true /\ hasGroup b = true /\ groupKey a = groupKey b.



(** Order identifiers that differ are told apart by the collation. *)
Definition collationSeparates `{Runtime} (doses : list ScheduledDose) : Prop :=
  forall a b, In a doses -> In b doses ->
    localeCompare (orderId a) (orderId b) = 0 -> orderId a = orderId b.

(** [a] comes no later than [b] in the output: an earlier instant, or the
    same instant and an order identifier that collates no later. *)
Definition instantLe `{Runtime} (a b : ScheduledDose) : Prop :=
  utcMs a < utcMs b
  \/ (utcMs a = utcMs b /\ localeCompare (orderId a) (orderId b) <= 0).

(** [n.toString().padStart(2, '0')] as characters. *)
Definition twoDigits (n : Z) : list ascii := chars (padStart 2 (Z_toString n)).

Definition digitsb (n : nat) (l : list ascii) : bool :=
  (length l =? n)%nat && forallb isDigit l.

(** ** Example inputs *)

(** A once-a-day order of patient P from 2026-01-15, without a group. *)
Definition orderA : Order :=
  {| order_id := "A"; patient_id := "P"; tz_offset_minutes := Int 0;
     start_datetime := "2026-01-15T00:00"; end_datetime := None;
     frequency_per_day := Int 1; window_minutes := Int 0;
     do_not_overlap_group := None; priority := Int 1 |}.

(** An order that fails several field checks, the frequency first. *)
Definition orderPriority6 : Order :=
  {| order_id := "B"; patient_id := "P"; tz_offset_minutes := Int 0;
     start_datetime := "not a timestamp"; end_datetime := None;
     frequency_per_day := Int 7; window_minutes := NonInt;
     do_not_overlap_group := None; priority := Int 6 |}.

(** The event of [orderA] at a rendered time, under [exampleRuntime]. *)
Definition eventA (scheduled : string) : DoseEvent :=
  {| event_id := "A|" +:+ scheduled; event_order_id := "A";
     scheduled_time := scheduled; status := "SCHEDULED" |}.

(** [orderA] at three doses a day. *)
Definition orderThrice : Order :=
  {| order_id := "A"; patient_id := "P"; tz_offset_minutes := Int 0;
     start_datetime := "2026-01-15T00:00"; end_datetime := None;
     frequency_per_day := Int 3; window_minutes := Int 0;
     do_not_overlap_group := None; priority := Int 1 |}.

(** A once-a-day order whose group name is the empty string. *)
Definition orderEmptyGroup (id : string) : Order :=
  {| order_id := id; patient_id := "P"; tz_offset_minutes := Int 0;
     start_datetime := "2026-01-15T00:00"; end_datetime := None;
     frequency_per_day := Int 1; window_minutes := Int 0;
     do_not_overlap_group := Some ""%string; priority := Int 1 |}.

(** A once-a-day order in group G, with priority [p]. *)
Definition orderGrouped (id : string) (p : Z) : Order :=
  {| order_id := id; patient_id := "P"; tz_offset_minutes := Int 0;
     start_datetime := "2026-01-15T00:00"; end_datetime := None;
     frequency_per_day := Int 1; window_minutes := Int 0;
     do_not_overlap_group := Some "G"%string; priority := Int p |}.

(** ** Further vocabulary *)

(** Both timestamps of the order are read without an error. *)
Definition timestampsRead `{Runtime} (o : Order) : Prop :=
  let offset := intValue (tz_offset_minutes o) in
  (exists t, parseIsoInFixedOffset (start_datetime o) offset = inr t)
  /\ forall x, end_datetime o = Some x ->
       exists t, parseIsoInFixedOffset x offset = inr t.

(** [e] is the error of the first timestamp of the order that cannot be
    read: of its start, or else of its end. *)
Definition timestampError `{Runtime} (o : Order) (e : exn) : Prop :=
  let offset := intValue (tz_offset_minutes o) in
  parseIsoInFixedOffset (start_datetime o) offset = inl e
  \/ ((exists t, parseIsoInFixedOffset (start_datetime o) offset = inr t)
      /\ exists x, end_datetime o = Some x
                   /\ parseIsoInFixedOffset x offset = inl e).

(** An order of valid fields whose end is not a timestamp. *)
Definition orderUnreadableEnd : Order :=
  {| order_id := "B"; patient_id := "P"; tz_offset_minutes := Int 0;
     start_datetime := "2026-01-15T00:00"; end_datetime := Some "soon"%string;
     frequency_per_day := Int 1; window_minutes := Int 0;
     do_not_overlap_group := None; priority := Int 1 |}.

(** An order of valid fields whose start is a date without a time. *)
Definition orderUnreadableStart : Order :=
  {| order_id := "C"; patient_id := "P"; tz_offset_minutes := Int 0;
     start_datetime := "2026-01-15"; end_datetime := None;
     frequency_per_day := Int 1; window_minutes := Int 0;
     do_not_overlap_group := None; priority := Int 1 |}.

(** The hyphens of a string. *)
Definition hyphens (s : string) : nat := count_occ ascii_dec (chars s) "-"%char.

(** The optional seconds of a naive timestamp: [:SS] or nothing. *)
Definition secondsPart (ss : list ascii) : list ascii :=
  match ss with [] => [] | _ :: _ => ":"%char :: ss end.

(** [a] is strictly before [b]. *)
Definition earlier (a b : ScheduledDose) : Prop := utcMs a < utcMs b.

(** A candidate that bypasses the resolver: it has no group name. *)
Definition ungrouped (d : ScheduledDose) : bool := negb (hasGroup d).


(** An anchor from which the instants of a horizon of up to 30 days, one
    more cycle included, stay below 2^53: none of the sums is rounded. *)
Definition exactAnchor (globalStartUtc : option Z) : Prop :=
  forall anchor, globalStartUtc = Some anchor -> Z.abs anchor <= 9000000000000000.


(** The entries of a map whose arrays are not empty. *)
Definition nonEmptyEntries (byKey : keyedDoses) : keyedDoses :=
  List.filter (fun entry => match entry.2 with [] => false | _ :: _ => true end) byKey.

(** [round(a / b)] for a positive [b]: the nearest integer, a half going up. *)
Definition roundDiv (a b : Z) : Z := (2 * a + b) / (2 * b).

(** The order's active window, once read: its start, and its end if it has
    one. *)
Definition activeWindow `{Runtime} (o : Order) (start : Z) (stop : option Z) : Prop :=
  let offset := intValue (tz_offset_minutes o) in
  parseIsoInFixedOffset (start_datetime o) offset = inr (Some start)
  /\ match end_datetime o with
     | None => stop = None
     | Some text =>
         exists e, parseIsoInFixedOffset text offset = inr (Some e) /\ stop = Some e
     end.

(** The effective window is the horizon, [days] days of 86,400,000 ms from
    the anchor, met with the active window: it starts at the later start and
    ends at the earlier end. *)
Definition effectiveStartOf (anchor start : Z) : Z := Z.max anchor start.

Definition effectiveEndOf (anchor days : Z) (stop : option Z) : Z :=
  match stop with
  | Some e => Z.min (anchor + days * 86400000) e
  | None => anchor + days * 86400000
  end.

(** The text of a local date and time at an offset: the year, then the
    month, the day, the hour, the minute and the second in two digits each,
    then the sign of the offset with its hours and minutes, in two digits
    each below 100 hours. *)
Definition localIsoText (localMs offsetMinutes : Z) : list ascii :=
  chars (Z_toString (YearFromTime localMs))
  ++ "-"%char :: twoDigits (MonthFromTime localMs + 1)
  ++ "-"%char :: twoDigits (DateFromTime localMs)
  ++ "T"%char :: twoDigits (HourFromTime localMs)
  ++ ":"%char :: twoDigits (MinFromTime localMs)
  ++ ":"%char :: twoDigits (SecFromTime localMs)
  ++ (if 0 <=? offsetMinutes then "+"%char else "-"%char)
     :: twoDigits (Z.abs offsetMinutes / 60)
  ++ ":"%char :: twoDigits (Z.abs offsetMinutes mod 60).

(** Three doses a day at offset +05:30, from noon of 2026-01-15 to noon of
    the next day. *)
Definition orderWindowed : Order :=
  {| order_id := "W"; patient_id := "P"; tz_offset_minutes := Int 330;
     start_datetime := "2026-01-15T12:00";
     end_datetime := Some "2026-01-16T12:00:00+05:30"%string;
     frequency_per_day := Int 3; window_minutes := Int 30;
     do_not_overlap_group := None; priority := Int 1 |}.

(** [orderA] at an offset of 10^19 minutes, an integer that a double holds. *)
Definition orderHuge : Order :=
  {| order_id := "A"; patient_id := "P"; tz_offset_minutes := Int (10 ^ 19);
     start_datetime := "2026-01-15T00:00"; end_datetime := None;
     frequency_per_day := Int 1; window_minutes := Int 0;
     do_not_overlap_group := None; priority := Int 1 |}.

(** The candidate has a group name, and it is not the empty string. *)
Definition grouped (d : ScheduledDose) : Prop :=
  exists g, group d = Some g /\ g <> ""%string.

(** Strictly within 60 minutes, 3,600,000 ms, of each other. *)
Definition within60 (a b : ScheduledDose) : Prop :=
  Z.abs (utcMs a - utcMs b) < 3600000.

(** The key [patient::group] tells the (patient, group) pairs of the
    candidates apart: grouped candidates with the same key have the same
    patient and the same group name. *)
Definition keysSeparate (doses : list ScheduledDose) : Prop :=
  forall a b, In a doses -> In b doses -> grouped a -> grouped b ->
    groupKey a = groupKey b -> patientId a = patientId b /\ group a = group b.

(** [a] comes strictly before [b] in the tie-break order: a higher
    priority; or the same priority and an order identifier that collates
    earlier; or the same priority and order identifier and an earlier
    instant. *)
Definition tupleEarlier `{Runtime} (a b : ScheduledDose) : Prop :=
  dosePriority b < dosePriority a
  \/ (dosePriority a = dosePriority b
      /\ (localeCompare (orderId a) (orderId b) < 0
          \/ (orderId a = orderId b /\ utcMs a < utcMs b))).

(** The same priority, order identifier and instant. *)
Definition tupleSame (a b : ScheduledDose) : Prop :=
  dosePriority a = dosePriority b /\ orderId a = orderId b /\ utcMs a = utcMs b.

(** A once-a-day order from 2026-01-15 with a group name. *)
Definition orderIn (id patient grp : string) (offset p : Z) : Order :=
  {| order_id := id; patient_id := patient; tz_offset_minutes := Int offset;
     start_datetime := "2026-01-15T00:00"; end_datetime := None;
     frequency_per_day := Int 1; window_minutes := Int 0;
     do_not_overlap_group := Some grp; priority := Int p |}.

(** The identifier A followed by a soft hyphen. *)
Definition idSoftA : string := String "A" (String "173" EmptyString).

(** [orderA] at an offset of 2^53 + 6 minutes, an integer that a double
    holds. *)
Definition orderFar : Order :=
  {| order_id := "A"; patient_id := "P"; tz_offset_minutes := Int (2 ^ 53 + 6);
     start_datetime := "2026-01-15T00:00"; end_datetime := None;
     frequency_per_day := Int 1; window_minutes := Int 0;
     do_not_overlap_group := None; priority := Int 1 |}.

(** An event of an order at a rendered time, under [exampleRuntime]. *)
Definition eventOf (id scheduled : string) : DoseEvent :=
  {| event_id := id +:+ "|" +:+ scheduled; event_order_id := id;
     scheduled_time := scheduled; status := "SCHEDULED" |}.

(** The frequencies of the orders, summed. *)
Definition dosesPerDay (orders : list Order) : Z :=
  sumZ (map (fun o => intValue (frequency_per_day o)) orders).

(** An offset of at most 10^11 minutes: with a start date or a timestamp of
    a four-digit year, every product and sum that the scheduler forms from it
    stays below 2^53, so that none is rounded. *)
Definition exactOffset (offsetMinutes : Z) : Prop :=
  Z.abs offsetMinutes <= 100000000000.

(** Every order has such an offset. *)
Definition exactOffsets (orders : list Order) : Prop :=
  Forall (fun o => exactOffset (intValue (tz_offset_minutes o))) orders.

(** * Properties *)

(** ** Doubles *)

(** Below 2^53 an integer is a double, and nothing is rounded. *)
Lemma double_exact (v : Z) : Z.abs v < 9007199254740992 -> double v = v.
Proof.
  intros Hv. unfold double. cbv zeta.
  change (2 ^ 53) with 9007199254740992.
  destruct (Z.ltb_spec (Z.abs v) 9007199254740992); [reflexivity | lia].
Qed.

Lemma mulDouble_exact (a b : Z) :
  Z.abs (a * b) < 9007199254740992 -> mulDouble a b = a * b.
Proof. apply double_exact. Qed.

Lemma addDouble_exact (a b : Z) :
  Z.abs (a + b) < 9007199254740992 -> addDouble a b = a + b.
Proof. apply double_exact. Qed.

(** The local time of the renderer, where the sum is exact. *)
Lemma localMs_exact (utc offset : Z) :
  Z.abs (offset * MS_PER_MIN) < 9007199254740992 ->
  Z.abs (utc + offset * MS_PER_MIN) < 9007199254740992 ->
  addDouble utc (mulDouble offset MS_PER_MIN) = utc + offset * MS_PER_MIN.
Proof.
  intros Ho Hl. rewrite (mulDouble_exact _ _ Ho). apply addDouble_exact, Hl.
Qed.

(** ** Order validation and the order of failures *)

Lemma notIntegerIn_false n lo hi :
  notIntegerIn n lo hi = false <-> exists z, n = Int z /\ lo <= z <= hi.
Proof.
  destruct n as [z|]; simpl.
  - rewrite orb_false_iff, !Z.ltb_ge. split.
    + intros [? ?]. exists z. split; [reflexivity | lia].
    + intros (z' & Hz & ?). injection Hz as ->. lia.
  - split; [discriminate | intros (z & Hz & _); discriminate].
Qed.

Lemma validDays_dec days : validDays days <-> notIntegerIn days 1 30 = false.
Proof. symmetry. apply notIntegerIn_false. Qed.

Lemma forEach_app {A} (f : A -> result unit) xs ys :
  forEach f (xs ++ ys) = let? _ := forEach f xs in forEach f ys.
Proof.
  induction xs as [|x xs IH]; simpl; [reflexivity|].
  destruct (f x) as [e|[]]; simpl; [reflexivity | exact IH].
Qed.

Lemma forEach_all_ok {A} (f : A -> result unit) xs :
  Forall (fun x => f x = ret tt) xs -> forEach f xs = ret tt.
Proof.
  induction 1 as [|x xs Hx _ IH]; simpl; [reflexivity|].
  rewrite Hx. exact IH.
Qed.

(** The first order that fails validation decides the outcome. *)
Lemma forEach_first_failure {A} (f : A -> result unit) before x after e :
  Forall (fun y => f y = ret tt) before -> f x = inl e ->
  forEach f (before ++ x :: after) = inl e.
Proof.
  intros Hb Hx. rewrite forEach_app, (forEach_all_ok _ _ Hb). simpl.
  rewrite Hx. reflexivity.
Qed.

(** C5: a horizon length outside the integers 1..30 fails whatever the orders
    are; with a valid length, the first order (in list order) that fails a
    field check aborts the call with that check's error; a failing call
    returns the error and no events. *)
Theorem generateDoseEvents_fails_fast `{Runtime} (start_date : string)
    (days : number) (orders : list Order) :
  (~ validDays days ->
     generateDoseEvents start_date days orders = throw "days must be 1..30")
  /\ (validDays days ->
      forall before o after e,
        orders = before ++ o :: after ->
        Forall (fun p => validateOrder p = ret tt) before ->
        validateOrder o = inl e ->
        generateDoseEvents start_date days orders = inl e)
  /\ (forall e, generateDoseEvents start_date days orders = inl e ->
      forall events, generateDoseEvents start_date days orders <> inr events).
Proof.
  unfold generateDoseEvents. repeat split.
  - intros Hd. destruct (notIntegerIn days 1 30) eqn:E; [reflexivity|].
    exfalso. apply Hd, validDays_dec, E.
  - intros Hd before o after e -> Hb Ho.
    apply validDays_dec in Hd. rewrite Hd.
    rewrite (forEach_first_failure _ _ _ _ _ Hb Ho). reflexivity.
  - intros e He events Hev. rewrite He in Hev. discriminate.
Qed.

Lemma generateDoseEvents_fails_fast_witness :
  generateDoseEvents (H := exampleRuntime) "2026-01-15" (Int 31) [orderPriority6]
    = throw "days must be 1..30"
  /\ generateDoseEvents (H := exampleRuntime) "2026-01-15" (Int 30)
       [orderA; orderPriority6; orderA]
     = throw "frequency_per_day must be 1..6".
Proof.
  split.
  - apply (generateDoseEvents_fails_fast (H := exampleRuntime)).
    intros (n & Hn & ?). injection Hn as <-. lia.
  - apply (proj1 (proj2 (generateDoseEvents_fails_fast (H := exampleRuntime)
                            "2026-01-15" (Int 30) [orderA; orderPriority6; orderA])))
      with (before := [orderA]) (o := orderPriority6) (after := [orderA]).
    + exists 30. split; [reflexivity | lia].
    + reflexivity.
    + repeat constructor.
    + reflexivity.
Defined.

Lemma validateOrder_ok (o : Order) :
  validateOrder o = ret tt <-> wellFormedOrder o.
Proof.
  unfold validateOrder, wellFormedOrder.
  destruct (String.eqb_spec (order_id o) "") as [->|Hid].
  { split; [discriminate | intros [[] _]; reflexivity]. }
  destruct (String.eqb_spec (patient_id o) "") as [->|Hp].
  { split; [discriminate | intros (_ & [] & _); reflexivity]. }
  destruct (tz_offset_minutes o) as [tz|]; simpl.
  2:{ split; [discriminate | intros (_ & _ & [tz ?] & _); discriminate]. }
  destruct (notIntegerIn (frequency_per_day o) 1 6) eqn:Ef.
  { split; [discriminate|]. intros (_ & _ & _ & Hf & _).
    apply notIntegerIn_false in Hf. congruence. }
  destruct (notIntegerIn (priority o) 1 5) eqn:Epr.
  { split; [discriminate|]. intros (_ & _ & _ & _ & Hq & _).
    apply notIntegerIn_false in Hq. congruence. }
  apply notIntegerIn_false in Ef, Epr.
  destruct (window_minutes o) as [w|].
  2:{ split; [discriminate | intros (_ & _ & _ & _ & _ & [w [? _]]); discriminate]. }
  destruct (Z.ltb_spec w 0).
  - split; [discriminate|]. intros (_ & _ & _ & _ & _ & (w' & Hw & ?)).
    injection Hw as <-. lia.
  - split; [|reflexivity]. intros _. repeat split; eauto.
Qed.

(** ** The identifier and determinism *)

Lemma toEvent_event_id `{Runtime} (d : ScheduledDose) :
  event_id (toEvent d)
  = sha256Hex (event_order_id (toEvent d) +:+ "|" +:+ scheduled_time (toEvent d)).
Proof. reflexivity. Qed.

Lemma generateDoseEvents_ids `{Runtime} start_date days orders events :
  generateDoseEvents start_date days orders = inr events ->
  forall e, In e events ->
    event_id e = sha256Hex (event_order_id e +:+ "|" +:+ scheduled_time e).
Proof.
  unfold generateDoseEvents. intros Hrun e He.
  destruct (notIntegerIn days 1 30); [discriminate|].
  destruct (forEach validateOrder orders) as [?|[]]; [discriminate|]. simpl in Hrun.
  destruct (collectDoses start_date (intValue days) orders) as [?|allDoses];
    [discriminate|]. simpl in Hrun.
  injection Hrun as <-. apply in_map_iff in He as (d & <- & _).
  apply toEvent_event_id.
Qed.

(** C7: the outcome is a function of [start_date], [days] and [orders]; and in
    the outputs of any two calls, events with the same order identifier and
    rendered timestamp carry the same identifier, the digest of the two. *)
Theorem generateDoseEvents_deterministic `{Runtime}
    (start_date1 start_date2 : string) (days1 days2 : number)
    (orders1 orders2 : list Order) :
  (start_date1 = start_date2 -> days1 = days2 -> orders1 = orders2 ->
   generateDoseEvents start_date1 days1 orders1
   = generateDoseEvents start_date2 days2 orders2)
  /\ (forall events1 events2 e1 e2,
        generateDoseEvents start_date1 days1 orders1 = inr events1 ->
        generateDoseEvents start_date2 days2 orders2 = inr events2 ->
        In e1 events1 -> In e2 events2 ->
        event_order_id e1 = event_order_id e2 ->
        scheduled_time e1 = scheduled_time e2 ->
        event_id e1 = event_id e2).
Proof.
  split.
  - intros -> -> ->. reflexivity.
  - intros events1 events2 e1 e2 Hrun1 Hrun2 He1 He2 Hid Htime.
    rewrite (generateDoseEvents_ids _ _ _ _ Hrun1 e1 He1).
    rewrite (generateDoseEvents_ids _ _ _ _ Hrun2 e2 He2).
    rewrite Hid, Htime. reflexivity.
Qed.

Lemma one_day_of_orderA :
  generateDoseEvents (H := exampleRuntime) "2026-01-15" (Int 1) [orderA]
  = inr [eventA "2026-01-15T08:00:00+00:00"].
Proof. vm_compute. reflexivity. Qed.

Lemma two_days_of_orderA :
  generateDoseEvents (H := exampleRuntime) "2026-01-15" (Int 2) [orderA]
  = inr [eventA "2026-01-15T08:00:00+00:00"; eventA "2026-01-16T08:00:00+00:00"].
Proof. vm_compute. reflexivity. Qed.

Lemma generateDoseEvents_deterministic_witness :
  event_id (eventA "2026-01-15T08:00:00+00:00")
  = event_id (eventA "2026-01-15T08:00:00+00:00").
Proof.
  apply (proj2 (generateDoseEvents_deterministic (H := exampleRuntime)
                  "2026-01-15" "2026-01-15" (Int 1) (Int 2) [orderA] [orderA])
           _ _ _ _ one_day_of_orderA two_days_of_orderA).
  - left. reflexivity.
  - left. reflexivity.
  - reflexivity.
  - reflexivity.
Defined.

(** ** The daily template *)

(** With a frequency that divides the day evenly the offsets are exact. *)
Lemma minutesFromCycleStart_exact (n i : Z) :
  1 <= n <= 6 -> minutesFromCycleStart n i = i * (1440 / n).
Proof.
  intros Hn. unfold minutesFromCycleStart, Math_round.
  assert (Hc : n = 1 \/ n = 2 \/ n = 3 \/ n = 4 \/ n = 5 \/ n = 6) by lia.
  assert (Hk : (inject_Z 1440 / inject_Z n == inject_Z (1440 / n))%Q)
    by (destruct Hc as [->|[->|[->|[->|[->| ->]]]]]; reflexivity).
  rewrite Hk, <- inject_Z_mult.
  generalize (i * (1440 / n)). intros m.
  unfold Qfloor, Qplus, inject_Z. simpl Qnum. simpl Qden.
  change (Z.pos (1 * 2)) with 2. Z.to_euclidean_division_equations. lia.
Qed.

(** C9: for a frequency of 1 to 6 doses a day, the intervals between the
    doses of a cycle, the last one reaching the next cycle's anchor, add up to
    1440 minutes. *)
Theorem daily_intervals_sum (n : Z) :
  1 <= n <= 6 -> sumZ (map (doseInterval n) (seqZ 0 n)) = 1440.
Proof.
  intros Hn.
  assert (Hc : n = 1 \/ n = 2 \/ n = 3 \/ n = 4 \/ n = 5 \/ n = 6) by lia.
  destruct Hc as [->|[->|[->|[->|[->| ->]]]]]; vm_compute; reflexivity.
Qed.

Lemma daily_intervals_sum_witness :
  sumZ (map (doseInterval 5) (seqZ 0 5)) = 1440.
Proof. apply (daily_intervals_sum 5). lia. Defined.

(** ** The pipeline, step by step *)

(** A call that passes the checks returns the events of the winners. *)
Lemma generateDoseEvents_ok `{Runtime} start_date days orders allDoses :
  validDays days ->
  Forall (fun o => validateOrder o = ret tt) orders ->
  collectDoses start_date (intValue days) orders = inr allDoses ->
  generateDoseEvents start_date days orders
  = inr (map toEvent (scheduleWinners allDoses)).
Proof.
  intros Hd Hv Hc. unfold generateDoseEvents.
  apply validDays_dec in Hd. rewrite Hd, (forEach_all_ok _ _ Hv).
  unfold bind at 1. rewrite Hc. reflexivity.
Qed.

Lemma forEach_ok_inv {A} (f : A -> result unit) xs :
  forEach f xs = ret tt -> Forall (fun x => f x = ret tt) xs.
Proof.
  induction xs as [|x xs IH]; simpl; intros Hrun; constructor.
  - destruct (f x) as [e|[]]; [discriminate | reflexivity].
  - apply IH. destruct (f x) as [e|[]]; [discriminate | exact Hrun].
Qed.

(** Conversely, a call that returns has passed the checks. *)
Lemma generateDoseEvents_inv `{Runtime} start_date days orders events :
  generateDoseEvents start_date days orders = inr events ->
  validDays days
  /\ Forall (fun o => validateOrder o = ret tt) orders
  /\ exists allDoses,
       collectDoses start_date (intValue days) orders = inr allDoses
       /\ events = map toEvent (scheduleWinners allDoses).
Proof.
  unfold generateDoseEvents. intros Hrun.
  destruct (notIntegerIn days 1 30) eqn:Ed; [discriminate|].
  destruct (forEach validateOrder orders) as [?|[]] eqn:Ev; [discriminate|].
  unfold bind at 1 in Hrun.
  destruct (collectDoses start_date (intValue days) orders) as [?|allDoses] eqn:Ec;
    [discriminate|].
  injection Hrun as <-. split; [apply validDays_dec, Ed|].
  split; [apply forEach_ok_inv, Ev|]. exists allDoses. split; reflexivity.
Qed.

(** The generator, once its three timestamps are read. *)
Lemma generateScheduledTimes_eq `{Runtime} startDate days o
    (globalStartUtc orderStartUtc : option Z) (orderEndUtc : num) :
  localMidnightUtcMs startDate (intValue (tz_offset_minutes o)) = inr globalStartUtc ->
  parseIsoInFixedOffset (start_datetime o) (intValue (tz_offset_minutes o))
    = inr orderStartUtc ->
  match end_datetime o with
  | None => orderEndUtc = PosInf
  | Some e => exists t, parseIsoInFixedOffset e (intValue (tz_offset_minutes o)) = inr t
                        /\ orderEndUtc = ofTime t
  end ->
  generateScheduledTimes startDate days o
  = ret (let w := effectiveWindow globalStartUtc days orderStartUtc orderEndUtc in
         if num_gt w.1 w.2 then []
         else dedupe ∅ (templateDoses o globalStartUtc days w.1 w.2)).
Proof.
  intros Hg Hs He. unfold generateScheduledTimes. rewrite Hg, Hs.
  unfold bind at 1 2.
  assert (Hend : match end_datetime o with
                 | Some e =>
                     let? t := parseIsoInFixedOffset e (intValue (tz_offset_minutes o))
                     in ret (ofTime t)
                 | None => ret PosInf
                 end = ret orderEndUtc).
  { destruct (end_datetime o) as [e|]; [|rewrite He; reflexivity].
    destruct He as (t & -> & ->). reflexivity. }
  rewrite Hend. unfold bind, ret.
  destruct (effectiveWindow globalStartUtc days orderStartUtc orderEndUtc) as [s e].
  simpl fst. simpl snd. destruct (num_gt s e); reflexivity.
Qed.

(** ** Resolution of a single candidate *)

Lemma hasConflict_empty (d : ScheduledDose) : hasConflict ∅ d = false.
Proof.
  unfold hasConflict. induction (seqZ (minuteOf d - 60) 121) as [|m l IH];
    simpl; [reflexivity|].
  rewrite lookup_empty. exact IH.
Qed.

Lemma dedupe_singleton (d : ScheduledDose) : dedupe ∅ [d] = [d].
Proof.
  simpl. destruct (decide (seenKey d ∈ (∅ : gset string))) as [Hin|_];
    [|reflexivity].
  exfalso. revert Hin. apply not_elem_of_empty.
Qed.

Lemma resolveOverlaps_singleton `{Runtime} (d : ScheduledDose) :
  resolveOverlaps [d] = [d].
Proof.
  unfold resolveOverlaps, bucketDoses. simpl.
  destruct (hasGroup d); simpl; [|reflexivity].
  unfold resolveGroup, scanDose. simpl. rewrite hasConflict_empty. reflexivity.
Qed.

(** ** The horizon-boundary example *)

Lemma midnight_2026_01_15 :
  localMidnightUtcMs "2026-01-15" 0 = inr (Some 1768435200000).
Proof. vm_compute. reflexivity. Qed.

Lemma naive_2026_01_15 `{Runtime} :
  parseIsoInFixedOffset "2026-01-15T00:00" 0 = inr (Some 1768435200000).
Proof. vm_compute. reflexivity. Qed.

Lemma render_2026_01_15_0800 :
  toIsoInFixedOffset 1768464000000 0 = "2026-01-15T08:00:00+00:00"%string.
Proof. vm_compute. reflexivity. Qed.

(** C8: one day from 2026-01-15 and a single once-a-day order at offset 0
    that starts at 2026-01-15T00:00 with no end and window 0 give exactly one
    event, at 2026-01-15T08:00:00+00:00; the identifiers, the group and the
    priority are any valid ones. *)
Theorem horizon_boundary_example `{Runtime} (id patient : string)
    (grp : option string) (p : Z) :
  id <> ""%string -> patient <> ""%string -> 1 <= p <= 5 ->
  generateDoseEvents "2026-01-15" (Int 1)
    [ {| order_id := id; patient_id := patient; tz_offset_minutes := Int 0;
         start_datetime := "2026-01-15T00:00"; end_datetime := None;
         frequency_per_day := Int 1; window_minutes := Int 0;
         do_not_overlap_group := grp; priority := Int p |} ]
  = inr [ {| event_id := sha256Hex (id +:+ "|2026-01-15T08:00:00+00:00");
             event_order_id := id;
             scheduled_time := "2026-01-15T08:00:00+00:00";
             status := "SCHEDULED" |} ].
Proof.
  intros Hid Hpat Hp.
  set (o := {| order_id := id |}).
  assert (Hvalid : validateOrder o = ret tt).
  { apply validateOrder_ok.
    refine (conj Hid (conj Hpat (conj (ex_intro _ 0 eq_refl)
             (conj (ex_intro _ 1 (conj eq_refl _))
                (conj (ex_intro _ p (conj eq_refl Hp))
                   (ex_intro _ 0 (conj eq_refl _))))))); lia. }
  assert (Hgen : generateScheduledTimes "2026-01-15" 1 o
                 = ret [doseAt o 1768464000000]).
  { rewrite (generateScheduledTimes_eq _ _ o (Some 1768435200000)
               (Some 1768435200000) PosInf
               midnight_2026_01_15 naive_2026_01_15 eq_refl).
    rewrite <- dedupe_singleton. reflexivity. }
  rewrite (generateDoseEvents_ok _ _ _ [doseAt o 1768464000000]).
  - unfold scheduleWinners. rewrite resolveOverlaps_singleton.
    unfold sortBy, fold_right, insertSorted, map, toEvent.
    cbn [utcMs tzOffset orderId doseAt o order_id tz_offset_minutes intValue].
    rewrite render_2026_01_15_0800. reflexivity.
  - exists 1. split; [reflexivity | lia].
  - constructor; [exact Hvalid | constructor].
  - cbn [collectDoses intValue]. rewrite Hgen. reflexivity.
Qed.

Lemma horizon_boundary_example_witness :
  generateDoseEvents (H := exampleRuntime) "2026-01-15" (Int 1) [orderA]
  = inr [ {| event_id := "A|2026-01-15T08:00:00+00:00";
             event_order_id := "A";
             scheduled_time := "2026-01-15T08:00:00+00:00";
             status := "SCHEDULED" |} ].
Proof.
  apply (horizon_boundary_example (H := exampleRuntime) "A" "P" None 1).
  - discriminate.
  - discriminate.
  - lia.
Defined.

(** ** The timestamp forms *)

Lemma digits_cons n c l : digits (S n) (c :: l) <-> isDigit c = true /\ digits n l.
Proof.
  unfold digits. simpl. rewrite Forall_cons_iff. split.
  - intros (Hl & Hc & Hf). injection Hl as Hl. auto.
  - intros (Hc & Hl & Hf). auto.
Qed.

Lemma digits_nil l : digits 0 l <-> l = [].
Proof.
  unfold digits. split.
  - intros [Hl _]. destruct l; [reflexivity | discriminate].
  - intros ->. split; [reflexivity | constructor].
Qed.

(** [takeDigits] reads exactly a run of [n] digits. *)
Lemma takeDigits_Some n acc l v r :
  takeDigits n acc l = Some (v, r) <->
  exists ds, digits n ds /\ l = ds ++ r
             /\ v = fold_left (fun a c => 10 * a + digitValue c) ds acc.
Proof.
  revert acc l. induction n as [|n IH]; intros acc l; simpl.
  - split.
    + intros [= <- <-]. exists []. rewrite digits_nil. auto.
    + intros (ds & Hd & -> & ->). apply digits_nil in Hd as ->. reflexivity.
  - destruct l as [|c l].
    + split; [discriminate|]. intros (ds & Hd & Hl & _).
      destruct ds; [destruct Hd; discriminate | discriminate].
    + destruct (isDigit c) eqn:Ec.
      * rewrite IH. split.
        -- intros (ds & Hd & -> & ->). exists (c :: ds).
           rewrite digits_cons. auto.
        -- intros (ds & Hd & Hl & ->). destruct ds as [|c' ds];
             [destruct Hd; discriminate|].
           injection Hl as <- ->. apply digits_cons in Hd as [_ Hd].
           exists ds. auto.
      * split; [discriminate|]. intros (ds & Hd & Hl & _).
        destruct ds as [|c' ds]; [destruct Hd; discriminate|].
        injection Hl as <- _. apply digits_cons in Hd as [Hc _]. congruence.
Qed.

Lemma takeDigits_app n acc ds r :
  digits n ds ->
  takeDigits n acc (ds ++ r)
  = Some (fold_left (fun a c => 10 * a + digitValue c) ds acc, r).
Proof. intros Hd. apply takeDigits_Some. exists ds. auto. Qed.

Lemma startsWith_true c l : startsWith c l = true <-> exists r, l = c :: r.
Proof.
  destruct l as [|x l]; simpl.
  - split; [discriminate | intros [r Hr]; discriminate].
  - rewrite Ascii.eqb_eq. split.
    + intros ->. eauto.
    + intros [r [= -> _]]. reflexivity.
Qed.

Ltac take_step H v r E :=
  match type of H with
  | context [takeDigits ?n ?a ?l] =>
      destruct (takeDigits n a l) as [[v r]|] eqn:E; [|discriminate H];
      apply takeDigits_Some in E
  end.

Ltac sep_step H r :=
  match type of H with
  | context [startsWith ?c ?l] =>
      let E := fresh "E" in
      destruct (startsWith c l) eqn:E; [|discriminate H];
      apply startsWith_true in E as [r ->]; cbn [negb tl] in H
  end.

Lemma matchNaive_naiveForm (s : string) :
  matchNaive s <> None <-> naiveForm s.
Proof.
  unfold naiveForm. split.
  - unfold matchNaive. intros Hm. destruct (_ : option _) as [g|] eqn:H in Hm; [clear Hm|congruence].
    take_step H v1 r1 E1. sep_step H r1'. take_step H v2 r2 E2. sep_step H r2'.
    take_step H v3 r3 E3. sep_step H r3'. take_step H v4 r4 E4. sep_step H r4'.
    take_step H v5 r5 E5.
    destruct E1 as (y & Hy & -> & _), E2 as (mo & Hmo & -> & _),
      E3 as (d & Hd & -> & _), E4 as (hh & Hhh & -> & _),
      E5 as (mm & Hmm & -> & _).
    exists y, mo, d, hh, mm. repeat (split; [assumption|]).
    destruct r5 as [|c r5].
    + left. rewrite app_nil_r. reflexivity.
    + right. destruct (startsWith ":" (c :: r5)) eqn:Ec; [|discriminate H].
      cbn [startsWith] in Ec. apply Ascii.eqb_eq in Ec as ->. cbn [negb tl] in H.
      take_step H v6 r6 E6. destruct E6 as (ss & Hss & -> & _).
      destruct r6; [|discriminate H]. rewrite app_nil_r.
      exists ss. split; [assumption|].
      repeat (rewrite <- ?app_assoc, <- ?app_comm_cons). reflexivity.
  - intros (y & mo & d & hh & mm & Hy & Hmo & Hd & Hhh & Hmm & Hs).
    assert (Hstem : forall tail,
      chars s = y ++ "-"%char :: mo ++ "-"%char :: d ++ "T"%char :: hh
                  ++ ":"%char :: mm ++ tail ->
      matchNaive s =
        match takeDigits 2 0 (mm ++ tail) with
        | Some (mmv, []) =>
            Some (digitsValue y, digitsValue mo, digitsValue d, digitsValue hh,
                  mmv, None)
        | Some (mmv, r5) =>
            if negb (startsWith ":" r5) then None
            else match takeDigits 2 0 (tl r5) with
                 | Some (ss, []) =>
                     Some (digitsValue y, digitsValue mo, digitsValue d,
                           digitsValue hh, mmv, Some ss)
                 | _ => None
                 end
        | None => None
        end).
    { intros tail Hc. unfold matchNaive. rewrite Hc.
      rewrite (takeDigits_app 4 0 y _ Hy). cbn [startsWith negb tl].
      rewrite Ascii.eqb_refl. cbn [negb].
      rewrite (takeDigits_app 2 0 mo _ Hmo). cbn [startsWith negb tl].
      rewrite Ascii.eqb_refl. cbn [negb].
      rewrite (takeDigits_app 2 0 d _ Hd). cbn [startsWith negb tl].
      rewrite Ascii.eqb_refl. cbn [negb].
      rewrite (takeDigits_app 2 0 hh _ Hhh). cbn [startsWith negb tl].
      rewrite Ascii.eqb_refl. cbn [negb]. reflexivity. }
    destruct Hs as [Hs|(ss & Hss & Hs)].
    + rewrite (Hstem []) by (rewrite app_nil_r; exact Hs).
      rewrite (takeDigits_app 2 0 mm [] Hmm). discriminate.
    + rewrite (Hstem (":"%char :: ss)).
      2:{ rewrite Hs. repeat (rewrite <- ?app_assoc, <- ?app_comm_cons). reflexivity. }
      rewrite (takeDigits_app 2 0 mm _ Hmm). cbn [startsWith negb tl].
      rewrite Ascii.eqb_refl. cbn [negb].
      rewrite <- (app_nil_r ss), (takeDigits_app 2 0 ss [] Hss). discriminate.
Qed.

Lemma digits_2 l : digits 2 l <->
  exists a b, l = [a; b] /\ isDigit a = true /\ isDigit b = true.
Proof.
  split.
  - intros [Hl Hf]. destruct l as [|a [|b [|]]]; try discriminate.
    inversion Hf as [|? ? Ha Hf']. inversion Hf' as [|? ? Hb _]. eauto.
  - intros (a & b & -> & Ha & Hb). split; [reflexivity | repeat constructor; assumption].
Qed.

Lemma digits_4 l : digits 4 l ->
  exists a b c d, l = [a; b; c; d].
Proof.
  intros [Hl _]. destruct l as [|a [|b [|c [|d [|]]]]]; try discriminate. eauto.
Qed.

(** A digit is none of the letters and marks of the formats. *)
Lemma isDigit_not c x :
  isDigit c = true -> isDigit x = false -> Ascii.eqb c x = false.
Proof.
  intros Hc Hx. destruct (Ascii.eqb_spec c x) as [->|]; [congruence | reflexivity].
Qed.

Lemma isIsoWithTz_zoneSuffix (s : string) :
  isIsoWithTz s = true <-> zoneSuffix s.
Proof.
  unfold isIsoWithTz, zoneSuffix. split.
  - destruct (rev (chars s)) as [|z rest] eqn:Er; [discriminate|].
    assert (Hs : chars s = rev rest ++ [z]).
    { rewrite <- (rev_involutive (chars s)), Er. reflexivity. }
    destruct (Ascii.eqb_spec z "Z") as [->|_]; [left; eauto|].
    cbn [orb]. destruct rest as [|m1 [|colon [|h2 [|h1 [|sign rest]]]]];
      try discriminate.
    rewrite !andb_true_iff, orb_true_iff, !Ascii.eqb_eq.
    intros (((((Hsign & Hh1) & Hh2) & ->) & Hm1) & Hm2).
    right. exists (rev rest), sign, [h1; h2], [m1; z].
    split; [exact Hsign|]. rewrite !digits_2.
    split; [eauto|]. split; [eauto|].
    rewrite Hs. simpl. rewrite <- !app_assoc. reflexivity.
  - intros [[p Hp]|(p & sign & hh & mm & Hsign & Hhh & Hmm & Hp)]; rewrite Hp.
    + rewrite rev_app_distr. reflexivity.
    + apply digits_2 in Hhh as (h1 & h2 & -> & Hh1 & Hh2).
      apply digits_2 in Hmm as (m1 & m2 & -> & Hm1 & Hm2).
      rewrite rev_app_distr. simpl. rewrite <- ?app_assoc. simpl.
      rewrite Hh1, Hh2, Hm1, Hm2.
      destruct Hsign as [-> | ->]; simpl; apply orb_true_r.
Qed.

Lemma naiveForm_not_zoned (s : string) : naiveForm s -> isIsoWithTz s = false.
Proof.
  intros (y & mo & d & hh & mm & Hy & Hmo & Hd & Hhh & Hmm & Hs).
  apply digits_4 in Hy as (y1 & y2 & y3 & y4 & ->).
  apply digits_2 in Hmo as (o1 & o2 & -> & _ & _).
  apply digits_2 in Hd as (d1 & d2 & -> & _ & _).
  apply digits_2 in Hhh as (h1 & h2 & -> & _ & Hh2).
  apply digits_2 in Hmm as (m1 & m2 & -> & Hm1 & Hm2).
  unfold isIsoWithTz. destruct Hs as [-> | (ss & Hss & ->)].
  - simpl. rewrite (isDigit_not m2 "Z" Hm2 eq_refl). reflexivity.
  - apply digits_2 in Hss as (s1 & s2 & -> & _ & Hs2). simpl.
    rewrite (isDigit_not s2 "Z" Hs2 eq_refl). reflexivity.
Qed.

Lemma dateOnlyForm_not_zoned (s : string) : dateOnlyForm s -> isIsoWithTz s = false.
Proof.
  intros (y & m & d & Hy & Hm & Hd & Hs).
  apply digits_4 in Hy as (y1 & y2 & y3 & y4 & ->).
  apply digits_2 in Hm as (m1 & m2 & -> & _ & _).
  apply digits_2 in Hd as (d1 & d2 & -> & _ & Hd2).
  unfold isIsoWithTz. rewrite Hs. simpl.
  rewrite (isDigit_not d2 "Z" Hd2 eq_refl). simpl.
  destruct (isDigit m1 && isDigit m2); reflexivity.
Qed.

Lemma dateOnlyForm_not_naive (s : string) : dateOnlyForm s -> matchNaive s = None.
Proof.
  intros (y & m & d & Hy & Hm & Hd & Hs).
  unfold matchNaive. rewrite Hs.
  rewrite (takeDigits_app 4 0 y _ Hy). cbn [startsWith negb tl].
  rewrite Ascii.eqb_refl. cbn [negb].
  rewrite (takeDigits_app 2 0 m _ Hm). cbn [startsWith negb tl].
  rewrite Ascii.eqb_refl. cbn [negb].
  rewrite <- (app_nil_r d), (takeDigits_app 2 0 d [] Hd). reflexivity.
Qed.

(** C2, as the code has it: a timestamp is refused exactly when it is
    neither a naive date-time [YYYY-MM-DDTHH:MM[:SS]] nor a zone-qualified
    string that [Date.parse] reads; a date-only string [YYYY-MM-DD] is
    refused. *)
Theorem parseIsoInFixedOffset_throws_iff `{Runtime} (iso : string) (offsetMinutes : Z) :
  (throws (parseIsoInFixedOffset iso offsetMinutes)
   <-> ~ naiveForm iso /\ ~ zonedForm iso)
  /\ (dateOnlyForm iso ->
      parseIsoInFixedOffset iso offsetMinutes
      = throw ("invalid naive iso: " +:+ iso)).
Proof.
  split.
  - unfold parseIsoInFixedOffset, zonedForm, throws.
    destruct (isIsoWithTz iso) eqn:Etz.
    + assert (Hn : ~ naiveForm iso).
      { intros Hn. apply naiveForm_not_zoned in Hn. congruence. }
      apply isIsoWithTz_zoneSuffix in Etz.
      destruct (Date_parse iso) as [ms|].
      * split; [intros [e He]; discriminate|].
        intros [_ Hz]. exfalso. apply Hz. split; [exact Etz | discriminate].
      * split; [|eexists; reflexivity]. intros _. split; [exact Hn|].
        intros [_ Hp]. apply Hp. reflexivity.
    + assert (Hz : ~ zoneSuffix iso).
      { intros Hz. apply isIsoWithTz_zoneSuffix in Hz. congruence. }
      pose proof (matchNaive_naiveForm iso) as Hm.
      destruct (matchNaive iso) as [[[[[[y mo] d] hh] mm] m6]|].
      * split; [intros [e He]; discriminate|].
        intros [Hn _]. exfalso. apply Hn, Hm. discriminate.
      * split; [|eexists; reflexivity]. intros _. split.
        -- intros Hn. apply Hm in Hn. congruence.
        -- intros [Hz' _]. exact (Hz Hz').
  - intros Hd. unfold parseIsoInFixedOffset.
    rewrite (dateOnlyForm_not_zoned _ Hd), (dateOnlyForm_not_naive _ Hd).
    reflexivity.
Qed.

Lemma dateOnlyForm_2026_01_15 : dateOnlyForm "2026-01-15".
Proof.
  exists (chars "2026"), (chars "01"), (chars "15").
  repeat split; repeat constructor.
Qed.

(** C2 as stated fails: a date-only string is refused. *)
Lemma date_only_is_refused :
  dateOnlyForm "2026-01-15"
  /\ parseIsoInFixedOffset (H := exampleRuntime) "2026-01-15" 0
     = throw "invalid naive iso: 2026-01-15".
Proof. split; [exact dateOnlyForm_2026_01_15 | reflexivity]. Qed.

Lemma parseIsoInFixedOffset_throws_iff_witness :
  parseIsoInFixedOffset (H := exampleRuntime) "2026-01-15" 0
  = throw "invalid naive iso: 2026-01-15".
Proof.
  apply (proj2 (parseIsoInFixedOffset_throws_iff (H := exampleRuntime) "2026-01-15" 0)).
  exact dateOnlyForm_2026_01_15.
Defined.

(** ** Occurrence generation *)

Lemma Z_toString_inj (a b : Z) : Z_toString a = Z_toString b -> a = b.
Proof.
  unfold Z_toString. intros Heq.
  assert (Hnil : forall z, Z.to_int z <> Decimal.Pos Decimal.Nil
                           /\ Z.to_int z <> Decimal.Neg Decimal.Nil).
  { intros z. split; intros Hz; pose proof (DecimalZ.of_to z) as Hof;
      rewrite Hz in Hof; simpl in Hof; subst z; discriminate Hz. }
  pose proof (NilZero.isi (Z.to_int a) (proj1 (Hnil a)) (proj2 (Hnil a))) as Ha.
  pose proof (NilZero.isi (Z.to_int b) (proj1 (Hnil b)) (proj2 (Hnil b))) as Hb.
  rewrite Heq, Hb in Ha. injection Ha as Ha.
  rewrite <- (DecimalZ.of_to a), <- (DecimalZ.of_to b), Ha. reflexivity.
Qed.

Lemma append_inj_r (p a b : string) : p +:+ a = p +:+ b -> a = b.
Proof.
  induction p as [|c p IH]; simpl; [auto|]. intros [= Heq]. auto.
Qed.

Lemma seenKey_doseAt_inj (o : Order) (t1 t2 : Z) :
  seenKey (doseAt o t1) = seenKey (doseAt o t2) -> t1 = t2.
Proof.
  unfold seenKey. simpl. intros Heq.
  apply append_inj_r, append_inj_r in Heq. apply Z_toString_inj, Heq.
Qed.

(** The duplicate filter keeps the first candidate of every key. *)
Lemma dedupe_sound seen out d :
  In d (dedupe seen out) -> In d out /\ seenKey d ∉ seen.
Proof.
  revert seen. induction out as [|x out IH]; intros seen; simpl; [tauto|].
  destruct (decide (seenKey x ∈ seen)) as [Hin|Hout].
  - intros Hd. apply IH in Hd as [? ?]. auto.
  - intros [<-|Hd]; [auto|]. apply IH in Hd as [? Hk]. split; [auto|].
    intros Hs. apply Hk. apply elem_of_union. right. exact Hs.
Qed.

Lemma dedupe_complete seen out d :
  In d out -> seenKey d ∉ seen ->
  exists d', In d' (dedupe seen out) /\ seenKey d' = seenKey d.
Proof.
  revert seen. induction out as [|x out IH]; intros seen; simpl; [tauto|].
  intros Hd Hk. destruct (decide (seenKey x ∈ seen)) as [Hin|Hout].
  - destruct Hd as [->|Hd]; [contradiction|]. apply IH; assumption.
  - destruct (decide (seenKey x = seenKey d)) as [Heq|Hne].
    + exists x. split; [left; reflexivity | exact Heq].
    + destruct Hd as [->|Hd]; [contradiction|].
      destruct (IH ({[seenKey x]} ∪ seen) Hd) as (d' & Hd' & Hk').
      * intros [Hs|Hs]%elem_of_union; [|contradiction].
        apply elem_of_singleton in Hs. congruence.
      * exists d'. split; [right; exact Hd' | exact Hk'].
Qed.

Lemma dedupe_NoDup seen out : List.NoDup (map seenKey (dedupe seen out)).
Proof.
  revert seen. induction out as [|x out IH]; intros seen; simpl; [constructor|].
  destruct (decide (seenKey x ∈ seen)) as [Hin|Hout]; [apply IH|].
  simpl. constructor; [|apply IH].
  intros Hx. apply in_map_iff in Hx as (d & Hk & Hd).
  apply dedupe_sound in Hd as [_ Hd]. apply Hd.
  apply elem_of_union. left. apply elem_of_singleton. congruence.
Qed.

Lemma In_seqZ (m len k : Z) : In k (seqZ m len) <-> m <= k < m + len.
Proof. rewrite <- list_elem_of_In. apply elem_of_seqZ. Qed.

Lemma templateDoses_In o globalStartUtc days effectiveStart effectiveEnd d :
  In d (templateDoses o globalStartUtc days effectiveStart effectiveEnd) <->
  exists anchor cycle i,
    globalStartUtc = Some anchor /\ 0 <= cycle <= days
    /\ 0 <= i < intValue (frequency_per_day o)
    /\ d = doseAt o (candidateInstant anchor (intValue (frequency_per_day o)) cycle i)
    /\ num_le effectiveStart (Fin (utcMs d)) = true
    /\ num_le (Fin (utcMs d)) effectiveEnd = true.
Proof.
  unfold templateDoses. rewrite in_flat_map. split.
  - intros (cycle & Hc & Hd). apply in_flat_map in Hd as (i & Hi & Hd).
    apply In_seqZ in Hc, Hi.
    destruct globalStartUtc as [anchor|]; [|destruct Hd].
    cbn [addTime] in Hd.
    destruct (num_le effectiveStart _ && num_le _ effectiveEnd) eqn:Ew;
      [|destruct Hd].
    destruct Hd as [<-|[]]. apply andb_true_iff in Ew as [Hs He].
    exists anchor, cycle, i. unfold candidateInstant.
    repeat split; try lia; assumption.
  - intros (anchor & cycle & i & -> & Hc & Hi & -> & Hs & He).
    exists cycle. split; [apply In_seqZ; lia|].
    apply in_flat_map. exists i. split; [apply In_seqZ; lia|].
    cbn [addTime]. unfold candidateInstant in Hs, He. cbn [utcMs doseAt] in Hs, He.
    rewrite Hs, He. left. reflexivity.
Qed.

Lemma num_window_nonempty a b t :
  num_le a (Fin t) = true -> num_le (Fin t) b = true -> num_gt a b = false.
Proof.
  destruct a as [|x|], b as [|y|]; simpl; try discriminate; try reflexivity.
  rewrite !Z.leb_le, Z.ltb_ge. lia.
Qed.

(** ** Sorting *)

Section Sorting.
Context {A : Type} (cmp : A -> A -> Z).

Lemma insertSorted_Permutation x l : Permutation (insertSorted cmp x l) (x :: l).
Proof.
  induction l as [|y l IH]; simpl; [reflexivity|].
  destruct (cmp x y <=? 0); [reflexivity|].
  rewrite IH. apply perm_swap.
Qed.

Lemma sortBy_Permutation l : Permutation (sortBy cmp l) l.
Proof.
  induction l as [|x l IH]; simpl; [reflexivity|].
  rewrite insertSorted_Permutation, IH. reflexivity.
Qed.

Lemma sortBy_In x l : In x (sortBy cmp l) <-> In x l.
Proof.
  split; apply Permutation_in;
    [apply sortBy_Permutation | symmetry; apply sortBy_Permutation].
Qed.

(** The comparator orders the elements of [P] consistently. *)
Variable P : A -> Prop.
Hypothesis cmp_total : forall a b, P a -> P b -> cmp a b <= 0 \/ cmp b a <= 0.
Hypothesis cmp_trans : forall a b c, P a -> P b -> P c ->
  cmp a b <= 0 -> cmp b c <= 0 -> cmp a c <= 0.

Lemma insertSorted_sorted x l :
  P x -> Forall P l ->
  StronglySorted (fun a b => cmp a b <= 0) l ->
  StronglySorted (fun a b => cmp a b <= 0) (insertSorted cmp x l).
Proof using cmp_total cmp_trans.
  intros Hx HP Hs. induction Hs as [|y l Hs IH Hy]; simpl.
  - repeat constructor.
  - inversion HP as [|? ? Py HPl]; subst.
    destruct (Z.leb_spec (cmp x y) 0) as [Hle|Hgt].
    + constructor; [constructor; assumption|].
      constructor; [exact Hle|].
      rewrite List.Forall_forall in Hy, HPl |- *. intros z Hz.
      apply (cmp_trans x y z); auto.
    + constructor; [apply IH; exact HPl|].
      rewrite List.Forall_forall in Hy |- *. intros z Hz.
      apply (Permutation_in _ (insertSorted_Permutation x l)) in Hz.
      destruct Hz as [<-|Hz]; [|auto].
      destruct (cmp_total x y Hx Py); [lia | assumption].
Qed.

Lemma sortBy_sorted l :
  Forall P l -> StronglySorted (fun a b => cmp a b <= 0) (sortBy cmp l).
Proof using cmp_total cmp_trans.
  induction 1 as [|x l Hx HP IH]; simpl; [constructor|].
  apply insertSorted_sorted; [exact Hx| |exact IH].
  rewrite List.Forall_forall in HP |- *. intros y Hy. apply HP.
  apply (proj1 (sortBy_In _ _)), Hy.
Qed.

End Sorting.

Lemma StronglySorted_before {A} (R : A -> A -> Prop) pre x post y :
  StronglySorted R (pre ++ x :: post) -> In y pre -> R y x.
Proof.
  induction pre as [|z pre IH]; simpl; [tauto|].
  intros Hs [<-|Hy]; inversion Hs as [|? ? Hs' Hz]; subst.
  - rewrite List.Forall_forall in Hz. apply Hz, in_elt.
  - apply IH; assumption.
Qed.

(** ** The scan of one group *)

Lemma scanDose_eq keptByMinute kept d :
  scanDose (keptByMinute, kept) d
  = if hasConflict keptByMinute d then (keptByMinute, kept)
    else (<[minuteOf d := d]> keptByMinute, kept ++ [d]).
Proof. reflexivity. Qed.

(** The scan appends its accepted candidates to [kept], whatever [kept] holds. *)
Lemma scan_kept l keptByMinute kept :
  fold_left scanDose l (keptByMinute, kept)
  = ((fold_left scanDose l (keptByMinute, [])).1,
     kept ++ (fold_left scanDose l (keptByMinute, [])).2).
Proof.
  revert keptByMinute kept. induction l as [|d l IH]; intros kbm kept;
    cbn [fold_left].
  - rewrite app_nil_r. reflexivity.
  - rewrite !scanDose_eq. destruct (hasConflict kbm d); [apply IH|].
    rewrite (IH _ (kept ++ [d])), (IH _ ([] ++ [d])). cbn [fst snd].
    rewrite <- app_assoc. reflexivity.
Qed.

(** The accepted candidates are among the scanned ones. *)
Lemma scan_incl l keptByMinute :
  incl (fold_left scanDose l (keptByMinute, [])).2 l.
Proof.
  revert keptByMinute. induction l as [|d l IH]; intros kbm; cbn [fold_left].
  - intros ? [].
  - rewrite scanDose_eq. destruct (hasConflict kbm d).
    + intros x Hx. right. exact (IH _ x Hx).
    + rewrite scan_kept. cbn [snd]. intros x [[<-|[]]|Hx]%in_app_or.
      * left. reflexivity.
      * right. exact (IH _ x Hx).
Qed.

(** Two instants less than the window apart lie at most 60 minute buckets apart. *)
Lemma near_minutes (a b : ScheduledDose) :
  Z.abs (utcMs a - utcMs b) < OVERLAP_WINDOW_MS ->
  minuteOf a - 60 <= minuteOf b < minuteOf a - 60 + 121.
Proof.
  unfold minuteOf, OVERLAP_WINDOW_MS, MS_PER_MIN.
  Z.to_euclidean_division_equations. lia.
Qed.

Lemma same_minute_near (a b : ScheduledDose) :
  minuteOf a = minuteOf b -> Z.abs (utcMs a - utcMs b) < OVERLAP_WINDOW_MS.
Proof.
  unfold minuteOf, OVERLAP_WINDOW_MS, MS_PER_MIN.
  Z.to_euclidean_division_equations. lia.
Qed.

(** The bucket scan finds a conflict exactly when an accepted candidate lies
    strictly within the window. *)
Lemma hasConflict_iff keptByMinute acc d :
  scanInvariant keptByMinute acc ->
  hasConflict keptByMinute d = true <->
  exists other, In other acc /\ Z.abs (utcMs d - utcMs other) < OVERLAP_WINDOW_MS.
Proof.
  intros [Hsound Hcomplete _]. unfold hasConflict. rewrite existsb_exists. split.
  - intros (m & _ & Hm). destruct (keptByMinute !! m) as [other|] eqn:E;
      [|discriminate].
    apply Z.ltb_lt in Hm. exists other. split; [apply (Hsound m), E | exact Hm].
  - intros (other & Hin & Hnear). exists (minuteOf other). split.
    + apply In_seqZ, near_minutes, Hnear.
    + rewrite (Hcomplete other Hin). apply Z.ltb_lt, Hnear.
Qed.

Lemma ForallOrdPairs_snoc {A} (R : A -> A -> Prop) l x :
  ForallOrdPairs R l -> Forall (fun y => R y x) l -> ForallOrdPairs R (l ++ [x]).
Proof.
  induction 1 as [|y l Hy Hl IH]; simpl; intros Hx.
  - repeat constructor.
  - inversion Hx as [|? ? Hyx Hlx]; subst. constructor; [|apply IH; exact Hlx].
    apply Forall_app. split; [exact Hy | repeat constructor; exact Hyx].
Qed.

Lemma apart_sym a b : apart a b -> apart b a.
Proof. unfold apart. intros Hab. replace (utcMs b - utcMs a) with (- (utcMs a - utcMs b)) by lia. rewrite Z.abs_opp. exact Hab. Qed.

Lemma scanDose_invariant keptByMinute acc d :
  scanInvariant keptByMinute acc ->
  let st := scanDose (keptByMinute, acc) d in
  scanInvariant st.1 st.2.
Proof.
  intros Hinv st. subst st. rewrite scanDose_eq.
  destruct (hasConflict keptByMinute d) eqn:Ec; cbn [fst snd]; [exact Hinv|].
  assert (Hfar : forall other, In other acc -> apart other d).
  { intros other Hin. unfold apart.
    destruct (Z.lt_ge_cases (Z.abs (utcMs other - utcMs d)) OVERLAP_WINDOW_MS)
      as [Hnear|Hfar]; [|lia].
    exfalso. assert (hasConflict keptByMinute d = true); [|congruence].
    apply (hasConflict_iff _ _ _ Hinv). exists other. split; [exact Hin|].
    replace (utcMs d - utcMs other) with (- (utcMs other - utcMs d)) by lia.
    rewrite Z.abs_opp. exact Hnear. }
  assert (Hfree : keptByMinute !! minuteOf d = None).
  { destruct (keptByMinute !! minuteOf d) as [other|] eqn:E; [|reflexivity].
    destruct (indexed_sound _ _ Hinv _ _ E) as [Hin Hm].
    pose proof (Hfar other Hin) as Hap. pose proof (same_minute_near _ _ Hm).
    unfold apart in Hap. lia. }
  destruct Hinv as [Hsound Hcomplete Hapart]. split.
  - intros m x Hx. destruct (decide (minuteOf d = m)) as [<-|Hne].
    + rewrite lookup_insert_eq in Hx. injection Hx as <-.
      split; [apply in_or_app; right; left; reflexivity | reflexivity].
    + rewrite lookup_insert_ne in Hx by exact Hne.
      destruct (Hsound m x Hx). split; [apply in_or_app; left|]; assumption.
  - intros x [Hx|[<-|[]]]%in_app_or.
    + destruct (decide (minuteOf d = minuteOf x)) as [Heq|Hne].
      * specialize (Hcomplete x Hx). rewrite <- Heq, Hfree in Hcomplete.
        discriminate.
      * rewrite lookup_insert_ne by exact Hne. auto.
    + apply lookup_insert_eq.
  - apply ForallOrdPairs_snoc; [exact Hapart|].
    apply List.Forall_forall. exact Hfar.
Qed.

Lemma scanInvariant_empty : scanInvariant ∅ [].
Proof.
  split.
  - intros m d Hd. rewrite lookup_empty in Hd. discriminate.
  - intros d [].
  - constructor.
Qed.

Lemma scan_invariant l keptByMinute acc :
  scanInvariant keptByMinute acc ->
  scanInvariant (fold_left scanDose l (keptByMinute, acc)).1
                (fold_left scanDose l (keptByMinute, acc)).2.
Proof.
  revert keptByMinute acc. induction l as [|d l IH]; intros kbm acc Hinv;
    cbn [fold_left]; [exact Hinv|].
  pose proof (scanDose_invariant _ _ d Hinv) as Hstep. cbv zeta in Hstep.
  destruct (scanDose (kbm, acc) d) as [kbm' acc']. apply IH, Hstep.
Qed.

Lemma resolveGroup_eq `{Runtime} kept groupDoses :
  resolveGroup kept groupDoses = kept ++ groupWinners groupDoses.
Proof. unfold resolveGroup, groupWinners. rewrite scan_kept. reflexivity. Qed.

Lemma resolveGroups_eq `{Runtime} groups kept :
  fold_left resolveGroup groups kept = kept ++ concat (map groupWinners groups).
Proof.
  revert kept. induction groups as [|g groups IH]; intros kept; cbn [fold_left map concat].
  - rewrite app_nil_r. reflexivity.
  - rewrite IH, resolveGroup_eq, <- app_assoc. reflexivity.
Qed.

Lemma groupWinners_incl `{Runtime} g : incl (groupWinners g) g.
Proof.
  intros d Hd. apply scan_incl in Hd.
  apply (proj1 (sortBy_In comparePriority _ _)), Hd.
Qed.

Lemma groupWinners_apart `{Runtime} g : ForallOrdPairs apart (groupWinners g).
Proof.
  unfold groupWinners.
  apply (accepted_apart _ _ (scan_invariant _ _ _ scanInvariant_empty)).
Qed.

(** ** The buckets *)

Lemma bucketDoses_eq doses : bucketDoses doses = fold_left bucketStep doses ([], []).
Proof.
  unfold bucketDoses. generalize (@nil (string * list ScheduledDose), @nil ScheduledDose).
  induction doses as [|d doses IH]; intros st; cbn [fold_left]; [reflexivity|].
  rewrite IH. destruct st as [byKey pass]. reflexivity.
Qed.

Lemma byKeyPush_key key d byKey k :
  In k (map fst (byKeyPush key d byKey)) -> k = key \/ In k (map fst byKey).
Proof.
  induction byKey as [|[k' arr] byKey IH]; cbn [byKeyPush map fst].
  - intros [<-|[]]. left. reflexivity.
  - destruct (String.eqb_spec k' key) as [->|Hne]; cbn [map fst].
    + intros [<-|Hin]; [left; reflexivity | right; right; exact Hin].
    + intros [<-|Hin]; [right; left; reflexivity|].
      destruct (IH Hin); [left | right; right]; assumption.
Qed.

Lemma byKeyPush_NoDup key d byKey :
  List.NoDup (map fst byKey) -> List.NoDup (map fst (byKeyPush key d byKey)).
Proof.
  induction byKey as [|[k arr] byKey IH]; cbn [byKeyPush map fst]; intros Hnd.
  - repeat constructor. intros [].
  - inversion Hnd as [|? ? Hk Hnd']; subst.
    destruct (String.eqb_spec k key) as [->|Hne]; cbn [map fst];
      constructor; auto.
    intros Hin. apply byKeyPush_key in Hin as [?|?]; [congruence | contradiction].
Qed.

Lemma byKeyPush_In key d byKey k arr x :
  In (k, arr) (byKeyPush key d byKey) -> In x arr ->
  (x = d /\ k = key) \/ exists arr', In (k, arr') byKey /\ In x arr'.
Proof.
  induction byKey as [|[k' arr'] byKey IH]; cbn [byKeyPush].
  - intros [[= <- <-]|[]] [<-|[]]. left. auto.
  - destruct (String.eqb_spec k' key) as [->|Hne].
    + intros [[= <- <-]|Hin] Hx.
      * apply in_app_or in Hx as [Hx|[<-|[]]]; [|left; auto].
        right. exists arr'. split; [left; reflexivity | exact Hx].
      * right. exists arr. split; [right; exact Hin | exact Hx].
    + intros [[= <- <-]|Hin] Hx.
      * right. exists arr'. split; [left; reflexivity | exact Hx].
      * destruct (IH Hin Hx) as [?|(arr2 & ? & ?)]; [left; assumption|].
        right. exists arr2. split; [right; assumption | assumption].
Qed.

Lemma bucketStep_invariant src byKey pass d :
  bucketInvariant src byKey pass ->
  bucketInvariant (src ++ [d]) (bucketStep (byKey, pass) d).1
                  (bucketStep (byKey, pass) d).2.
Proof.
  intros [Hkeys Hgrouped Hpass]. unfold bucketStep. cbn [fst snd].
  destruct (hasGroup d) eqn:Eg; cbn [negb fst snd]; split.
  - apply byKeyPush_NoDup, Hkeys.
  - intros k arr x Hin Hx.
    destruct (byKeyPush_In _ _ _ _ _ _ Hin Hx) as [[-> ->]|(arr' & Hin' & Hx')].
    + split; [exact Eg|]. split; [reflexivity|]. apply in_or_app. right. left. reflexivity.
    + destruct (Hgrouped _ _ _ Hin' Hx') as (? & ? & ?).
      split; [assumption|]. split; [assumption|]. apply in_or_app. left. assumption.
  - intros x Hx. destruct (Hpass x Hx). split; [assumption|].
    apply in_or_app. left. assumption.
  - exact Hkeys.
  - intros k arr x Hin Hx. destruct (Hgrouped _ _ _ Hin Hx) as (? & ? & ?).
    split; [assumption|]. split; [assumption|]. apply in_or_app. left. assumption.
  - intros x [Hx|[<-|[]]]%in_app_or.
    + destruct (Hpass x Hx). split; [assumption|]. apply in_or_app. left. assumption.
    + split; [exact Eg|]. apply in_or_app. right. left. reflexivity.
Qed.

Lemma bucketDoses_invariant doses :
  bucketInvariant doses (bucketDoses doses).1 (bucketDoses doses).2.
Proof.
  rewrite bucketDoses_eq.
  assert (Hgen : forall src st, bucketInvariant src st.1 st.2 ->
            bucketInvariant (src ++ doses) (fold_left bucketStep doses st).1
                            (fold_left bucketStep doses st).2).
  { induction doses as [|d doses IH]; intros src st Hinv; cbn [fold_left].
    - rewrite app_nil_r. exact Hinv.
    - replace (src ++ d :: doses) with ((src ++ [d]) ++ doses)
        by (rewrite <- app_assoc; reflexivity).
      apply IH. destruct st as [byKey pass]. apply bucketStep_invariant, Hinv. }
  apply (Hgen [] ([], [])). split; [constructor | intros ? ? ? [] | intros ? []].
Qed.

(** The resolver's output: the pass-through candidates, then each group's
    winners in the order the groups were first met. *)
Lemma resolveOverlaps_eq `{Runtime} doses :
  resolveOverlaps doses
  = (bucketDoses doses).2 ++ concat (map groupWinners (map snd (bucketDoses doses).1)).
Proof.
  unfold resolveOverlaps. destruct (bucketDoses doses) as [byKey pass].
  apply resolveGroups_eq.
Qed.

Lemma resolveOverlaps_incl `{Runtime} doses : incl (resolveOverlaps doses) doses.
Proof.
  intros d. rewrite resolveOverlaps_eq.
  pose proof (bucketDoses_invariant doses) as [_ Hgrouped Hpass].
  intros [Hd|Hd]%in_app_or; [apply (Hpass d Hd)|].
  apply in_concat in Hd as (w & Hw & Hd).
  apply in_map_iff in Hw as (g & <- & Hg). apply in_map_iff in Hg as ([k arr] & <- & Hin).
  apply groupWinners_incl in Hd. apply (Hgrouped k arr d Hin Hd).
Qed.

(** ** Conflict resolution *)







Lemma winners_grouped `{Runtime} (byKey : keyedDoses) d :
  (forall k arr x, In (k, arr) byKey -> In x arr -> hasGroup x = true /\ groupKey x = k) ->
  In d (concat (map groupWinners (map snd byKey))) ->
  hasGroup d = true /\ In (groupKey d) (map fst byKey).
Proof.
  intros Hgrouped Hd. apply in_concat in Hd as (w & Hw & Hd).
  apply in_map_iff in Hw as (g & <- & Hg).
  apply in_map_iff in Hg as ([k arr] & <- & Hin).
  apply groupWinners_incl in Hd. destruct (Hgrouped k arr d Hin Hd) as [Hg <-].
  split; [exact Hg|]. apply in_map_iff. exists (groupKey d, arr). auto.
Qed.




(** ** The tie-break order *)

Lemma localeCompare_refl `{Runtime} a : localeCompare a a = 0.
Proof. pose proof (localeCompare_sym a a). lia. Qed.

Lemma localeCompare_total `{Runtime} a b :
  localeCompare a b <= 0 \/ localeCompare b a <= 0.
Proof. pose proof (localeCompare_sym a b). lia. Qed.

(** [a] sorts no later than [b] in a group: higher priority first, then the
    order identifier, then the instant. *)
Lemma comparePriority_le `{Runtime} a b :
  comparePriority a b <= 0 <->
  dosePriority b < dosePriority a
  \/ (dosePriority a = dosePriority b
      /\ ((orderId a <> orderId b /\ localeCompare (orderId a) (orderId b) <= 0)
          \/ (orderId a = orderId b /\ utcMs a <= utcMs b))).
Proof.
  unfold comparePriority.
  destruct (Z.eqb_spec (dosePriority a) (dosePriority b)) as [Hp|Hp]; cbn [negb].
  - destruct (String.eqb_spec (orderId a) (orderId b)) as [Hi|Hi]; cbn [negb].
    + split; [intros; right; split; [exact Hp|]; right; split; [exact Hi | lia]|].
      intros [?|[_ [[? _]|[_ ?]]]]; [lia | contradiction | lia].
    + split; [intros; right; split; [exact Hp|]; left; split; assumption|].
      intros [?|[_ [[_ ?]|[? _]]]]; [lia | assumption | contradiction].
  - split; [intros; left; lia|]. intros [?|[? _]]; [lia | contradiction].
Qed.

Lemma comparePriority_total `{Runtime} a b :
  comparePriority a b <= 0 \/ comparePriority b a <= 0.
Proof.
  rewrite !comparePriority_le.
  destruct (Z.lt_total (dosePriority a) (dosePriority b)) as [?|[Hp|?]]; [auto|..|auto].
  destruct (String.eqb_spec (orderId a) (orderId b)) as [Hi|Hi].
  - destruct (Z.le_ge_cases (utcMs a) (utcMs b)); [left | right]; right;
      (split; [congruence|]); right; split; congruence || lia.
  - destruct (localeCompare_total (orderId a) (orderId b)); [left | right]; right;
      (split; [congruence|]); left; split; congruence || assumption.
Qed.

Lemma comparePriority_trans `{Runtime} doses a b c :
  collationSeparates doses -> In a doses -> In b doses -> In c doses ->
  comparePriority a b <= 0 -> comparePriority b c <= 0 -> comparePriority a c <= 0.
Proof.
  intros Hsep Ha Hb Hc. rewrite !comparePriority_le.
  intros [Hab|[Hpab Hab]] [Hbc|[Hpbc Hbc]]; try (left; lia).
  right. split; [congruence|].
  assert (Hle : forall x y, In x doses -> In y doses ->
            (orderId x <> orderId y /\ localeCompare (orderId x) (orderId y) <= 0)
            \/ (orderId x = orderId y /\ utcMs x <= utcMs y) ->
            localeCompare (orderId x) (orderId y) <= 0).
  { intros x y _ _ [[_ ?]|[-> _]]; [assumption|]. rewrite localeCompare_refl. lia. }
  pose proof (localeCompare_trans _ _ _ (Hle a b Ha Hb Hab) (Hle b c Hb Hc Hbc)) as Hac.
  destruct (String.eqb_spec (orderId a) (orderId c)) as [Hi|Hi]; [|left; auto].
  right. split; [exact Hi|].
  destruct Hab as [[Hne Hlab]|[Hiab Htab]].
  - exfalso. apply Hne, (Hsep a b Ha Hb).
    pose proof (Hle b c Hb Hc Hbc) as Hlbc. rewrite <- Hi in Hlbc.
    pose proof (localeCompare_sym (orderId a) (orderId b)). lia.
  - destruct Hbc as [[Hne _]|[_ Htbc]]; [|lia].
    exfalso. apply Hne. congruence.
Qed.

(** The sorted array of a group is in tie-break order. *)
Lemma group_sorted `{Runtime} doses g :
  collationSeparates doses -> incl g doses ->
  StronglySorted (fun a b => comparePriority a b <= 0) (sortBy comparePriority g).
Proof.
  intros Hsep Hg.
  apply (sortBy_sorted comparePriority (fun x => In x doses)).
  - intros a b _ _. apply comparePriority_total.
  - intros a b c Ha Hb Hc. apply (comparePriority_trans doses); assumption.
  - apply List.Forall_forall. exact Hg.
Qed.

Lemma codeUnit_separates doses : collationSeparates (H := exampleRuntime) doses.
Proof.
  intros a b _ _. cbn [localeCompare exampleRuntime]. unfold codeUnitCompare.
  destruct (String.compare (orderId a) (orderId b)) eqn:E; try discriminate.
  intros _. apply String.compare_eq_iff, E.
Qed.

(** ** The assembled output *)

Lemma compareInstant_le `{Runtime} a b : compareInstant a b <= 0 <-> instantLe a b.
Proof.
  unfold compareInstant, instantLe.
  destruct (Z.eqb_spec (utcMs a) (utcMs b)) as [Ht|Ht]; cbn [negb].
  - split; [intros; right; auto|]. intros [?|[_ ?]]; [lia | assumption].
  - split; [intros; left; lia|]. intros [?|[? _]]; [lia | contradiction].
Qed.

Lemma compareInstant_total `{Runtime} a b :
  compareInstant a b <= 0 \/ compareInstant b a <= 0.
Proof.
  rewrite !compareInstant_le. unfold instantLe.
  destruct (Z.lt_total (utcMs a) (utcMs b)) as [?|[Ht|?]]; [auto| |auto].
  destruct (localeCompare_total (orderId a) (orderId b)); [left | right]; right; auto.
Qed.

Lemma compareInstant_trans `{Runtime} a b c :
  compareInstant a b <= 0 -> compareInstant b c <= 0 -> compareInstant a c <= 0.
Proof.
  rewrite !compareInstant_le. unfold instantLe.
  intros [Hab|[Hab Lab]] [Hbc|[Hbc Lbc]]; try (left; lia).
  right. split; [lia|]. exact (localeCompare_trans _ _ _ Lab Lbc).
Qed.

Lemma scheduleWinners_sorted `{Runtime} allDoses :
  StronglySorted instantLe (scheduleWinners allDoses).
Proof.
  unfold scheduleWinners.
  pose proof (sortBy_sorted compareInstant (fun _ => True)
                (fun a b _ _ => compareInstant_total a b)
                (fun a b c _ _ _ => compareInstant_trans a b c)
                (resolveOverlaps allDoses)) as Hs.
  assert (Hall : Forall (fun _ : ScheduledDose => True) (resolveOverlaps allDoses))
    by (apply List.Forall_forall; auto).
  specialize (Hs Hall). clear Hall.
  induction Hs as [|x l _ IH Hx]; constructor; [exact IH|].
  apply (List.Forall_impl _ (fun b => proj1 (compareInstant_le x b))), Hx.
Qed.

(** Every candidate of an order is that order's, at some instant. *)
Lemma generateScheduledTimes_shape `{Runtime} startDate days o doses :
  generateScheduledTimes startDate days o = inr doses ->
  forall d, In d doses -> d = doseAt o (utcMs d).
Proof.
  unfold generateScheduledTimes. intros Hrun d Hd.
  destruct (localMidnightUtcMs _ _) as [?|g]; [discriminate|]. unfold bind at 1 in Hrun.
  destruct (parseIsoInFixedOffset _ _) as [?|s]; [discriminate|]. unfold bind at 1 in Hrun.
  destruct (match end_datetime o with Some _ => _ | None => _ end) as [?|e];
    [discriminate|]. unfold bind at 1 in Hrun.
  destruct (effectiveWindow g days s e) as [lo hi].
  destruct (num_gt lo hi); injection Hrun as <-; [destruct Hd|].
  apply dedupe_sound in Hd as [Hd _].
  apply templateDoses_In in Hd as (? & ? & ? & _ & _ & _ & -> & _). reflexivity.
Qed.

Lemma collectDoses_shape `{Runtime} start_date days orders allDoses :
  collectDoses start_date days orders = inr allDoses ->
  forall d, In d allDoses -> exists o, In o orders /\ d = doseAt o (utcMs d).
Proof.
  revert allDoses. induction orders as [|o orders IH]; cbn [collectDoses]; intros allDoses.
  - intros [= <-] d [].
  - destruct (generateScheduledTimes start_date days o) as [?|doses] eqn:Eg;
      [discriminate|]. unfold bind at 1.
    destruct (collectDoses start_date days orders) as [?|more]; [discriminate|].
    intros [= <-] d [Hd|Hd]%in_app_or.
    + exists o. split; [left; reflexivity|].
      apply (generateScheduledTimes_shape _ _ _ _ Eg d Hd).
    + destruct (IH more eq_refl d Hd) as (o' & Ho' & Hshape).
      exists o'. split; [right; exact Ho' | exact Hshape].
Qed.

(** ** Rendering and reading back *)

(** *** The calendar *)

Lemma YearFromTime_spec (t : Z) :
  DayFromYear (YearFromTime t) <= Day t < DayFromYear (YearFromTime t + 1).
Proof.
  unfold YearFromTime. generalize (Day t). intros d.
  set (y := 1970 + 400 * d / 146097).
  assert (Hy : 146097 * (y - 1970) <= 400 * d < 146097 * (y - 1970) + 146097).
  { unfold y. Z.to_euclidean_division_equations. lia. }
  clearbody y.
  assert (H1 : DayFromYear (y - 1) <= d)
    by (unfold DayFromYear; Z.to_euclidean_division_equations; lia).
  assert (H2 : d < DayFromYear (y + 2))
    by (unfold DayFromYear; Z.to_euclidean_division_equations; lia).
  destruct (Z.leb_spec (DayFromYear (y + 1)) d).
  - replace (y + 1 + 1) with (y + 2) by lia. lia.
  - destruct (Z.leb_spec (DayFromYear y) d).
    + lia.
    + replace (y - 1 + 1) with y by lia. lia.
Qed.

Lemma DayFromYear_succ (y : Z) : DayFromYear (y + 1) = DayFromYear y + DaysInYear y.
Proof.
  unfold DayFromYear, DaysInYear.
  destruct (Z.eqb_spec (y mod 4) 0); cbn [negb];
    [destruct (Z.eqb_spec (y mod 100) 0); cbn [negb];
       [destruct (Z.eqb_spec (y mod 400) 0); cbn [negb]|]|];
    Z.to_euclidean_division_equations; lia.
Qed.

Lemma DayFromYear_mono (y1 y2 : Z) : y1 <= y2 -> DayFromYear y1 <= DayFromYear y2.
Proof.
  unfold DayFromYear. intros Hy. Z.to_euclidean_division_equations. lia.
Qed.

Lemma DayWithinYear_range (t : Z) :
  0 <= DayWithinYear t < 365 + InLeapYear t.
Proof.
  unfold DayWithinYear, InLeapYear. pose proof (YearFromTime_spec t) as Hs.
  rewrite DayFromYear_succ in Hs. revert Hs. unfold DaysInYear.
  repeat match goal with |- context [negb (?a =? ?b)] => destruct (Z.eqb_spec a b); cbn [negb] end;
    cbn; lia.
Qed.

Lemma InLeapYear_cases (t : Z) : InLeapYear t = 0 \/ InLeapYear t = 1.
Proof. unfold InLeapYear. destruct (_ =? _); auto. Qed.

Lemma MonthFromTime_range (t : Z) : 0 <= MonthFromTime t <= 11.
Proof.
  unfold MonthFromTime.
  repeat match goal with |- context [?a <? ?b] => destruct (Z.ltb_spec a b) end; lia.
Qed.

(** The day of the month lies within the month. *)
Lemma DateFromTime_range (t : Z) :
  1 <= DateFromTime t <= DaysInMonth (YearFromTime t) (MonthFromTime t + 1).
Proof.
  pose proof (DayWithinYear_range t) as Hd.
  unfold DateFromTime, DaysInMonth. fold (InLeapYear t).
  replace (MonthFromTime t + 1 - 1) with (MonthFromTime t) by lia.
  destruct (InLeapYear_cases t) as [Hl|Hl]; rewrite Hl in *; unfold MonthFromTime;
  rewrite Hl;
  repeat match goal with |- context [?a <? ?b] => destruct (Z.ltb_spec a b) end;
    cbn [monthStart Z.add Pos.add Pos.succ]; simpl; lia.
Qed.

(** Composing the day from the fields gives the day back. *)
Lemma MakeDay_fields (t : Z) :
  MakeDay (YearFromTime t) (MonthFromTime t + 1 - 1) (DateFromTime t) = Day t.
Proof.
  pose proof (MonthFromTime_range t) as Hm.
  unfold MakeDay, DateFromTime, DayWithinYear.
  replace (MonthFromTime t + 1 - 1) with (MonthFromTime t) by lia.
  rewrite (Z.div_small (MonthFromTime t) 12), (Z.mod_small (MonthFromTime t) 12) by lia.
  rewrite Z.add_0_r. fold (InLeapYear t). lia.
Qed.

Lemma MakeTime_fields (t : Z) :
  t mod 1000 = 0 ->
  MakeTime (HourFromTime t) (MinFromTime t) (SecFromTime t) 0 = TimeWithinDay t.
Proof.
  unfold MakeTime, HourFromTime, MinFromTime, SecFromTime, TimeWithinDay,
    msPerHour, msPerMinute, msPerSecond, msPerDay.
  intros Ht. Z.to_euclidean_division_equations. lia.
Qed.

Lemma time_fields_range (t : Z) :
  0 <= HourFromTime t <= 23 /\ 0 <= MinFromTime t <= 59 /\ 0 <= SecFromTime t <= 59.
Proof.
  unfold HourFromTime, MinFromTime, SecFromTime. Z.to_euclidean_division_equations. lia.
Qed.

(** A time whose year has four digits is a valid time value. *)
Lemma four_digit_year_time (t : Z) :
  1000 <= YearFromTime t <= 9999 -> Z.abs t < 8640000000000000 - 1440 * 60000.
Proof.
  intros Hy. pose proof (YearFromTime_spec t) as Hs.
  pose proof (DayFromYear_mono 1000 (YearFromTime t) ltac:(lia)) as Hlo.
  pose proof (DayFromYear_mono (YearFromTime t + 1) 10000 ltac:(lia)) as Hhi.
  change (DayFromYear 1000) with (-354285) in Hlo.
  change (DayFromYear 10000) with 2932897 in Hhi.
  unfold Day, msPerDay in Hs. Z.to_euclidean_division_equations. lia.
Qed.

(** *** The rendered text *)

Lemma chars_append (a b : string) : chars (a +:+ b) = chars a ++ chars b.
Proof.
  unfold chars. induction a as [|c a IH]; simpl; [reflexivity|].
  rewrite IH. reflexivity.
Qed.

Lemma digitsb_digits n l : digitsb n l = true -> digits n l.
Proof.
  unfold digitsb, digits. rewrite andb_true_iff, Nat.eqb_eq, forallb_forall.
  intros [Hl Hf]. split; [exact Hl|]. apply List.Forall_forall. exact Hf.
Qed.

Lemma twoDigits_table :
  forallb (fun n => digitsb 2 (twoDigits n) && (digitsValue (twoDigits n) =? n))
          (seqZ 0 100) = true.
Proof. vm_compute. reflexivity. Qed.

Lemma fourDigits_table :
  forallb (fun y => digitsb 4 (chars (Z_toString y))
                    && (digitsValue (chars (Z_toString y)) =? y))
          (seqZ 1000 9000) = true.
Proof. vm_compute. reflexivity. Qed.

(** Below 100 the padded text is two digits that read back as the number. *)
Lemma twoDigits_spec (n : Z) :
  0 <= n <= 99 -> digits 2 (twoDigits n) /\ digitsValue (twoDigits n) = n.
Proof.
  intros Hn. pose proof twoDigits_table as Ht. rewrite forallb_forall in Ht.
  specialize (Ht n). rewrite In_seqZ, andb_true_iff, Z.eqb_eq in Ht.
  destruct Ht as [Hd Hv]; [lia|]. split; [apply digitsb_digits, Hd | exact Hv].
Qed.

(** A year from 1000 to 9999 prints as four digits that read back as it. *)
Lemma fourDigits_spec (y : Z) :
  1000 <= y <= 9999 ->
  digits 4 (chars (Z_toString y)) /\ digitsValue (chars (Z_toString y)) = y.
Proof.
  intros Hy. pose proof fourDigits_table as Ht. rewrite forallb_forall in Ht.
  specialize (Ht y). rewrite In_seqZ, andb_true_iff, Z.eqb_eq in Ht.
  destruct Ht as [Hd Hv]; [lia|]. split; [apply digitsb_digits, Hd | exact Hv].
Qed.

Lemma formatOffset_chars (o : Z) :
  chars (formatOffset o)
  = (if 0 <=? o then "+"%char else "-"%char)
      :: twoDigits (Z.abs o / 60) ++ ":"%char :: twoDigits (Z.abs o mod 60).
Proof.
  unfold formatOffset, twoDigits. rewrite !chars_append.
  destruct (0 <=? o); reflexivity.
Qed.

Lemma toIsoInFixedOffset_chars (utc offset : Z) (f : DateFields) :
  utcFields (addDouble utc (mulDouble offset MS_PER_MIN)) = Some f ->
  chars (toIsoInFixedOffset utc offset)
  = chars (Z_toString (fullYear f)) ++ "-"%char :: twoDigits (month f)
      ++ "-"%char :: twoDigits (date f) ++ "T"%char :: twoDigits (hours f)
      ++ ":"%char :: twoDigits (minutes f) ++ ":"%char :: twoDigits (seconds f)
      ++ chars (formatOffset offset).
Proof.
  intros Hf. unfold toIsoInFixedOffset. rewrite Hf. cbv beta iota zeta.
  rewrite !chars_append. fold (twoDigits (month f)) (twoDigits (date f))
    (twoDigits (hours f)) (twoDigits (minutes f)) (twoDigits (seconds f)).
  change (chars "-") with ["-"%char]. change (chars "T") with ["T"%char].
  change (chars ":") with [":"%char].
  rewrite <- ?app_assoc. reflexivity.
Qed.

(** *** Reading the rendered text *)

Lemma digits_head n c l : digits (S n) (c :: l) -> isDigit c = true.
Proof. intros Hd. apply digits_cons in Hd. tauto. Qed.

Lemma startsWith_digits (x : ascii) n ds r :
  digits (S n) ds -> isDigit x = false -> startsWith x (ds ++ r) = false.
Proof.
  intros Hd Hx. destruct ds as [|c ds]; [destruct Hd; discriminate|].
  cbn [app startsWith]. apply isDigit_not; [exact (digits_head _ _ _ Hd) | exact Hx].
Qed.

Lemma takeDigits_value n ds r :
  digits n ds -> takeDigits n 0 (ds ++ r) = Some (digitsValue ds, r).
Proof. intros Hd. apply (takeDigits_app n 0 ds r Hd). Qed.

Lemma dateSyntax_rendered (y4 m2 d2 r : list ascii) :
  digits 4 y4 -> digits 2 m2 -> digits 2 d2 ->
  dateSyntax (y4 ++ "-"%char :: m2 ++ "-"%char :: d2 ++ r)
  = Some (digitsValue y4, digitsValue m2, digitsValue d2, r).
Proof.
  intros Hy Hm Hd. unfold dateSyntax.
  rewrite (startsWith_digits "+" 3 y4 _ Hy eq_refl).
  rewrite (startsWith_digits "-" 3 y4 _ Hy eq_refl).
  rewrite (takeDigits_value 4 y4 _ Hy). cbn [startsWith tl].
  rewrite Ascii.eqb_refl, (takeDigits_value 2 m2 _ Hm). cbn [startsWith tl].
  rewrite Ascii.eqb_refl, (takeDigits_value 2 d2 _ Hd). reflexivity.
Qed.

Lemma timeSyntax_rendered (h2 n2 s2 r : list ascii) :
  digits 2 h2 -> digits 2 n2 -> digits 2 s2 ->
  startsWith "." r = false ->
  timeSyntax (h2 ++ ":"%char :: n2 ++ ":"%char :: s2 ++ r)
  = Some (digitsValue h2, digitsValue n2, digitsValue s2, 0, r).
Proof.
  intros Hh Hn Hs Hr. unfold timeSyntax.
  rewrite (takeDigits_value 2 h2 _ Hh). cbn [startsWith tl negb].
  rewrite Ascii.eqb_refl. cbn [negb].
  rewrite (takeDigits_value 2 n2 _ Hn). cbn [startsWith tl].
  rewrite Ascii.eqb_refl, (takeDigits_value 2 s2 _ Hs), Hr. reflexivity.
Qed.

Lemma zoneSyntax_rendered (sg : ascii) (oh2 om2 : list ascii) :
  sg = "+"%char \/ sg = "-"%char ->
  digits 2 oh2 -> digits 2 om2 ->
  zoneSyntax (sg :: oh2 ++ ":"%char :: om2)
  = Some (if Ascii.eqb sg "-" then -1 else 1, digitsValue oh2, digitsValue om2).
Proof.
  intros Hsg Hoh Hom. unfold zoneSyntax.
  assert (Hne : exists c l, oh2 ++ ":"%char :: om2 = c :: l).
  { destruct oh2 as [|c l]; [destruct Hoh; discriminate | eauto]. }
  destruct Hne as (c & l & Hcl). rewrite Hcl, <- Hcl.
  assert (Hs : Ascii.eqb sg "+" || Ascii.eqb sg "-" = true)
    by (destruct Hsg as [-> | ->]; reflexivity).
  rewrite Hs, (takeDigits_value 2 oh2 _ Hoh). cbn [startsWith tl negb].
  rewrite Ascii.eqb_refl. cbn [negb].
  assert (Hlast : takeDigits 2 0 om2 = Some (digitsValue om2, []))
    by (rewrite <- (app_nil_r om2) at 1; apply takeDigits_value, Hom).
  rewrite Hlast. reflexivity.
Qed.

Lemma DaysInMonth_le_31 (y m : Z) : 1 <= m <= 12 -> DaysInMonth y m <= 31.
Proof.
  intros Hm. unfold DaysInMonth.
  assert (Hc : m = 1 \/ m = 2 \/ m = 3 \/ m = 4 \/ m = 5 \/ m = 6 \/ m = 7
               \/ m = 8 \/ m = 9 \/ m = 10 \/ m = 11 \/ m = 12) by lia.
  destruct (DaysInYear y =? 366); decompose [or] Hc; subst m; vm_compute; discriminate.
Qed.

Lemma TimeClip_small (t : Z) : Z.abs t <= 8640000000000000 -> TimeClip t = Some t.
Proof.
  intros Ht. unfold TimeClip. destruct (Z.ltb_spec 8640000000000000 (Z.abs t));
    [lia | reflexivity].
Qed.

(** C10, as the code has it: rendering an instant of whole seconds whose
    local year has four digits at an offset below 24 hours, and parsing the
    text under any declared offset, gives the instant back. *)
Theorem render_parse_roundtrip `{Runtime} (t offset declared : Z) :
  Z.abs offset < 1440 ->
  t mod 1000 = 0 ->
  1000 <= YearFromTime (t + offset * MS_PER_MIN) <= 9999 ->
  parseIsoInFixedOffset (toIsoInFixedOffset t offset) declared = inr (Some t).
Proof.
  intros Ho Ht Hy.
  pose proof (four_digit_year_time _ Hy) as Hclip.
  assert (Hexact : addDouble t (mulDouble offset MS_PER_MIN) = t + offset * MS_PER_MIN)
    by (apply localMs_exact; unfold MS_PER_MIN in *; lia).
  set (localMs := t + offset * MS_PER_MIN) in *.
  assert (Hf : utcFields (addDouble t (mulDouble offset MS_PER_MIN))
               = Some {| fullYear := YearFromTime localMs;
                         month := MonthFromTime localMs + 1;
                         date := DateFromTime localMs;
                         hours := HourFromTime localMs;
                         minutes := MinFromTime localMs;
                         seconds := SecFromTime localMs |}).
  { rewrite Hexact. unfold utcFields. rewrite TimeClip_small by lia. reflexivity. }
  pose proof (toIsoInFixedOffset_chars t offset _ Hf) as Hchars.
  cbn [fullYear month date hours minutes seconds] in Hchars.
  rewrite formatOffset_chars in Hchars.
  set (sg := if 0 <=? offset then "+"%char else "-"%char) in Hchars.
  assert (Hsg : sg = "+"%char \/ sg = "-"%char)
    by (unfold sg; destruct (0 <=? offset); auto).
  destruct (fourDigits_spec _ Hy) as [Dy Vy].
  pose proof (MonthFromTime_range localMs) as Rm.
  pose proof (DateFromTime_range localMs) as Rd.
  pose proof (time_fields_range localMs) as (Rh & Rn & Rs).
  pose proof (DaysInMonth_le_31 (YearFromTime localMs) (MonthFromTime localMs + 1)
                ltac:(lia)) as Rdm.
  destruct (twoDigits_spec (MonthFromTime localMs + 1)) as [Dm Vm]; [lia|].
  destruct (twoDigits_spec (DateFromTime localMs)) as [Dd Vd]; [lia|].
  destruct (twoDigits_spec (HourFromTime localMs)) as [Dh Vh]; [lia|].
  destruct (twoDigits_spec (MinFromTime localMs)) as [Dn Vn]; [lia|].
  destruct (twoDigits_spec (SecFromTime localMs)) as [Ds Vs]; [lia|].
  assert (Roh : 0 <= Z.abs offset / 60 <= 23)
    by (Z.to_euclidean_division_equations; lia).
  assert (Rom : 0 <= Z.abs offset mod 60 <= 59)
    by (Z.to_euclidean_division_equations; lia).
  destruct (twoDigits_spec (Z.abs offset / 60)) as [Doh Voh]; [lia|].
  destruct (twoDigits_spec (Z.abs offset mod 60)) as [Dom Vom]; [lia|].
  assert (Hzone : isIsoWithTz (toIsoInFixedOffset t offset) = true).
  { apply isIsoWithTz_zoneSuffix. right.
    exists (chars (Z_toString (YearFromTime localMs)) ++ "-"%char
              :: twoDigits (MonthFromTime localMs + 1) ++ "-"%char
              :: twoDigits (DateFromTime localMs) ++ "T"%char
              :: twoDigits (HourFromTime localMs) ++ ":"%char
              :: twoDigits (MinFromTime localMs) ++ ":"%char
              :: twoDigits (SecFromTime localMs)),
           sg, (twoDigits (Z.abs offset / 60)), (twoDigits (Z.abs offset mod 60)).
    split; [exact Hsg|]. split; [exact Doh|]. split; [exact Dom|].
    rewrite Hchars. repeat (rewrite <- app_assoc; cbn [app]). reflexivity. }
  set (e := {| elYear := YearFromTime localMs;
               elMonth := MonthFromTime localMs + 1;
               elDay := DateFromTime localMs;
               elHour := HourFromTime localMs;
               elMinute := MinFromTime localMs;
               elSecond := SecFromTime localMs;
               elMilli := 0;
               elZoneSign := if Ascii.eqb sg "-" then -1 else 1;
               elZoneHour := Z.abs offset / 60;
               elZoneMinute := Z.abs offset mod 60 |}).
  assert (Hsyntax : zonedSyntax (chars (toIsoInFixedOffset t offset)) = Some e).
  { unfold zonedSyntax. rewrite Hchars.
    rewrite dateSyntax_rendered by assumption.
    cbn [startsWith tl negb]. rewrite Ascii.eqb_refl. cbn [negb].
    rewrite timeSyntax_rendered; try assumption.
    2:{ cbn [startsWith]. destruct Hsg as [-> | ->]; reflexivity. }
    rewrite zoneSyntax_rendered by assumption.
    rewrite Vy, Vm, Vd, Vh, Vn, Vs, Voh, Vom. reflexivity. }
  assert (Hbounds : inBounds e = true).
  { unfold inBounds, e. cbn [elMonth elDay elHour elMinute elSecond elMilli
                               elZoneHour elZoneMinute].
    rewrite !andb_true_iff, orb_true_iff, !Z.leb_le, Z.ltb_lt. repeat split; lia. }
  assert (Hday : (DaysInMonth (elYear e) (elMonth e) <? elDay e) = false)
    by (apply Z.ltb_ge; unfold e; cbn [elYear elMonth elDay]; lia).
  assert (Hvalue : elementsTime e = t).
  { unfold elementsTime, e.
    cbn [elYear elMonth elDay elHour elMinute elSecond elMilli elZoneSign
           elZoneHour elZoneMinute].
    rewrite MakeDay_fields, MakeTime_fields.
    2:{ unfold localMs, MS_PER_MIN. Z.to_euclidean_division_equations. lia. }
    unfold MakeDate, Day, TimeWithinDay, msPerMinute.
    assert (Hoff : (if Ascii.eqb sg "-" then -1 else 1)
                   * (Z.abs offset / 60 * 60 + Z.abs offset mod 60) = offset).
    { unfold sg. destruct (Z.leb_spec 0 offset); cbn [Ascii.eqb Bool.eqb];
        Z.to_euclidean_division_equations; lia. }
    rewrite Hoff. unfold localMs, MS_PER_MIN, msPerDay.
    Z.to_euclidean_division_equations. lia. }
  unfold parseIsoInFixedOffset, Date_parse.
  rewrite Hzone, Hsyntax, Hbounds, Hday, Hvalue. cbn [negb].
  rewrite TimeClip_small; [reflexivity|].
  unfold localMs, MS_PER_MIN in Hclip. lia.
Qed.

Lemma render_parse_roundtrip_witness :
  parseIsoInFixedOffset (H := exampleRuntime)
    (toIsoInFixedOffset 1768464000000 (-330)) 60
  = inr (Some 1768464000000).
Proof.
  apply (render_parse_roundtrip (H := exampleRuntime) 1768464000000 (-330) 60).
  - reflexivity.
  - reflexivity.
  - vm_compute. split; discriminate.
Defined.

(** The text with offset +24:00 is read as NaN by every host. *)
Lemma offset_24_hours_is_NaN `{Runtime} :
  Date_parse "1970-01-02T00:00:00+24:00" = None.
Proof. reflexivity. Qed.

(** C10 as stated fails from an offset of 24 hours on: the rendered zone is
    out of the bounds of the date-time format, and the text is refused. *)
Lemma offset_of_24_hours_is_not_read_back :
  Z.abs 1440 < 6000
  /\ 0 mod 1000 = 0
  /\ YearFromTime (0 + 1440 * MS_PER_MIN) = 1970
  /\ toIsoInFixedOffset 0 1440 = "1970-01-02T00:00:00+24:00"%string
  /\ parseIsoInFixedOffset (H := exampleRuntime) (toIsoInFixedOffset 0 1440) 1440
     = throw "invalid iso: 1970-01-02T00:00:00+24:00".
Proof. vm_compute. repeat split. Qed.

(** * Further properties of the scheduling core *)

(** ** Validation and the order of failures, continued *)

Lemma localMidnightUtcMs_throws startYmd offsetMinutes e :
  parseYmd startYmd = inl e -> localMidnightUtcMs startYmd offsetMinutes = inl e.
Proof. unfold localMidnightUtcMs. intros ->. reflexivity. Qed.

Lemma localMidnightUtcMs_returns startYmd offsetMinutes ymd :
  parseYmd startYmd = inr ymd ->
  exists t, localMidnightUtcMs startYmd offsetMinutes = inr t.
Proof.
  unfold localMidnightUtcMs. intros ->. destruct ymd as [[y m] d]. eexists. reflexivity.
Qed.

Lemma generateScheduledTimes_returns `{Runtime} startDate days o ymd :
  parseYmd startDate = inr ymd -> timestampsRead o ->
  exists doses, generateScheduledTimes startDate days o = inr doses.
Proof.
  intros Hymd [[s Hs] He].
  destruct (localMidnightUtcMs_returns _ (intValue (tz_offset_minutes o)) _ Hymd) as [g Hg].
  destruct (end_datetime o) as [x|] eqn:Ex.
  - destruct (He x eq_refl) as [t Ht]. eexists.
    apply (generateScheduledTimes_eq _ _ _ g s (ofTime t)); [exact Hg | exact Hs|].
    rewrite Ex. exists t. split; [exact Ht | reflexivity].
  - eexists. apply (generateScheduledTimes_eq _ _ _ g s PosInf); [exact Hg | exact Hs|].
    rewrite Ex. reflexivity.
Qed.

Lemma generateScheduledTimes_timestampError `{Runtime} startDate days o ymd e :
  parseYmd startDate = inr ymd -> timestampError o e ->
  generateScheduledTimes startDate days o = inl e.
Proof.
  intros Hymd Herr.
  destruct (localMidnightUtcMs_returns _ (intValue (tz_offset_minutes o)) _ Hymd) as [g Hg].
  unfold generateScheduledTimes. rewrite Hg. unfold bind at 1.
  destruct Herr as [Hs|[[s Hs] (x & Ex & He)]]; rewrite Hs; unfold bind at 1;
    [reflexivity|].
  rewrite Ex, He. reflexivity.
Qed.

Lemma collectDoses_first_failure `{Runtime} start_date days before o after e :
  Forall (fun p => exists doses, generateScheduledTimes start_date days p = inr doses)
         before ->
  generateScheduledTimes start_date days o = inl e ->
  collectDoses start_date days (before ++ o :: after) = inl e.
Proof.
  intros Hb Ho. induction Hb as [|p before [doses Hp] _ IH]; cbn [app collectDoses].
  - rewrite Ho. reflexivity.
  - rewrite Hp, IH. reflexivity.
Qed.

Lemma generateDoseEvents_collect `{Runtime} start_date days orders :
  validDays days ->
  Forall (fun o => validateOrder o = ret tt) orders ->
  generateDoseEvents start_date days orders
  = let? allDoses := collectDoses start_date (intValue days) orders in
    ret (map toEvent (scheduleWinners allDoses)).
Proof.
  intros Hd Hv. unfold generateDoseEvents.
  apply validDays_dec in Hd. rewrite Hd, (forEach_all_ok _ _ Hv). reflexivity.
Qed.

(** X1 (generateDoseEvents): the start date is read once per order and not
    before.  When the horizon and every order pass validation and the start
    date is not a date, a call without orders returns no events, and a call
    with orders throws the start date's error, whatever the orders'
    timestamps are. *)
Theorem start_date_is_read_per_order `{Runtime} (start_date : string)
    (days : number) (orders : list Order) (e : exn) :
  validDays days ->
  Forall (fun o => validateOrder o = ret tt) orders ->
  parseYmd start_date = inl e ->
  generateDoseEvents start_date days orders
  = match orders with [] => inr [] | _ :: _ => inl e end.
Proof.
  intros Hd Hv Hymd. rewrite (generateDoseEvents_collect _ _ _ Hd Hv).
  destruct orders as [|o rest]; [reflexivity|].
  cbn [collectDoses]. unfold generateScheduledTimes.
  rewrite (localMidnightUtcMs_throws _ _ _ Hymd). reflexivity.
Qed.

Lemma start_date_is_read_per_order_witness :
  generateDoseEvents (H := exampleRuntime) "tomorrow" (Int 1) [] = inr []
  /\ generateDoseEvents (H := exampleRuntime) "tomorrow" (Int 1) [orderA]
     = throw "invalid start_date: tomorrow".
Proof.
  assert (Hd : validDays (Int 1)) by (exists 1; split; [reflexivity | lia]).
  assert (Hymd : parseYmd "tomorrow" = throw "invalid start_date: tomorrow")
    by (vm_compute; reflexivity).
  split.
  - apply (start_date_is_read_per_order (H := exampleRuntime) "tomorrow" (Int 1) []
             _ Hd (List.Forall_nil _) Hymd).
  - apply (start_date_is_read_per_order (H := exampleRuntime) "tomorrow" (Int 1) [orderA]
             _ Hd); [|exact Hymd].
    constructor; [reflexivity | constructor].
Defined.

(** X2 (generateDoseEvents, generateScheduledTimes): after validation the
    orders are read in their given order, the start of an order before its
    end, and the first timestamp that cannot be read ends the call with its
    error: later orders, and the order's own remaining timestamp, are not
    looked at. *)
Theorem first_unreadable_timestamp_decides `{Runtime} (start_date : string)
    (days : number) (before : list Order) (o : Order) (after : list Order)
    (ymd : Q * Q * Q) (e : exn) :
  validDays days ->
  Forall (fun p => validateOrder p = ret tt) (before ++ o :: after) ->
  parseYmd start_date = inr ymd ->
  Forall timestampsRead before ->
  timestampError o e ->
  generateDoseEvents start_date days (before ++ o :: after) = inl e.
Proof.
  intros Hd Hv Hymd Hb Ho. rewrite (generateDoseEvents_collect _ _ _ Hd Hv).
  rewrite (collectDoses_first_failure _ _ before o after e); [reflexivity| |].
  - apply (List.Forall_impl _ (fun p => generateScheduledTimes_returns _ _ p ymd Hymd)), Hb.
  - apply (generateScheduledTimes_timestampError _ _ _ ymd); assumption.
Qed.

Lemma first_unreadable_timestamp_decides_witness :
  generateDoseEvents (H := exampleRuntime) "2026-01-15" (Int 1)
    ([orderA] ++ orderUnreadableEnd :: [orderUnreadableStart])
  = throw "invalid naive iso: soon".
Proof.
  eapply (first_unreadable_timestamp_decides (H := exampleRuntime) "2026-01-15" (Int 1)
            [orderA] orderUnreadableEnd [orderUnreadableStart]).
  - exists 1. split; [reflexivity | lia].
  - repeat constructor.
  - vm_compute. reflexivity.
  - constructor; [|constructor]. split.
    + eexists. vm_compute. reflexivity.
    + intros x [=].
  - right. split.
    + eexists. vm_compute. reflexivity.
    + exists "soon"%string. split; [reflexivity|]. vm_compute. reflexivity.
Defined.

Lemma isDigit_range c : isDigit c = true -> 0 <= digitValue c <= 9.
Proof.
  unfold isDigit, digitValue. intros [H1 H2]%andb_true_iff.
  apply Nat.leb_le in H1, H2. lia.
Qed.

Lemma isDigit_not_space c : isDigit c = true -> isWhiteSpace c = false.
Proof.
  unfold isDigit, isWhiteSpace. cbv zeta. intros [H1 H2]%andb_true_iff.
  apply Nat.leb_le in H1, H2.
  rewrite !orb_false_iff, andb_false_iff, !Nat.eqb_neq, !Nat.leb_gt. lia.
Qed.

Lemma trimStart_digits l :
  Forall (fun c => isDigit c = true) l -> trimStart l = l.
Proof.
  intros [|c rest Hc _]; [reflexivity|]. cbn [trimStart].
  rewrite (isDigit_not_space c Hc). reflexivity.
Qed.

Lemma trim_digits l : Forall (fun c => isDigit c = true) l -> trim l = l.
Proof.
  intros Hl. unfold trim. rewrite (trimStart_digits l Hl).
  rewrite trimStart_digits by (apply List.Forall_rev, Hl). apply rev_involutive.
Qed.

Lemma spanDigits_digits l :
  Forall (fun c => isDigit c = true) l -> spanDigits l = (l, []).
Proof.
  induction 1 as [|c l Hc _ IH]; [reflexivity|]. cbn [spanDigits]. rewrite Hc, IH.
  reflexivity.
Qed.

Lemma truncate_integer (v : Z) : truncate (inject_Z v * 1) = v.
Proof.
  unfold truncate, Qceiling, Qfloor, Qopp, Qmult, inject_Z. cbn [Qnum Qden Pos.mul].
  rewrite Z.mul_1_r. destruct (0 <=? v); [apply Z.div_1_r|].
  rewrite Z.div_1_r. lia.
Qed.

Lemma truncate_integer_pred (v : Z) : truncate (inject_Z v * 1 - 1) = v - 1.
Proof.
  unfold truncate, Qceiling, Qfloor, Qminus, Qplus, Qopp, Qmult, inject_Z.
  cbn [Qnum Qden].
  change (Z.pos (1 * 1 * 1)) with 1. change (Z.pos (1 * 1)) with 1.
  replace (v * 1 * 1 + - (1) * 1) with (v - 1) by lia.
  destruct (0 <=? v - 1); [apply Z.div_1_r|].
  rewrite Z.div_1_r. lia.
Qed.

Lemma digitsValue_nonneg l :
  Forall (fun c => isDigit c = true) l -> 0 <= digitsValue l.
Proof.
  unfold digitsValue. intros Hl.
  assert (Hgen : forall acc, 0 <= acc ->
            0 <= fold_left (fun a c => 10 * a + digitValue c) l acc).
  { induction Hl as [|c l Hc _ IH]; intros acc Hacc; cbn [fold_left]; [exact Hacc|].
    apply IH. apply isDigit_range in Hc. lia. }
  apply Hgen. lia.
Qed.

Lemma small_is_finite (v : Z) : v < 10000 -> v < 2 ^ 1024 - 2 ^ 970.
Proof.
  intros Hv. assert (Hbig : 10000 < 2 ^ 1024 - 2 ^ 970) by (vm_compute; reflexivity).
  lia.
Qed.

(** [Number] of a run of digits is the number the digits spell. *)
Lemma StringToNumber_digits c l :
  Forall (fun c => isDigit c = true) (c :: l) ->
  digitsValue (c :: l) < 10000 ->
  StringToNumber (str (c :: l)) = Some (inject_Z (digitsValue (c :: l)) * 1)%Q.
Proof.
  intros Hl Hsmall. pose proof (small_is_finite _ Hsmall) as Hv.
  unfold StringToNumber, chars, str.
  rewrite list_ascii_of_string_of_list_ascii, (trim_digits _ Hl).
  inversion Hl as [|? ? Hc Hrest]; subst.
  assert (Hradix : (if Ascii.eqb c "0" then
                      match l with
                      | x :: _ =>
                          if Ascii.eqb x "x" || Ascii.eqb x "X" then Some 16
                          else if Ascii.eqb x "o" || Ascii.eqb x "O" then Some 8
                          else if Ascii.eqb x "b" || Ascii.eqb x "B" then Some 2
                          else None
                      | [] => None
                      end
                    else None) = None).
  { destruct (Ascii.eqb c "0"); [|reflexivity]. destruct Hrest as [|x l Hx _]; [reflexivity|].
    rewrite (isDigit_not x "x" Hx eq_refl), (isDigit_not x "X" Hx eq_refl),
      (isDigit_not x "o" Hx eq_refl), (isDigit_not x "O" Hx eq_refl),
      (isDigit_not x "b" Hx eq_refl), (isDigit_not x "B" Hx eq_refl). reflexivity. }
  cbv zeta. rewrite Hradix.
  rewrite (isDigit_not c "-" Hc eq_refl), (isDigit_not c "+" Hc eq_refl).
  unfold unsignedDecimal. rewrite (spanDigits_digits _ Hl). cbn [exponentPart].
  rewrite app_nil_r.
  change (pow10 (0 - Z.of_nat (length (@nil ascii)))) with 1%Q.
  pose proof (digitsValue_nonneg _ Hl) as Hpos.
  assert (Hfin : overflows (inject_Z (digitsValue (c :: l)) * 1) = false).
  { unfold overflows. set (T := 2 ^ 1024 - 2 ^ 970) in *.
    unfold Qle_bool, Qabs, Qmult, inject_Z. cbn [Qnum Qden].
    change (Z.pos (1 * 1)) with 1. apply Z.leb_gt. lia. }
  rewrite Hfin. f_equal.
  unfold nearestDouble, Qmult, inject_Z. cbn [Qnum Qden].
  change (Z.pos (1 * 1) =? 1) with true. cbn [andb].
  change (2 ^ 53) with 9007199254740992.
  replace (Z.abs (digitsValue (c :: l) * 1) <? 9007199254740992) with true;
    [reflexivity|].
  symmetry. apply Z.ltb_lt. lia.
Qed.

Lemma digits_2_value l : digits 2 l -> 0 <= digitsValue l <= 99.
Proof.
  intros (a & b & -> & Ha & Hb)%digits_2.
  apply isDigit_range in Ha, Hb. unfold digitsValue. cbn [fold_left]. lia.
Qed.

Lemma digits_4_value l : digits 4 l -> 0 <= digitsValue l <= 9999.
Proof.
  intros Hl. destruct (digits_4 l Hl) as (a & b & c & d & ->).
  destruct Hl as [_ Hl].
  inversion Hl as [|? ? Ha Hl1]; subst. inversion Hl1 as [|? ? Hb Hl2]; subst.
  inversion Hl2 as [|? ? Hc Hl3]; subst. inversion Hl3 as [|? ? Hd _]; subst.
  apply isDigit_range in Ha, Hb, Hc, Hd. unfold digitsValue. cbn [fold_left]. lia.
Qed.

Lemma Number_digits n l :
  digits (S n) l -> digitsValue l < 10000 ->
  Number_ (Some l) = Some (inject_Z (digitsValue l) * 1)%Q.
Proof.
  intros [Hlen Hl] Hv. destruct l as [|c l]; [discriminate|].
  apply StringToNumber_digits; [exact Hl | exact Hv].
Qed.

Lemma splitOn_app_sep sep a rest :
  Forall (fun c => Ascii.eqb c sep = false) a ->
  splitOn sep (a ++ sep :: rest) = a :: splitOn sep rest.
Proof.
  induction 1 as [|c a Hc _ IH]; cbn [app splitOn].
  - rewrite Ascii.eqb_refl. reflexivity.
  - rewrite Hc, IH. reflexivity.
Qed.

Lemma splitOn_nosep sep a :
  Forall (fun c => Ascii.eqb c sep = false) a -> splitOn sep a = [a].
Proof.
  induction 1 as [|c a Hc _ IH]; cbn [splitOn]; [reflexivity|].
  rewrite Hc, IH. reflexivity.
Qed.

Lemma splitOn_length sep l :
  length (splitOn sep l) = S (count_occ ascii_dec l sep).
Proof.
  induction l as [|c l IH]; [reflexivity|]. cbn [splitOn count_occ].
  destruct (Ascii.eqb_spec c sep) as [->|Hne].
  - destruct (ascii_dec sep sep) as [_|Hn]; [|contradiction]. cbn [length]. rewrite IH.
    reflexivity.
  - destruct (ascii_dec c sep) as [He|_]; [contradiction|].
    destruct (splitOn sep l) as [|w ws]; [discriminate IH | exact IH].
Qed.

Lemma digits_no_hyphen n l :
  digits n l -> Forall (fun c => Ascii.eqb c "-" = false) l.
Proof.
  intros [_ Hl]. apply (List.Forall_impl _ (fun c Hc => isDigit_not c "-" Hc eq_refl)), Hl.
Qed.

Lemma monthStart_range leap m : 0 <= leap <= 1 -> 0 <= monthStart leap m <= 366.
Proof.
  intros Hleap. unfold monthStart.
  destruct m as [|p|p]; try lia.
  do 4 (try (destruct p as [p|p|]; try lia)).
Qed.

Lemma MakeFullYear_range y : 0 <= y <= 9999 -> 0 <= MakeFullYear y <= 9999.
Proof. unfold MakeFullYear. destruct ((0 <=? y) && (y <=? 99)) eqn:E; [|lia].
  apply andb_true_iff in E as [_ E]. apply Z.leb_le in E. lia.
Qed.

(** The day numbers of four-digit years with two-digit months and days. *)
Lemma MakeDay_range yr mo d :
  0 <= yr <= 9999 -> -1 <= mo <= 99 -> 0 <= d <= 99 ->
  -800000 <= MakeDay yr mo d <= 3000000.
Proof.
  intros Hy Hm Hd. unfold MakeDay. cbv zeta.
  assert (Hleap : 0 <= (if DaysInYear (yr + mo / 12) =? 366 then 1 else 0) <= 1)
    by (destruct (_ =? _); lia).
  pose proof (monthStart_range _ (mo mod 12) Hleap) as Hms.
  unfold DayFromYear. Z.to_euclidean_division_equations. lia.
Qed.

Lemma parseYmd_date (ymd : string) (y m d : list ascii) :
  digits 4 y -> digits 2 m -> digits 2 d ->
  chars ymd = y ++ "-"%char :: m ++ "-"%char :: d ->
  parseYmd ymd = ret (inject_Z (digitsValue y) * 1, inject_Z (digitsValue m) * 1,
                      inject_Z (digitsValue d) * 1)%Q.
Proof.
  intros Hy Hm Hd Hs. unfold parseYmd. rewrite Hs.
  rewrite (splitOn_app_sep _ _ _ (digits_no_hyphen _ _ Hy)),
    (splitOn_app_sep _ _ _ (digits_no_hyphen _ _ Hm)),
    (splitOn_nosep _ _ (digits_no_hyphen _ _ Hd)).
  cbn [nth_error].
  pose proof (digits_4_value _ Hy). pose proof (digits_2_value _ Hm).
  pose proof (digits_2_value _ Hd).
  rewrite (Number_digits _ _ Hy), (Number_digits _ _ Hm), (Number_digits _ _ Hd) by lia.
  reflexivity.
Qed.

(** The offset in milliseconds, where the product is exact. *)
Lemma exactOffset_ms (offsetMinutes : Z) :
  exactOffset offsetMinutes ->
  mulDouble offsetMinutes MS_PER_MIN = offsetMinutes * MS_PER_MIN
  /\ Z.abs (offsetMinutes * MS_PER_MIN) <= 6000000000000000.
Proof.
  unfold exactOffset. intros Ho.
  assert (Hb : Z.abs (offsetMinutes * MS_PER_MIN) <= 6000000000000000)
    by (unfold MS_PER_MIN; lia).
  split; [apply mulDouble_exact; lia | exact Hb].
Qed.

(** The anchor of a start date [YYYY-MM-DD], and the range of its midnight. *)
Lemma localMidnightUtcMs_value (ymd : string) (y m d : list ascii)
    (offsetMinutes : Z) :
  digits 4 y -> digits 2 m -> digits 2 d ->
  chars ymd = y ++ "-"%char :: m ++ "-"%char :: d ->
  exactOffset offsetMinutes ->
  let midnight := MakeDate (MakeDay (MakeFullYear (digitsValue y))
                                    (digitsValue m - 1) (digitsValue d)) 0 in
  localMidnightUtcMs ymd offsetMinutes
  = inr (Some (midnight - offsetMinutes * MS_PER_MIN))
  /\ -69120000000000 <= midnight <= 259200000000000.
Proof.
  intros Hy Hm Hd Hs Ho midnight. unfold localMidnightUtcMs.
  rewrite (parseYmd_date ymd y m d Hy Hm Hd Hs). unfold bind, ret, Date_UTC.
  rewrite !truncate_integer, truncate_integer_pred.
  change (truncate 0) with 0. change (MakeTime 0 0 0 0) with 0.
  pose proof (digits_4_value _ Hy) as Vy. pose proof (digits_2_value _ Hm) as Vm.
  pose proof (digits_2_value _ Hd) as Vd.
  pose proof (MakeDay_range (MakeFullYear (digitsValue y)) (digitsValue m - 1)
                (digitsValue d) (MakeFullYear_range _ Vy)) as Hday.
  assert (Hmid : -69120000000000 <= midnight <= 259200000000000)
    by (unfold midnight, MakeDate, msPerDay; lia).
  fold midnight. destruct (exactOffset_ms _ Ho) as [-> Hb].
  rewrite TimeClip_small by lia. cbn [subTime].
  rewrite double_exact by lia. split; [reflexivity | exact Hmid].
Qed.

(** X3 (localMidnightUtcMs, parseYmd): for a start date [YYYY-MM-DD] of
    digits and an offset of at most 10^11 minutes, the anchor is the UTC
    midnight of that calendar date less the offset, and it is never NaN.  As
    [Date.UTC] has it, a year from 0000 to 0099 is read as 1900 to 1999, and
    a month or a day outside the calendar carries over into the next months
    or is counted back from the first. *)
Theorem localMidnightUtcMs_date (ymd : string) (y m d : list ascii)
    (offsetMinutes : Z) :
  digits 4 y -> digits 2 m -> digits 2 d ->
  chars ymd = y ++ "-"%char :: m ++ "-"%char :: d ->
  exactOffset offsetMinutes ->
  localMidnightUtcMs ymd offsetMinutes
  = inr (Some (MakeDate (MakeDay (MakeFullYear (digitsValue y))
                                 (digitsValue m - 1) (digitsValue d)) 0
               - offsetMinutes * MS_PER_MIN)).
Proof.
  intros Hy Hm Hd Hs Ho.
  apply (localMidnightUtcMs_value ymd y m d offsetMinutes Hy Hm Hd Hs Ho).
Qed.

Lemma localMidnightUtcMs_date_witness :
  localMidnightUtcMs "0026-02-31" 300 = localMidnightUtcMs "1926-03-03" 300
  /\ localMidnightUtcMs "0026-02-31" 300 = inr (Some (-1383264000000 - 18000000)).
Proof.
  rewrite (localMidnightUtcMs_date "0026-02-31" (chars "0026") (chars "02") (chars "31") 300).
  - vm_compute. split; reflexivity.
  - split; [reflexivity | repeat constructor].
  - split; [reflexivity | repeat constructor].
  - split; [reflexivity | repeat constructor].
  - reflexivity.
  - unfold exactOffset. vm_compute. discriminate.
Defined.

(** X4 (parseYmd, localMidnightUtcMs): a start date with fewer than two
    hyphens has no third part, whose number is NaN: the call throws
    [invalid start_date] with the string it was given. *)
Theorem localMidnightUtcMs_needs_three_parts (ymd : string) (offsetMinutes : Z) :
  (hyphens ymd < 2)%nat ->
  localMidnightUtcMs ymd offsetMinutes = throw ("invalid start_date: " +:+ ymd).
Proof.
  unfold hyphens. intros Hh. unfold localMidnightUtcMs, parseYmd.
  pose proof (splitOn_length "-" (chars ymd)) as Hlen.
  assert (Hnone : nth_error (splitOn "-" (chars ymd)) 2 = None)
    by (apply nth_error_None; lia).
  rewrite Hnone. cbn [Number_].
  destruct (Number_ (nth_error (splitOn "-" (chars ymd)) 0)),
    (Number_ (nth_error (splitOn "-" (chars ymd)) 1)); reflexivity.
Qed.

Lemma localMidnightUtcMs_needs_three_parts_witness :
  localMidnightUtcMs "2026-01" 0 = throw "invalid start_date: 2026-01".
Proof.
  apply (localMidnightUtcMs_needs_three_parts "2026-01" 0). vm_compute. lia.
Defined.

Lemma truncate_inject_Z (v : Z) : truncate (inject_Z v) = v.
Proof.
  unfold truncate, Qceiling, Qfloor, Qopp, inject_Z. cbn [Qnum Qden].
  destruct (0 <=? v); [apply Z.div_1_r|]. rewrite Z.div_1_r. lia.
Qed.

Lemma matchNaive_value (s : string) (y mo d hh mm ss : list ascii) :
  digits 4 y -> digits 2 mo -> digits 2 d -> digits 2 hh -> digits 2 mm ->
  ss = [] \/ digits 2 ss ->
  chars s = y ++ "-"%char :: mo ++ "-"%char :: d ++ "T"%char :: hh
              ++ ":"%char :: mm ++ secondsPart ss ->
  matchNaive s
  = Some (digitsValue y, digitsValue mo, digitsValue d, digitsValue hh, digitsValue mm,
          match ss with [] => None | _ :: _ => Some (digitsValue ss) end).
Proof.
  intros Hy Hmo Hd Hhh Hmm Hss Hs. unfold matchNaive. rewrite Hs.
  rewrite (takeDigits_value 4 y _ Hy). cbn [startsWith negb tl].
  rewrite Ascii.eqb_refl. cbn [negb].
  rewrite (takeDigits_value 2 mo _ Hmo). cbn [startsWith negb tl].
  rewrite Ascii.eqb_refl. cbn [negb].
  rewrite (takeDigits_value 2 d _ Hd). cbn [startsWith negb tl].
  rewrite Ascii.eqb_refl. cbn [negb].
  rewrite (takeDigits_value 2 hh _ Hhh). cbn [startsWith negb tl].
  rewrite Ascii.eqb_refl. cbn [negb].
  rewrite (takeDigits_value 2 mm _ Hmm).
  destruct Hss as [->|Hss]; [reflexivity|].
  destruct ss as [|c ss]; [reflexivity|]. cbn [secondsPart startsWith negb tl].
  rewrite Ascii.eqb_refl. cbn [negb].
  rewrite <- (app_nil_r (c :: ss)) at 1. rewrite (takeDigits_value 2 _ [] Hss).
  reflexivity.
Qed.

Lemma naiveForm_parts (s : string) (y mo d hh mm ss : list ascii) :
  digits 4 y -> digits 2 mo -> digits 2 d -> digits 2 hh -> digits 2 mm ->
  ss = [] \/ digits 2 ss ->
  chars s = y ++ "-"%char :: mo ++ "-"%char :: d ++ "T"%char :: hh
              ++ ":"%char :: mm ++ secondsPart ss ->
  naiveForm s.
Proof.
  intros Hy Hmo Hd Hhh Hmm Hss Hs. exists y, mo, d, hh, mm.
  repeat (split; [assumption|]). cbv zeta.
  destruct Hss as [->|Hss].
  - left. rewrite Hs. cbn [secondsPart]. rewrite app_nil_r. reflexivity.
  - right. exists ss. split; [exact Hss|]. rewrite Hs.
    destruct ss as [|c ss]; [destruct Hss; discriminate|]. cbn [secondsPart].
    repeat (rewrite <- ?app_assoc, <- ?app_comm_cons). reflexivity.
Qed.

(** The instant of a naive timestamp. *)
Lemma parseIsoInFixedOffset_naive_value `{Runtime} (iso : string)
    (y mo d hh mm ss : list ascii) (offsetMinutes : Z) :
  digits 4 y -> digits 2 mo -> digits 2 d -> digits 2 hh -> digits 2 mm ->
  ss = [] \/ digits 2 ss ->
  chars iso = y ++ "-"%char :: mo ++ "-"%char :: d ++ "T"%char :: hh
                ++ ":"%char :: mm ++ secondsPart ss ->
  exactOffset offsetMinutes ->
  parseIsoInFixedOffset iso offsetMinutes
  = inr (Some (MakeDate (MakeDay (MakeFullYear (digitsValue y))
                                 (digitsValue mo - 1) (digitsValue d))
                        (MakeTime (digitsValue hh) (digitsValue mm) (digitsValue ss) 0)
               - offsetMinutes * MS_PER_MIN)).
Proof.
  intros Hy Hmo Hd Hhh Hmm Hss Hs Ho. unfold parseIsoInFixedOffset.
  rewrite (naiveForm_not_zoned iso (naiveForm_parts _ _ _ _ _ _ _ Hy Hmo Hd Hhh Hmm Hss Hs)).
  rewrite (matchNaive_value iso y mo d hh mm ss Hy Hmo Hd Hhh Hmm Hss Hs).
  assert (Hsec : match match ss with [] => None | _ :: _ => Some (digitsValue ss) end with
                 | Some v => v
                 | None => 0
                 end = digitsValue ss) by (destruct ss; reflexivity).
  cbv zeta. rewrite Hsec. unfold Date_UTC, ret. rewrite !truncate_inject_Z.
  pose proof (digits_4_value _ Hy) as Vy. pose proof (digits_2_value _ Hmo) as Vmo.
  pose proof (digits_2_value _ Hd) as Vd. pose proof (digits_2_value _ Hhh) as Vhh.
  pose proof (digits_2_value _ Hmm) as Vmm.
  assert (Vss : 0 <= digitsValue ss <= 99)
    by (destruct Hss as [->|Hss]; [vm_compute; split; discriminate
                                  | apply digits_2_value, Hss]).
  pose proof (MakeDay_range (MakeFullYear (digitsValue y)) (digitsValue mo - 1)
                (digitsValue d) (MakeFullYear_range _ Vy)) as Hday.
  destruct (exactOffset_ms _ Ho) as [-> Hb].
  assert (Hutc : Z.abs (MakeDate (MakeDay (MakeFullYear (digitsValue y))
                                          (digitsValue mo - 1) (digitsValue d))
                                 (MakeTime (digitsValue hh) (digitsValue mm)
                                           (digitsValue ss) 0))
                 <= 260000000000000)
    by (unfold MakeDate, MakeTime, msPerDay, msPerHour, msPerMinute, msPerSecond; lia).
  rewrite TimeClip_small by lia. cbn [subTime].
  rewrite double_exact by lia. reflexivity.
Qed.

(** X5 (parseIsoInFixedOffset): under a declared offset of at most 10^11
    minutes, a naive timestamp [YYYY-MM-DDTHH:MM] or [YYYY-MM-DDTHH:MM:SS] is
    never refused and never NaN, whatever its digits are: it is the instant
    that [Date.UTC] gives its six numbers, less the declared offset.  So a
    month, day, hour, minute or second outside its usual range carries over
    instead of failing, and the same text read under two such offsets gives
    instants that differ by the offsets. *)
Theorem parseIsoInFixedOffset_naive `{Runtime} (iso : string)
    (y mo d hh mm ss : list ascii) (offsetMinutes : Z) :
  digits 4 y -> digits 2 mo -> digits 2 d -> digits 2 hh -> digits 2 mm ->
  ss = [] \/ digits 2 ss ->
  chars iso = y ++ "-"%char :: mo ++ "-"%char :: d ++ "T"%char :: hh
                ++ ":"%char :: mm ++ secondsPart ss ->
  exactOffset offsetMinutes ->
  parseIsoInFixedOffset iso offsetMinutes
  = inr (Some (MakeDate (MakeDay (MakeFullYear (digitsValue y))
                                 (digitsValue mo - 1) (digitsValue d))
                        (MakeTime (digitsValue hh) (digitsValue mm) (digitsValue ss) 0)
               - offsetMinutes * MS_PER_MIN)).
Proof. apply parseIsoInFixedOffset_naive_value. Qed.

Lemma parseIsoInFixedOffset_naive_witness :
  parseIsoInFixedOffset (H := exampleRuntime) "2026-02-30T25:61" 330
  = parseIsoInFixedOffset (H := exampleRuntime) "2026-03-03T02:01:00" 330
  /\ parseIsoInFixedOffset (H := exampleRuntime) "2026-02-30T25:61" 330
     = inr (Some (1772503260000 - 19800000)).
Proof.
  rewrite (parseIsoInFixedOffset_naive (H := exampleRuntime) "2026-02-30T25:61"
             (chars "2026") (chars "02") (chars "30") (chars "25") (chars "61") [] 330).
  - vm_compute. split; reflexivity.
  - split; [reflexivity | repeat constructor].
  - split; [reflexivity | repeat constructor].
  - split; [reflexivity | repeat constructor].
  - split; [reflexivity | repeat constructor].
  - split; [reflexivity | repeat constructor].
  - left. reflexivity.
  - reflexivity.
  - unfold exactOffset. vm_compute. discriminate.
Defined.

(** X6 (formatOffset): an offset of less than 100 hours is written as its
    sign, two digits of hours, a colon and two digits of minutes below 60,
    and these spell the offset back; zero is written with the plus sign. *)
Theorem formatOffset_spells_offset (minutes : Z) :
  Z.abs minutes < 6000 ->
  exists hh mm,
    chars (formatOffset minutes)
    = (if 0 <=? minutes then "+"%char else "-"%char) :: hh ++ ":"%char :: mm
    /\ digits 2 hh /\ digits 2 mm /\ digitsValue mm < 60
    /\ (if 0 <=? minutes then 1 else -1) * (60 * digitsValue hh + digitsValue mm)
       = minutes.
Proof.
  intros Ho. exists (twoDigits (Z.abs minutes / 60)), (twoDigits (Z.abs minutes mod 60)).
  destruct (twoDigits_spec (Z.abs minutes / 60)) as [Dh Vh];
    [Z.to_euclidean_division_equations; lia|].
  destruct (twoDigits_spec (Z.abs minutes mod 60)) as [Dm Vm];
    [Z.to_euclidean_division_equations; lia|].
  split; [apply formatOffset_chars|]. split; [exact Dh|]. split; [exact Dm|].
  rewrite Vh, Vm. split; [Z.to_euclidean_division_equations; lia|].
  destruct (0 <=? minutes) eqn:E; [apply Z.leb_le in E | apply Z.leb_gt in E];
    Z.to_euclidean_division_equations; lia.
Qed.

Lemma formatOffset_spells_offset_witness :
  exists hh mm,
    chars (formatOffset (-330)) = "-"%char :: hh ++ ":"%char :: mm
    /\ digits 2 hh /\ digits 2 mm /\ digitsValue mm < 60
    /\ -1 * (60 * digitsValue hh + digitsValue mm) = -330.
Proof. apply (formatOffset_spells_offset (-330)). vm_compute. reflexivity. Defined.

(** ** Occurrence generation, continued *)

Lemma generateScheduledTimes_inv `{Runtime} startDate days o doses :
  generateScheduledTimes startDate days o = inr doses ->
  exists globalStartUtc orderStartUtc orderEndUtc,
    localMidnightUtcMs startDate (intValue (tz_offset_minutes o)) = inr globalStartUtc
    /\ parseIsoInFixedOffset (start_datetime o) (intValue (tz_offset_minutes o))
       = inr orderStartUtc
    /\ orderEndIs o orderEndUtc
    /\ doses = (let w := effectiveWindow globalStartUtc days orderStartUtc orderEndUtc in
                if num_gt w.1 w.2 then []
                else dedupe ∅ (templateDoses o globalStartUtc days w.1 w.2)).
Proof.
  intros Hrun.
  destruct (localMidnightUtcMs startDate (intValue (tz_offset_minutes o)))
    as [?|g] eqn:Eg.
  { unfold generateScheduledTimes in Hrun. rewrite Eg in Hrun. discriminate. }
  destruct (parseIsoInFixedOffset (start_datetime o) (intValue (tz_offset_minutes o)))
    as [?|s] eqn:Es.
  { unfold generateScheduledTimes in Hrun. rewrite Eg, Es in Hrun. discriminate. }
  assert (He : exists e, orderEndIs o e).
  { unfold orderEndIs. unfold generateScheduledTimes in Hrun. rewrite Eg, Es in Hrun.
    unfold bind at 1 2 in Hrun.
    destruct (end_datetime o) as [x|]; [|eexists; reflexivity].
    destruct (parseIsoInFixedOffset x _) as [?|t]; [discriminate|].
    exists (ofTime t), t. split; reflexivity. }
  destruct He as [e He]. exists g, s, e.
  rewrite (generateScheduledTimes_eq _ _ _ g s e Eg Es He) in Hrun.
  injection Hrun as <-. auto.
Qed.

Lemma validateOrder_frequency (o : Order) :
  validateOrder o = ret tt -> 1 <= intValue (frequency_per_day o) <= 6.
Proof.
  intros (_ & _ & _ & (n & -> & Hn) & _)%validateOrder_ok. exact Hn.
Qed.

Lemma num_le_min (t g : Z) (e : num) :
  num_le (Fin t) (Math_min (Fin g) e) = true -> t <= g.
Proof.
  destruct e as [|y|]; cbn [Math_min num_le]; try discriminate.
  - intros Hle%Z.leb_le. lia.
  - intros Hle%Z.leb_le. exact Hle.
Qed.

(** The offsets of a day's doses grow with the dose and stay within the day. *)
Lemma minutesFromCycleStart_range (n i : Z) :
  1 <= n <= 6 -> 0 <= i < n ->
  0 <= minutesFromCycleStart n i < 1440.
Proof.
  intros Hn Hi. rewrite (minutesFromCycleStart_exact n i Hn).
  assert (Hcases : n = 1 \/ n = 2 \/ n = 3 \/ n = 4 \/ n = 5 \/ n = 6) by lia.
  destruct Hcases as [->|[->|[->|[->|[->| ->]]]]];
    [change (1440 / 1) with 1440 | change (1440 / 2) with 720
    | change (1440 / 3) with 480 | change (1440 / 4) with 360
    | change (1440 / 5) with 288 | change (1440 / 6) with 240]; lia.
Qed.

Lemma minutesFromCycleStart_increasing (n i j : Z) :
  1 <= n <= 6 -> i < j ->
  minutesFromCycleStart n i < minutesFromCycleStart n j.
Proof.
  intros Hn Hij. rewrite !(minutesFromCycleStart_exact n _ Hn).
  assert (Hpos : 0 < 1440 / n) by (Z.to_euclidean_division_equations; nia).
  nia.
Qed.

Lemma templateInstant_increasing (anchor n c1 i1 c2 i2 : Z) :
  1 <= n <= 6 -> 0 <= i1 < n -> 0 <= i2 < n ->
  c1 < c2 \/ (c1 = c2 /\ i1 < i2) ->
  templateInstant anchor n c1 i1 < templateInstant anchor n c2 i2.
Proof.
  intros Hn Hi1 Hi2 Hlt. unfold templateInstant, START_HOUR, MS_PER_DAY, MS_PER_MIN.
  pose proof (minutesFromCycleStart_range n i1 Hn Hi1).
  pose proof (minutesFromCycleStart_range n i2 Hn Hi2).
  destruct Hlt as [Hc|[-> Hi]]; [lia|].
  pose proof (minutesFromCycleStart_increasing n i1 i2 Hn Hi). lia.
Qed.

Lemma StronglySorted_app {A} (R : A -> A -> Prop) l1 l2 :
  StronglySorted R l1 -> StronglySorted R l2 ->
  (forall a b, In a l1 -> In b l2 -> R a b) ->
  StronglySorted R (l1 ++ l2).
Proof.
  induction 1 as [|x l1 Hl1 IH Hx]; intros Hl2 Hcross; cbn [app]; [exact Hl2|].
  constructor.
  - apply IH; [exact Hl2|]. intros a b Ha Hb. apply Hcross; [right|]; assumption.
  - apply Forall_app. split; [exact Hx|]. apply List.Forall_forall.
    intros b Hb. apply Hcross; [left; reflexivity | exact Hb].
Qed.

Lemma StronglySorted_flat_map {A B} (lt : A -> A -> Prop) (R : B -> B -> Prop)
    (f : A -> list B) (l : list A) :
  StronglySorted lt l ->
  (forall x, In x l -> StronglySorted R (f x)) ->
  (forall x y a b, In x l -> In y l -> lt x y -> In a (f x) -> In b (f y) -> R a b) ->
  StronglySorted R (flat_map f l).
Proof.
  induction 1 as [|x l Hl IH Hx]; intros Hin Hcross; cbn [flat_map]; [constructor|].
  apply StronglySorted_app.
  - apply Hin. left. reflexivity.
  - apply IH.
    + intros y Hy. apply Hin. right. exact Hy.
    + intros y z a b Hy Hz. apply Hcross; right; assumption.
  - intros a b Ha Hb. apply in_flat_map in Hb as (y & Hy & Hb).
    rewrite List.Forall_forall in Hx.
    apply (Hcross x y a b); [left; reflexivity | right; exact Hy | apply Hx, Hy
                            | exact Ha | exact Hb].
Qed.

Lemma seqZ_sorted (m n : Z) : StronglySorted Z.lt (seqZ m n).
Proof.
  destruct (Z.le_gt_cases n 0) as [Hn|Hn]; [rewrite seqZ_nil by lia; constructor|].
  rewrite <- (Z2Nat.id n) by lia. generalize (Z.to_nat n) as k. clear Hn. intros k.
  revert m. induction k as [|k IH]; intros m.
  - rewrite seqZ_nil by lia. constructor.
  - rewrite seqZ_cons by lia. replace (Z.pred (Z.of_nat (S k))) with (Z.of_nat k) by lia.
    constructor; [apply IH|]. apply List.Forall_forall. intros x Hx%In_seqZ. lia.
Qed.

(** *** Where the sums are exact *)

Lemma candidateInstant_exact (anchor n cycle i : Z) :
  Z.abs anchor <= 9000000000000000 ->
  1 <= n <= 6 -> 0 <= cycle <= 31 -> 0 <= i < n ->
  candidateInstant anchor n cycle i = templateInstant anchor n cycle i.
Proof.
  intros Ha Hn Hc Hi. pose proof (minutesFromCycleStart_range n i Hn Hi) as Hm.
  unfold candidateInstant, templateInstant, mulDouble.
  unfold START_HOUR, MS_PER_DAY, MS_PER_MIN in *.
  rewrite (double_exact (cycle * 86400000)) by lia.
  rewrite (double_exact (minutesFromCycleStart n i * 60000)) by lia.
  rewrite (double_exact (anchor + 8 * 60 * 60000)) by lia.
  rewrite (double_exact (anchor + 8 * 60 * 60000 + cycle * 86400000)) by lia.
  apply double_exact. lia.
Qed.

Lemma effectiveWindow_exact (anchor days : Z) (orderStartUtc : option Z)
    (orderEndUtc : num) :
  Z.abs anchor <= 9000000000000000 -> 0 <= days <= 30 ->
  effectiveWindow (Some anchor) days orderStartUtc orderEndUtc
  = (Math_max (Fin anchor) (ofTime orderStartUtc),
     Math_min (Fin (anchor + days * MS_PER_DAY)) orderEndUtc).
Proof.
  intros Ha Hd. unfold effectiveWindow, mulDouble. cbn [addTime ofTime].
  unfold MS_PER_DAY in *.
  rewrite (double_exact (days * 86400000)) by lia.
  rewrite (double_exact (anchor + days * 86400000)) by lia. reflexivity.
Qed.

(** The candidates of the loops, for an exact anchor. *)
Lemma templateDoses_In_exact o globalStartUtc days effectiveStart effectiveEnd d :
  exactAnchor globalStartUtc -> 0 <= days <= 30 ->
  1 <= intValue (frequency_per_day o) <= 6 ->
  In d (templateDoses o globalStartUtc days effectiveStart effectiveEnd) <->
  exists anchor cycle i,
    globalStartUtc = Some anchor /\ 0 <= cycle <= days
    /\ 0 <= i < intValue (frequency_per_day o)
    /\ d = doseAt o (templateInstant anchor (intValue (frequency_per_day o)) cycle i)
    /\ num_le effectiveStart (Fin (utcMs d)) = true
    /\ num_le (Fin (utcMs d)) effectiveEnd = true.
Proof.
  intros Ha Hd Hn. rewrite templateDoses_In. split.
  - intros (anchor & cycle & i & Hg & Hc & Hi & Hshape & Hw).
    exists anchor, cycle, i. rewrite <- (candidateInstant_exact anchor _ cycle i);
      [auto | apply Ha, Hg | exact Hn | lia | exact Hi].
  - intros (anchor & cycle & i & Hg & Hc & Hi & Hshape & Hw).
    exists anchor, cycle, i. rewrite (candidateInstant_exact anchor _ cycle i);
      [auto | apply Ha, Hg | exact Hn | lia | exact Hi].
Qed.

(** The loops visit the template instants in increasing order. *)
Lemma templateDoses_sorted o globalStartUtc days effectiveStart effectiveEnd :
  exactAnchor globalStartUtc -> 0 <= days <= 30 ->
  1 <= intValue (frequency_per_day o) <= 6 ->
  StronglySorted earlier
    (templateDoses o globalStartUtc days effectiveStart effectiveEnd).
Proof.
  intros Ha Hd Hn.
  set (n := intValue (frequency_per_day o)) in *.
  set (cell := fun (c i : Z) =>
         match addTime (addTime (addTime globalStartUtc (START_HOUR * 60 * MS_PER_MIN))
                                (mulDouble c MS_PER_DAY))
                       (mulDouble (minutesFromCycleStart n i) MS_PER_MIN) with
         | Some tUtc =>
             if num_le effectiveStart (Fin tUtc) && num_le (Fin tUtc) effectiveEnd
             then [doseAt o tUtc] else []
         | None => []
         end).
  change (templateDoses o globalStartUtc days effectiveStart effectiveEnd)
    with (flat_map (fun c => flat_map (cell c) (seqZ 0 n)) (seqZ 0 (days + 1))).
  assert (Hcell : forall c i a, 0 <= c <= days -> 0 <= i < n -> In a (cell c i) ->
            exists anchor, globalStartUtc = Some anchor
                           /\ utcMs a = templateInstant anchor n c i).
  { intros c i a Hc Hi. unfold cell.
    destruct globalStartUtc as [anchor|]; cbn [addTime]; [|intros []].
    change (double (double (double (anchor + START_HOUR * 60 * MS_PER_MIN)
                            + mulDouble c MS_PER_DAY)
                    + mulDouble (minutesFromCycleStart n i) MS_PER_MIN))
      with (candidateInstant anchor n c i).
    rewrite (candidateInstant_exact anchor n c i) by (auto; lia).
    destruct (_ && _); [|intros []]. intros [<-|[]]. exists anchor. auto. }
  assert (Hone : forall c i, StronglySorted earlier (cell c i)).
  { intros c i. unfold cell. destruct globalStartUtc; cbn [addTime]; [|constructor].
    destruct (_ && _); repeat constructor. }
  apply (StronglySorted_flat_map Z.lt); [apply seqZ_sorted| |].
  - intros c Hc%In_seqZ. apply (StronglySorted_flat_map Z.lt); [apply seqZ_sorted| |].
    + intros i _. apply Hone.
    + intros i j a b Hi%In_seqZ Hj%In_seqZ Hij Ha' Hb'.
      destruct (Hcell c i a ltac:(lia) ltac:(lia) Ha') as (anchor & Hg & Hta).
      destruct (Hcell c j b ltac:(lia) ltac:(lia) Hb') as (anchor' & Hg' & Htb).
      assert (anchor' = anchor) by congruence. subst anchor'.
      unfold earlier. rewrite Hta, Htb.
      apply templateInstant_increasing; [exact Hn|lia|lia|].
      right. split; [reflexivity | exact Hij].
  - intros c1 c2 a b Hc1%In_seqZ Hc2%In_seqZ Hc (i & Hi%In_seqZ & Ha')%in_flat_map
      (j & Hj%In_seqZ & Hb')%in_flat_map.
    destruct (Hcell c1 i a ltac:(lia) ltac:(lia) Ha') as (anchor & Hg & Hta).
    destruct (Hcell c2 j b ltac:(lia) ltac:(lia) Hb') as (anchor' & Hg' & Htb).
    assert (anchor' = anchor) by congruence. subst anchor'.
    unfold earlier. rewrite Hta, Htb.
    apply templateInstant_increasing; [exact Hn|lia|lia|].
    left. exact Hc.
Qed.

Lemma templateDoses_empty_window o globalStartUtc days effectiveStart effectiveEnd :
  num_gt effectiveStart effectiveEnd = true ->
  templateDoses o globalStartUtc days effectiveStart effectiveEnd = [].
Proof.
  intros Hgt.
  destruct (templateDoses o globalStartUtc days effectiveStart effectiveEnd)
    as [|d l] eqn:E; [reflexivity|].
  assert (Hd : In d (templateDoses o globalStartUtc days effectiveStart effectiveEnd))
    by (rewrite E; left; reflexivity).
  apply templateDoses_In in Hd as (? & ? & ? & _ & _ & _ & _ & Hlo & Hhi).
  rewrite (num_window_nonempty _ _ _ Hlo Hhi) in Hgt. discriminate.
Qed.

(** Among candidates of one order in increasing order, the duplicate filter
    has nothing to remove. *)
Lemma dedupe_sorted o seen out :
  StronglySorted earlier out ->
  (forall d, In d out -> d = doseAt o (utcMs d)) ->
  (forall d, In d out -> seenKey d ∉ seen) ->
  dedupe seen out = out.
Proof.
  intros Hs. revert seen. induction Hs as [|d out _ IH Hd]; intros seen Hshape Hseen;
    cbn [dedupe]; [reflexivity|].
  destruct (decide (seenKey d ∈ seen)) as [Hin|_].
  { exfalso. apply (Hseen d); [left; reflexivity | exact Hin]. }
  f_equal. apply IH.
  - intros x Hx. apply Hshape. right. exact Hx.
  - intros x Hx [Hk|Hk]%elem_of_union; [|apply (Hseen x); [right; exact Hx | exact Hk]].
    apply elem_of_singleton in Hk.
    rewrite (Hshape x (or_intror Hx)), (Hshape d (or_introl eq_refl)) in Hk.
    apply seenKey_doseAt_inj in Hk. rewrite List.Forall_forall in Hd.
    specialize (Hd x Hx). unfold earlier in Hd. lia.
Qed.

(** The anchor of a start date [YYYY-MM-DD] at an exact offset is exact. *)
Lemma localMidnightUtcMs_exactAnchor (startDate : string) (offsetMinutes : Z)
    (globalStartUtc : option Z) :
  dateOnlyForm startDate -> exactOffset offsetMinutes ->
  localMidnightUtcMs startDate offsetMinutes = inr globalStartUtc ->
  exists midnight,
    globalStartUtc = Some (midnight - offsetMinutes * MS_PER_MIN)
    /\ -69120000000000 <= midnight <= 259200000000000
    /\ exactAnchor globalStartUtc.
Proof.
  intros (y & m & d & Hy & Hm & Hd & Hs) Ho Hg.
  destruct (localMidnightUtcMs_value startDate y m d offsetMinutes Hy Hm Hd Hs Ho)
    as [Hv Hmid].
  rewrite Hv in Hg. injection Hg as <-. eexists. split; [reflexivity|].
  split; [exact Hmid|]. intros anchor [= <-].
  destruct (exactOffset_ms _ Ho) as [_ Hb]. lia.
Qed.

(** The generator, once its three timestamps are read, for a validated order. *)
Lemma generateScheduledTimes_template `{Runtime} startDate days o
    (globalStartUtc orderStartUtc : option Z) (orderEndUtc : num) :
  validateOrder o = ret tt ->
  0 <= days <= 30 ->
  exactAnchor globalStartUtc ->
  localMidnightUtcMs startDate (intValue (tz_offset_minutes o)) = inr globalStartUtc ->
  parseIsoInFixedOffset (start_datetime o) (intValue (tz_offset_minutes o))
    = inr orderStartUtc ->
  orderEndIs o orderEndUtc ->
  let w := effectiveWindow globalStartUtc days orderStartUtc orderEndUtc in
  generateScheduledTimes startDate days o
  = inr (templateDoses o globalStartUtc days w.1 w.2).
Proof.
  intros Hv Hd Ha Hg Hs He w. pose proof (validateOrder_frequency o Hv) as Hn.
  pose proof (templateDoses_sorted o globalStartUtc days w.1 w.2 Ha Hd Hn) as Hsorted.
  rewrite (generateScheduledTimes_eq _ _ _ _ _ _ Hg Hs He). fold w. cbv zeta.
  unfold ret. f_equal. destruct (num_gt w.1 w.2) eqn:Egt.
  - symmetry. apply templateDoses_empty_window, Egt.
  - apply (dedupe_sorted o); [exact Hsorted| |].
    + intros d (? & ? & ? & _ & _ & _ & -> & _)%templateDoses_In. reflexivity.
    + intros d _. apply not_elem_of_empty.
Qed.

(** X8 (generateScheduledTimes): for a validated order, a horizon of at
    most 30 days from a start date [YYYY-MM-DD] and an offset of at most 10^11
    minutes, the candidates are what the two loops push, in the order they
    push it, and that order is strictly increasing in time.  Neither the early
    return on an empty window nor the filter of duplicates changes the
    result: no instant is pushed twice. *)
Theorem generateScheduledTimes_in_time_order `{Runtime} (startDate : string)
    (days : Z) (o : Order) (globalStartUtc orderStartUtc : option Z)
    (orderEndUtc : num) :
  validateOrder o = ret tt ->
  0 <= days <= 30 ->
  dateOnlyForm startDate ->
  exactOffset (intValue (tz_offset_minutes o)) ->
  localMidnightUtcMs startDate (intValue (tz_offset_minutes o)) = inr globalStartUtc ->
  parseIsoInFixedOffset (start_datetime o) (intValue (tz_offset_minutes o))
    = inr orderStartUtc ->
  orderEndIs o orderEndUtc ->
  let w := effectiveWindow globalStartUtc days orderStartUtc orderEndUtc in
  generateScheduledTimes startDate days o
  = inr (templateDoses o globalStartUtc days w.1 w.2)
  /\ StronglySorted earlier (templateDoses o globalStartUtc days w.1 w.2).
Proof.
  intros Hv Hd Hdate Ho Hg Hs He w.
  destruct (localMidnightUtcMs_exactAnchor _ _ _ Hdate Ho Hg) as (_ & _ & _ & Ha).
  split.
  - apply generateScheduledTimes_template; assumption.
  - apply templateDoses_sorted; [exact Ha | exact Hd|].
    apply validateOrder_frequency, Hv.
Qed.

Lemma generateScheduledTimes_in_time_order_witness :
  let w := effectiveWindow (Some 1768435200000) 2 (Some 1768435200000) PosInf in
  generateScheduledTimes (H := exampleRuntime) "2026-01-15" 2 orderThrice
  = inr (templateDoses orderThrice (Some 1768435200000) 2 w.1 w.2)
  /\ StronglySorted earlier (templateDoses orderThrice (Some 1768435200000) 2 w.1 w.2).
Proof.
  apply (generateScheduledTimes_in_time_order (H := exampleRuntime) "2026-01-15" 2
           orderThrice (Some 1768435200000) (Some 1768435200000) PosInf).
  - reflexivity.
  - lia.
  - exact dateOnlyForm_2026_01_15.
  - unfold exactOffset. vm_compute. discriminate.
  - exact midnight_2026_01_15.
  - exact naive_2026_01_15.
  - reflexivity.
Defined.

Lemma earlier_NoDup l : StronglySorted earlier l -> List.NoDup (map utcMs l).
Proof.
  induction 1 as [|d l _ IH Hd]; cbn [map]; constructor; [|exact IH].
  intros (x & Hx & Hin)%in_map_iff. rewrite List.Forall_forall in Hd.
  specialize (Hd x Hin). unfold earlier in Hd. lia.
Qed.

(** The candidates of a validated order lie in the first [days] cycles. *)
Lemma generateScheduledTimes_within_horizon `{Runtime} (startDate : string) (days : Z)
    (o : Order) (doses : list ScheduledDose) :
  validateOrder o = ret tt ->
  0 <= days <= 30 ->
  dateOnlyForm startDate ->
  exactOffset (intValue (tz_offset_minutes o)) ->
  generateScheduledTimes startDate days o = inr doses ->
  let n := intValue (frequency_per_day o) in
  (forall d, In d doses ->
     exists anchor cycle i,
       localMidnightUtcMs startDate (intValue (tz_offset_minutes o)) = inr (Some anchor)
       /\ 0 <= cycle < days /\ 0 <= i < n
       /\ utcMs d = templateInstant anchor n cycle i
       /\ anchor + START_HOUR * 60 * MS_PER_MIN <= utcMs d <= anchor + days * MS_PER_DAY)
  /\ (length doses <= Z.to_nat (days * n))%nat.
Proof.
  intros Hv Hdays Hdate Ho Hrun n.
  pose proof (validateOrder_frequency o Hv) as Hn. fold n in Hn.
  destruct (generateScheduledTimes_inv _ _ _ _ Hrun) as (g & s & e & Hg & Hs & He & _).
  destruct (localMidnightUtcMs_exactAnchor _ _ _ Hdate Ho Hg)
    as (midnight & Hgv & _ & Ha).
  rewrite (generateScheduledTimes_template _ _ _ g s e Hv Hdays Ha Hg Hs He) in Hrun.
  cbv zeta in Hrun. injection Hrun as Hdoses.
  assert (Hin : forall d, In d doses ->
            exists anchor cycle i,
              g = Some anchor /\ 0 <= cycle < days /\ 0 <= i < n
              /\ utcMs d = templateInstant anchor n cycle i
              /\ anchor + START_HOUR * 60 * MS_PER_MIN <= utcMs d
                 <= anchor + days * MS_PER_DAY).
  { intros d Hd. rewrite <- Hdoses in Hd.
    apply templateDoses_In_exact in Hd
      as (anchor & cycle & i & Hga & Hc & Hi & Hshape & _ & Hhi);
      [|exact Ha | exact Hdays | exact Hn].
    rewrite Hshape in Hhi |- *. clear Hshape.
    fold n in Hi, Hhi |- *. cbn [utcMs doseAt] in Hhi |- *.
    rewrite Hga in Hhi.
    pose proof (effectiveWindow_exact anchor days s e (Ha anchor Hga) Hdays) as Hw.
    apply (f_equal snd) in Hw. unfold effectiveWindow in Hw. cbn [snd] in Hw.
    rewrite Hw in Hhi. apply num_le_min in Hhi.
    pose proof (minutesFromCycleStart_range n i Hn Hi) as Hm.
    exists anchor, cycle, i. split; [exact Hga|].
    unfold templateInstant, START_HOUR, MS_PER_DAY, MS_PER_MIN in Hhi |- *.
    repeat split; try lia; nia. }
  assert (Hnd : List.NoDup (map utcMs doses)).
  { rewrite <- Hdoses. apply earlier_NoDup, templateDoses_sorted; assumption. }
  clear Hdoses. split.
  - intros d Hd. destruct (Hin d Hd) as (anchor & cycle & i & -> & Hrest).
    exists anchor, cycle, i. split; [exact Hg | exact Hrest].
  - destruct g as [anchor|]; [|discriminate Hgv].
    rewrite <- (length_map utcMs).
    etransitivity; [apply (NoDup_incl_length Hnd
                      (l' := flat_map (fun c => map (templateInstant anchor n c) (seqZ 0 n))
                                      (seqZ 0 days)))|].
    + intros t (d & <- & Hd)%in_map_iff.
      destruct (Hin d Hd) as (a & cycle & i & [= <-] & Hc & Hi & -> & _).
      apply in_flat_map. exists cycle. split; [apply In_seqZ; lia|].
      apply in_map, In_seqZ. lia.
    + rewrite (flat_map_constant_length (c := Z.to_nat n)).
      * rewrite length_seqZ, Z2Nat.inj_mul by lia. reflexivity.
      * intros c _. rewrite length_map, length_seqZ. reflexivity.
Qed.

(** X9 (generateScheduledTimes): the loop runs one cycle more than the
    horizon has days, and that last cycle never gives a candidate.  For a
    validated order, a horizon of at most 30 days from a start date
    [YYYY-MM-DD] and an offset of at most 10^11 minutes, every candidate is a
    dose of one of the first [days] cycles, no earlier than 08:00 local time
    of the start date and no later than the end of the horizon; so an order
    has at most [days] times its frequency candidates. *)
Theorem generateScheduledTimes_cycles `{Runtime} (startDate : string) (days : Z)
    (o : Order) (doses : list ScheduledDose) :
  validateOrder o = ret tt ->
  0 <= days <= 30 ->
  dateOnlyForm startDate ->
  exactOffset (intValue (tz_offset_minutes o)) ->
  generateScheduledTimes startDate days o = inr doses ->
  let n := intValue (frequency_per_day o) in
  (forall d, In d doses ->
     exists anchor cycle i,
       localMidnightUtcMs startDate (intValue (tz_offset_minutes o)) = inr (Some anchor)
       /\ 0 <= cycle < days /\ 0 <= i < n
       /\ utcMs d = templateInstant anchor n cycle i
       /\ anchor + START_HOUR * 60 * MS_PER_MIN <= utcMs d <= anchor + days * MS_PER_DAY)
  /\ (length doses <= Z.to_nat (days * n))%nat.
Proof. apply generateScheduledTimes_within_horizon. Qed.

Lemma generateScheduledTimes_cycles_witness :
  exists doses,
    generateScheduledTimes (H := exampleRuntime) "2026-01-15" 2 orderThrice = inr doses
    /\ (forall d, In d doses ->
          1768435200000 + 28800000 <= utcMs d <= 1768435200000 + 2 * 86400000)
    /\ (length doses <= 6)%nat.
Proof.
  destruct (generateScheduledTimes (H := exampleRuntime) "2026-01-15" 2 orderThrice)
    as [e|doses] eqn:Erun; [vm_compute in Erun; discriminate|].
  exists doses. split; [reflexivity|].
  destruct (generateScheduledTimes_cycles (H := exampleRuntime) "2026-01-15" 2
              orderThrice doses) as [Hin Hlen];
    [reflexivity | lia | exact dateOnlyForm_2026_01_15
    | unfold exactOffset; vm_compute; discriminate | exact Erun |].
  split; [|exact Hlen].
  intros d Hd. destruct (Hin d Hd) as (anchor & cycle & i & Hg & _ & _ & _ & Hrange).
  change (intValue (tz_offset_minutes orderThrice)) with 0 in Hg.
  rewrite midnight_2026_01_15 in Hg. injection Hg as <-. exact Hrange.
Defined.

(** *** The candidates of an order *)

Lemma minutesFromCycleStart_roundDiv (n i : Z) :
  1 <= n <= 6 -> minutesFromCycleStart n i = roundDiv (i * 1440) n.
Proof.
  intros Hn. rewrite (minutesFromCycleStart_exact n i Hn). unfold roundDiv.
  assert (Hc : n = 1 \/ n = 2 \/ n = 3 \/ n = 4 \/ n = 5 \/ n = 6) by lia.
  destruct Hc as [->|[->|[->|[->|[->| ->]]]]];
    [change (1440 / 1) with 1440 | change (1440 / 2) with 720
    | change (1440 / 3) with 480 | change (1440 / 4) with 360
    | change (1440 / 5) with 288 | change (1440 / 6) with 240];
    Z.to_euclidean_division_equations; lia.
Qed.

(** The end of the active window, as the generator holds it. *)
Lemma activeWindow_orderEndIs `{Runtime} (o : Order) (start : Z) (stop : option Z) :
  activeWindow o start stop ->
  orderEndIs o (match stop with Some e => Fin e | None => PosInf end).
Proof.
  intros [_ He]. unfold orderEndIs. destruct (end_datetime o) as [text|].
  - destruct He as (e & He & ->). exists (Some e). split; [exact He | reflexivity].
  - rewrite He. reflexivity.
Qed.

(** The generator's window tests, in integers. *)
Lemma effectiveWindow_tests (anchor days start : Z) (stop : option Z) (t : Z) :
  Z.abs anchor <= 9000000000000000 -> 0 <= days <= 30 ->
  let w := effectiveWindow (Some anchor) days (Some start)
             (match stop with Some e => Fin e | None => PosInf end) in
  (num_le w.1 (Fin t) = true /\ num_le (Fin t) w.2 = true
   <-> effectiveStartOf anchor start <= t <= effectiveEndOf anchor days stop)
  /\ (num_gt w.1 w.2 = true
      <-> effectiveEndOf anchor days stop < effectiveStartOf anchor start).
Proof.
  intros Ha Hd w. unfold w. rewrite effectiveWindow_exact by assumption.
  unfold effectiveStartOf, effectiveEndOf, MS_PER_DAY. cbn [fst snd ofTime Math_max].
  destruct stop as [e|]; cbn [Math_min num_le num_gt];
    rewrite ?andb_true_iff, ?Z.leb_le, ?Z.ltb_lt; split; lia.
Qed.

(** C3, as the code has it: for a validated order whose offset is at most
    10^11 minutes and whose timestamps are read, and a horizon of 1 to 30
    days from a start date [YYYY-MM-DD], the generator returns candidates of
    that order whose instants are exactly the instants
    anchor + 8 h + cycle * 24 h + round(i * 1440 / n) min, for the cycles 0 to
    [days] and the doses 0 to n - 1, that lie in the effective window, both
    ends included; the anchor is the local midnight of the start date and the
    effective window is the horizon met with the order's active window.  No
    instant occurs twice, and an empty effective window gives no candidate. *)
Theorem generateScheduledTimes_instants `{Runtime} (startDate : string) (days : Z)
    (o : Order) (start : Z) (stop : option Z) :
  validateOrder o = ret tt ->
  1 <= days <= 30 ->
  dateOnlyForm startDate ->
  exactOffset (intValue (tz_offset_minutes o)) ->
  activeWindow o start stop ->
  let n := intValue (frequency_per_day o) in
  exists anchor doses,
    localMidnightUtcMs startDate (intValue (tz_offset_minutes o)) = inr (Some anchor)
    /\ generateScheduledTimes startDate days o = inr doses
    /\ (forall t, In t (map utcMs doses) <->
          exists cycle i,
            0 <= cycle <= days /\ 0 <= i < n
            /\ t = anchor + 8 * 3600000 + cycle * 86400000
                   + roundDiv (i * 1440) n * 60000
            /\ effectiveStartOf anchor start <= t <= effectiveEndOf anchor days stop)
    /\ List.NoDup (map utcMs doses)
    /\ Forall (fun d => d = doseAt o (utcMs d)) doses
    /\ (effectiveEndOf anchor days stop < effectiveStartOf anchor start -> doses = []).
Proof.
  intros Hv Hdays Hdate Ho Hwin n.
  pose proof (validateOrder_frequency o Hv) as Hn. fold n in Hn.
  assert (Hd30 : 0 <= days <= 30) by lia.
  destruct (localMidnightUtcMs startDate (intValue (tz_offset_minutes o)))
    as [err|g] eqn:Hg.
  { destruct Hdate as (y & m & d & Hy & Hm & Hd & Hs).
    destruct (localMidnightUtcMs_value startDate y m d _ Hy Hm Hd Hs Ho) as [Hval _].
    congruence. }
  destruct (localMidnightUtcMs_exactAnchor _ _ _ Hdate Ho Hg) as (midnight & Hgv & _ & Ha).
  set (anchor := midnight - intValue (tz_offset_minutes o) * MS_PER_MIN) in *.
  subst g. pose proof (Ha anchor eq_refl) as Hanchor.
  pose proof (activeWindow_orderEndIs o start stop Hwin) as He.
  destruct Hwin as [Hs _].
  set (orderEndUtc := match stop with Some e => Fin e | None => PosInf end) in *.
  pose proof (generateScheduledTimes_template startDate days o (Some anchor) (Some start)
                orderEndUtc Hv Hd30 Ha Hg Hs He) as Hrun.
  cbv zeta in Hrun.
  set (w := effectiveWindow (Some anchor) days (Some start) orderEndUtc) in *.
  set (doses := templateDoses o (Some anchor) days w.1 w.2) in *.
  assert (Hin : forall d, In d doses <->
            exists cycle i,
              0 <= cycle <= days /\ 0 <= i < n
              /\ d = doseAt o (anchor + 8 * 3600000 + cycle * 86400000
                               + roundDiv (i * 1440) n * 60000)
              /\ effectiveStartOf anchor start <= utcMs d
                 <= effectiveEndOf anchor days stop).
  { intros d. unfold doses. rewrite (templateDoses_In_exact o _ days _ _ d Ha Hd30 Hn).
    fold n. split.
    - intros (a & cycle & i & [= <-] & Hc & Hi & Hshape & Hlo & Hhi).
      exists cycle, i. split; [exact Hc|]. split; [exact Hi|].
      split.
      + rewrite Hshape. unfold templateInstant, START_HOUR, MS_PER_DAY, MS_PER_MIN.
        rewrite (minutesFromCycleStart_roundDiv n i Hn). f_equal.
      + apply (proj1 (effectiveWindow_tests anchor days start stop (utcMs d)
                        Hanchor Hd30)). auto.
    - intros (cycle & i & Hc & Hi & Hshape & Hrange).
      apply (proj1 (effectiveWindow_tests anchor days start stop (utcMs d)
                      Hanchor Hd30)) in Hrange as [Hlo Hhi].
      exists anchor, cycle, i. split; [reflexivity|]. split; [exact Hc|].
      split; [exact Hi|]. split; [|auto].
      rewrite Hshape. unfold templateInstant, START_HOUR, MS_PER_DAY, MS_PER_MIN.
      rewrite (minutesFromCycleStart_roundDiv n i Hn). f_equal. }
  exists anchor, doses. split; [reflexivity|]. split; [exact Hrun|].
  split; [|split; [|split]].
  - intros t. rewrite in_map_iff. split.
    + intros (d & <- & (cycle & i & Hc & Hi & Hshape & Hrange)%Hin).
      exists cycle, i. split; [exact Hc|]. split; [exact Hi|].
      split; [rewrite Hshape; reflexivity | exact Hrange].
    + intros (cycle & i & Hc & Hi & -> & Hrange).
      eexists. split; [|apply Hin; exists cycle, i; split; [exact Hc|];
                         split; [exact Hi|]; split; [reflexivity | exact Hrange]].
      reflexivity.
  - apply earlier_NoDup. unfold doses. apply templateDoses_sorted; assumption.
  - apply List.Forall_forall. intros d (cycle & i & _ & _ & -> & _)%Hin. reflexivity.
  - intros Hempty. destruct doses as [|d l] eqn:E; [reflexivity|].
    assert (Hd : In d (d :: l)) by (left; reflexivity).
    apply Hin in Hd as (_ & _ & _ & _ & _ & Hrange). lia.
Qed.

Lemma generateScheduledTimes_instants_witness :
  exists anchor doses,
    localMidnightUtcMs "2026-01-15" 330 = inr (Some anchor)
    /\ anchor = 1768415400000
    /\ generateScheduledTimes (H := exampleRuntime) "2026-01-15" 2 orderWindowed
       = inr doses
    /\ map utcMs doses = [1768473000000; 1768501800000; 1768530600000]
    /\ (forall t, In t (map utcMs doses) <->
          exists cycle i,
            0 <= cycle <= 2 /\ 0 <= i < 3
            /\ t = anchor + 8 * 3600000 + cycle * 86400000
                   + roundDiv (i * 1440) 3 * 60000
            /\ effectiveStartOf anchor 1768458600000 <= t
               <= effectiveEndOf anchor 2 (Some 1768545000000))
    /\ List.NoDup (map utcMs doses)
    /\ Forall (fun d => d = doseAt orderWindowed (utcMs d)) doses
    /\ (effectiveEndOf anchor 2 (Some 1768545000000)
        < effectiveStartOf anchor 1768458600000 -> doses = []).
Proof.
  destruct (generateScheduledTimes_instants (H := exampleRuntime) "2026-01-15" 2
              orderWindowed 1768458600000 (Some 1768545000000))
    as (anchor & doses & Hanchor & Hrun & Hset & Hnodup & Hshape & Hempty).
  - reflexivity.
  - lia.
  - exact dateOnlyForm_2026_01_15.
  - unfold exactOffset. vm_compute. discriminate.
  - split; [vm_compute; reflexivity|].
    exists 1768545000000. split; [vm_compute; reflexivity | reflexivity].
  - change (intValue (tz_offset_minutes orderWindowed)) with 330 in Hanchor.
    change (intValue (frequency_per_day orderWindowed)) with 3 in Hset.
    exists anchor, doses. split; [exact Hanchor|].
    split; [vm_compute in Hanchor; congruence|]. split; [exact Hrun|].
    split; [vm_compute in Hrun; injection Hrun as <-; reflexivity|].
    split; [exact Hset|]. split; [exact Hnodup|]. split; [exact Hshape | exact Hempty].
Defined.

(** C3 as stated fails for large offsets, which validation lets through:
    at 10^19 minutes the sums are rounded.  The dose of cycle 0, eight hours
    after the anchor, lies in the effective window and is no candidate;
    the candidates are the anchor itself and the end of the window. *)
Lemma huge_offset_leaves_the_template :
  let anchor := -599999999998231563993088 in
  validateOrder orderHuge = ret tt
  /\ localMidnightUtcMs "2026-01-15" (10 ^ 19) = inr (Some anchor)
  /\ activeWindow (H := exampleRuntime) orderHuge anchor None
  /\ generateScheduledTimes (H := exampleRuntime) "2026-01-15" 1 orderHuge
     = inr [doseAt orderHuge anchor; doseAt orderHuge (anchor + 67108864)]
  /\ anchor + 8 * 3600000 + 0 * 86400000 + roundDiv (0 * 1440) 1 * 60000
     = anchor + 28800000
  /\ effectiveStartOf anchor anchor = anchor
  /\ effectiveEndOf anchor 1 None = anchor + 86400000
  /\ existsb (Z.eqb (anchor + 28800000)) [anchor; anchor + 67108864] = false.
Proof. vm_compute. repeat split. Qed.




(** ** Conflict resolution, continued *)

Lemma bucketStep_ungrouped l byKey pass :
  Forall (fun d => hasGroup d = false) l ->
  fold_left bucketStep l (byKey, pass) = (byKey, pass ++ l).
Proof.
  intros Hl. revert pass. induction Hl as [|d l Hd _ IH]; intros pass; cbn [fold_left].
  - rewrite app_nil_r. reflexivity.
  - unfold bucketStep at 2. rewrite Hd. cbn [negb fst snd].
    rewrite IH, <- app_assoc. reflexivity.
Qed.

Lemma bucketDoses_passthrough doses :
  (bucketDoses doses).2 = List.filter ungrouped doses.
Proof.
  rewrite bucketDoses_eq.
  assert (Hgen : forall st, (fold_left bucketStep doses st).2
                            = st.2 ++ List.filter ungrouped doses).
  { induction doses as [|d doses IH]; intros st; cbn [fold_left List.filter].
    - rewrite app_nil_r. reflexivity.
    - rewrite IH. unfold bucketStep, ungrouped.
      destruct (hasGroup d); cbn [negb fst snd]; [reflexivity|].
      rewrite <- app_assoc. reflexivity. }
  apply (Hgen ([], [])).
Qed.

Lemma filter_all {A} (f : A -> bool) l :
  Forall (fun x => f x = true) l -> List.filter f l = l.
Proof.
  induction 1 as [|x l Hx _ IH]; cbn [List.filter]; [reflexivity|].
  rewrite Hx, IH. reflexivity.
Qed.

Lemma filter_none {A} (f : A -> bool) l :
  Forall (fun x => f x = false) l -> List.filter f l = [].
Proof.
  induction 1 as [|x l Hx _ IH]; cbn [List.filter]; [reflexivity|].
  rewrite Hx, IH. reflexivity.
Qed.

Lemma winners_all_grouped `{Runtime} doses :
  Forall (fun d => hasGroup d = true)
         (concat (map groupWinners (map snd (bucketDoses doses).1))).
Proof.
  pose proof (bucketDoses_invariant doses) as [_ Hgrouped _].
  apply List.Forall_forall. intros d Hd.
  apply (winners_grouped (bucketDoses doses).1 d); [|exact Hd].
  intros k arr x Hin Hx. destruct (Hgrouped k arr x Hin Hx) as (? & ? & _). auto.
Qed.

(** X11 (resolveOverlaps): candidates without a group name never meet the
    resolver.  They come first in the result, all of them, in their input
    order, whatever their times; the kept candidates of the groups follow.
    With no group name anywhere the result is the input. *)
Theorem resolveOverlaps_passthrough `{Runtime} (doses : list ScheduledDose) :
  resolveOverlaps doses
  = List.filter ungrouped doses ++ List.filter hasGroup (resolveOverlaps doses)
  /\ (Forall (fun d => hasGroup d = false) doses -> resolveOverlaps doses = doses).
Proof.
  assert (Hout : resolveOverlaps doses
                 = List.filter ungrouped doses
                   ++ concat (map groupWinners (map snd (bucketDoses doses).1))).
  { rewrite resolveOverlaps_eq, bucketDoses_passthrough. reflexivity. }
  assert (Hgrouped : List.filter hasGroup (resolveOverlaps doses)
                     = concat (map groupWinners (map snd (bucketDoses doses).1))).
  { rewrite Hout at 1. rewrite List.filter_app.
    rewrite (filter_all hasGroup _ (winners_all_grouped doses)).
    rewrite filter_none; [reflexivity|].
    apply List.Forall_forall. intros d [_ Hd]%filter_In.
    unfold ungrouped in Hd. destruct (hasGroup d); [discriminate | reflexivity]. }
  split; [rewrite Hgrouped; exact Hout|].
  intros Hnone. rewrite resolveOverlaps_eq.
  pose proof (bucketStep_ungrouped doses [] [] Hnone) as Hb.
  rewrite <- bucketDoses_eq in Hb. rewrite Hb. cbn. apply app_nil_r.
Qed.

Lemma resolveOverlaps_passthrough_witness :
  let a := doseAt orderA 1768464000000 in
  let b := doseAt (orderEmptyGroup "B") 1768464000000 in
  resolveOverlaps (H := exampleRuntime) [a; b; a] = [a; b; a].
Proof.
  intros a b.
  apply (proj2 (resolveOverlaps_passthrough (H := exampleRuntime) [a; b; a])).
  repeat constructor.
Defined.

Lemma byKeyPush_adds key d byKey :
  exists arr, In (key, arr) (byKeyPush key d byKey) /\ In d arr.
Proof.
  induction byKey as [|[k arr] byKey IH]; cbn [byKeyPush].
  - exists [d]. split; left; reflexivity.
  - destruct (String.eqb_spec k key) as [->|Hne].
    + exists (arr ++ [d]). split; [left; reflexivity|]. apply in_or_app. right. left.
      reflexivity.
    + destruct IH as (arr' & Hin & Hd). exists arr'. split; [right; exact Hin | exact Hd].
Qed.

Lemma byKeyPush_keeps key d byKey k arr x :
  In (k, arr) byKey -> In x arr ->
  exists arr', In (k, arr') (byKeyPush key d byKey) /\ In x arr'.
Proof.
  induction byKey as [|[k' arr'] byKey IH]; cbn [byKeyPush]; [intros []|].
  intros [[= -> ->]|Hin] Hx.
  - destruct (String.eqb_spec k key) as [->|Hne].
    + exists (arr ++ [d]). split; [left; reflexivity|]. apply in_or_app. left. exact Hx.
    + exists arr. split; [left; reflexivity | exact Hx].
  - destruct (String.eqb_spec k' key) as [->|Hne].
    + exists arr. split; [right; exact Hin | exact Hx].
    + destruct (IH Hin Hx) as (arr2 & Hin2 & Hx2).
      exists arr2. split; [right; exact Hin2 | exact Hx2].
Qed.

(** Every grouped candidate is in the array of its key. *)
Lemma bucketDoses_complete doses d :
  In d doses -> hasGroup d = true ->
  exists arr, In (groupKey d, arr) (bucketDoses doses).1 /\ In d arr.
Proof.
  intros Hd Hg. rewrite bucketDoses_eq.
  assert (Hgen : forall l st,
            In d l \/ (exists arr, In (groupKey d, arr) st.1 /\ In d arr) ->
            exists arr, In (groupKey d, arr) (fold_left bucketStep l st).1 /\ In d arr).
  { induction l as [|x l IH]; intros [byKey pass]; cbn [fold_left fst].
    - intros [Hf|Hst]; [destruct Hf | exact Hst].
    - intros Hcase. apply IH. unfold bucketStep. cbn [fst snd].
      destruct Hcase as [[->|Hin]|(arr & Hin & Hx)]; [|left; exact Hin|].
      + right. rewrite Hg. cbn [negb fst]. apply byKeyPush_adds.
      + right. destruct (hasGroup x); cbn [negb fst]; [|eauto].
        apply (byKeyPush_keeps _ _ _ _ arr); assumption. }
  apply (Hgen doses ([], [])). left. exact Hd.
Qed.

(** A member that sorts before every other member comes first. *)
Lemma sortBy_head {A} (cmp : A -> A -> Z) (d : A) (l : list A) :
  In d l ->
  (forall x, In x l -> cmp d x <= 0 /\ (cmp x d <= 0 -> x = d)) ->
  exists rest, sortBy cmp l = d :: rest.
Proof.
  induction l as [|x l IH]; [intros []|]. intros Hd Hfirst. cbn [sortBy fold_right].
  fold (sortBy cmp l).
  assert (Hrest : forall y, In y l -> cmp d y <= 0 /\ (cmp y d <= 0 -> y = d))
    by (intros y Hy; apply Hfirst; right; exact Hy).
  destruct (Z.leb_spec0 (cmp x d) 0) as [Hle|Hgt].
  - apply (proj2 (Hfirst x (or_introl eq_refl))) in Hle as ->.
    destruct (sortBy cmp l) as [|h t] eqn:Es; [exists []; reflexivity|].
    cbn [insertSorted].
    assert (Hh : In h l)
      by (apply (proj1 (sortBy_In cmp h l)); rewrite Es; left; reflexivity).
    destruct (Z.leb_spec0 (cmp d h) 0) as [_|Hn]; [eauto|].
    destruct (Hrest h Hh) as [? _]. contradiction.
  - destruct Hd as [->|Hd].
    + destruct (Hfirst d (or_introl eq_refl)) as [? _]. contradiction.
    + destruct (IH Hd Hrest) as [rest ->]. cbn [insertSorted].
      destruct (Z.leb_spec0 (cmp x d) 0) as [?|_]; [contradiction|]. eauto.
Qed.

Lemma comparePriority_sym `{Runtime} a b :
  Z.sgn (comparePriority b a) = - Z.sgn (comparePriority a b).
Proof.
  unfold comparePriority. rewrite (Z.eqb_sym (dosePriority b)).
  destruct (Z.eqb_spec (dosePriority a) (dosePriority b)) as [Hp|Hp]; cbn [negb]; [|lia].
  rewrite (String.eqb_sym (orderId b)).
  destruct (String.eqb (orderId a) (orderId b)); cbn [negb]; [lia|].
  apply localeCompare_sym.
Qed.

Lemma groupWinners_head `{Runtime} g d rest :
  sortBy comparePriority g = d :: rest -> In d (groupWinners g).
Proof.
  intros Hs. unfold groupWinners. rewrite Hs. cbn [fold_left].
  rewrite scanDose_eq, hasConflict_empty, scan_kept. cbn [snd app]. left. reflexivity.
Qed.

(** X12 (resolveOverlaps): a candidate with a group that sorts strictly
    before every other candidate under its key (a higher priority, or the
    same priority and an order identifier that collates earlier, or the same
    order and an earlier instant) is always kept: it is scanned first in its
    group, when nothing has been accepted yet.  The collation is to tell
    distinct order identifiers apart, which makes the comparator consistent. *)
Theorem first_of_group_is_kept `{Runtime} (doses : list ScheduledDose)
    (d : ScheduledDose) :
  collationSeparates doses ->
  In d doses ->
  hasGroup d = true ->
  (forall x, In x doses -> sameKey x d -> x = d \/ comparePriority d x < 0) ->
  In d (resolveOverlaps doses).
Proof.
  intros _ Hd Hg Hfirst. rewrite resolveOverlaps_eq. apply in_or_app. right.
  destruct (bucketDoses_complete doses d Hd Hg) as (arr & Hin & Harr).
  pose proof (bucketDoses_invariant doses) as [_ Hgrouped _].
  destruct (sortBy_head comparePriority d arr Harr) as [rest Hs].
  { intros x Hx. destruct (Hgrouped _ _ _ Hin Hx) as (Hgx & Hkx & Hxd).
    pose proof (comparePriority_sym d x) as Hsym.
    destruct (Hfirst x Hxd) as [->|Hlt]; [split; [exact Hgx | auto]| |].
    - split; [lia | reflexivity].
    - split; [lia|]. intros Hle. exfalso. lia. }
  apply in_concat. exists (groupWinners arr). split; [|apply (groupWinners_head _ _ _ Hs)].
  apply in_map, (in_map snd _ _ Hin).
Qed.

Lemma first_of_group_is_kept_witness :
  let a := doseAt (orderGrouped "A" 1) 1768464000000 in
  let b := doseAt (orderGrouped "B" 2) 1768464000000 in
  In b (resolveOverlaps (H := exampleRuntime) [a; b]).
Proof.
  intros a b.
  apply (first_of_group_is_kept (H := exampleRuntime) [a; b] b).
  - apply codeUnit_separates.
  - right. left. reflexivity.
  - reflexivity.
  - intros x [<-|[<-|[]]] _; [right; vm_compute; reflexivity | left; reflexivity].
Defined.






(** *** Resolving twice *)

Lemma scan_sorted (R : ScheduledDose -> ScheduledDose -> Prop) l keptByMinute :
  StronglySorted R l ->
  StronglySorted R (fold_left scanDose l (keptByMinute, [])).2.
Proof.
  intros Hs. revert keptByMinute.
  induction Hs as [|d l _ IH Hd]; intros keptByMinute; cbn [fold_left]; [constructor|].
  rewrite scanDose_eq. destruct (hasConflict keptByMinute d); [apply IH|].
  rewrite scan_kept. cbn [snd app]. constructor; [apply IH|].
  rewrite List.Forall_forall in Hd |- *. intros x Hx. apply Hd.
  apply (scan_incl _ _ _ Hx).
Qed.

Lemma sortBy_sorted_id {A} (cmp : A -> A -> Z) l :
  StronglySorted (fun a b => cmp a b <= 0) l -> sortBy cmp l = l.
Proof.
  induction 1 as [|x l _ IH Hx]; [reflexivity|]. cbn [sortBy fold_right].
  fold (sortBy cmp l). rewrite IH. destruct Hx as [|y t Hy _]; [reflexivity|].
  cbn [insertSorted]. destruct (Z.leb_spec0 (cmp x y) 0); [reflexivity | contradiction].
Qed.

(** A scan of candidates that are pairwise apart accepts them all. *)
Lemma scan_all l keptByMinute acc :
  scanInvariant keptByMinute acc ->
  ForallOrdPairs apart l ->
  (forall a b, In a acc -> In b l -> apart a b) ->
  (fold_left scanDose l (keptByMinute, acc)).2 = acc ++ l.
Proof.
  intros Hinv Hl. revert keptByMinute acc Hinv.
  induction Hl as [|d l Hd _ IH]; intros keptByMinute acc Hinv Hcross; cbn [fold_left].
  - rewrite app_nil_r. reflexivity.
  - pose proof (scanDose_invariant keptByMinute acc d Hinv) as Hinv'. cbv zeta in Hinv'.
    rewrite scanDose_eq in Hinv' |- *.
    destruct (hasConflict keptByMinute d) eqn:Ec.
    + apply (hasConflict_iff _ _ _ Hinv) in Ec as (other & Ho & Hnear).
      specialize (Hcross other d Ho (or_introl eq_refl)). apply apart_sym in Hcross.
      unfold apart in Hcross. lia.
    + cbn [fst snd] in Hinv'. rewrite (IH _ _ Hinv').
      * rewrite <- app_assoc. reflexivity.
      * rewrite List.Forall_forall in Hd.
        intros a b [Ha|[<-|[]]]%in_app_or Hb; [|apply Hd, Hb].
        apply Hcross; [exact Ha | right; exact Hb].
Qed.

Lemma groupWinners_fixed `{Runtime} doses g :
  collationSeparates doses -> incl g doses ->
  groupWinners (groupWinners g) = groupWinners g.
Proof.
  intros Hsep Hg. unfold groupWinners at 1.
  rewrite (sortBy_sorted_id comparePriority).
  - rewrite (scan_all _ ∅ [] scanInvariant_empty (groupWinners_apart g)); [reflexivity|].
    intros a b [].
  - apply scan_sorted, (group_sorted doses); assumption.
Qed.

Lemma byKeyPush_fresh key d byKey :
  ~ In key (map fst byKey) -> byKeyPush key d byKey = byKey ++ [(key, [d])].
Proof.
  induction byKey as [|[k arr] byKey IH]; cbn [byKeyPush map fst app]; [reflexivity|].
  intros Hk. destruct (String.eqb_spec k key) as [->|_]; [exfalso; apply Hk; left; reflexivity|].
  rewrite IH; [reflexivity|]. intros Hin. apply Hk. right. exact Hin.
Qed.

Lemma byKeyPush_last key d byKey arr :
  ~ In key (map fst byKey) ->
  byKeyPush key d (byKey ++ [(key, arr)]) = byKey ++ [(key, arr ++ [d])].
Proof.
  induction byKey as [|[k arr'] byKey IH]; cbn [byKeyPush map fst app].
  - rewrite String.eqb_refl. reflexivity.
  - intros Hk. destruct (String.eqb_spec k key) as [->|_];
      [exfalso; apply Hk; left; reflexivity|].
    rewrite IH; [reflexivity|]. intros Hin. apply Hk. right. exact Hin.
Qed.

Lemma bucketStep_grouped byKey pass d :
  hasGroup d = true ->
  bucketStep (byKey, pass) d = (byKeyPush (groupKey d) d byKey, pass).
Proof. intros Hg. unfold bucketStep. rewrite Hg. reflexivity. Qed.

Lemma bucketStep_block key l byKey arr pass :
  ~ In key (map fst byKey) ->
  Forall (fun d => hasGroup d = true /\ groupKey d = key) l ->
  fold_left bucketStep l (byKey ++ [(key, arr)], pass)
  = (byKey ++ [(key, arr ++ l)], pass).
Proof.
  intros Hk Hl. revert arr. induction Hl as [|d l [Hg Hd] _ IH]; intros arr; cbn [fold_left].
  - rewrite app_nil_r. reflexivity.
  - rewrite (bucketStep_grouped _ _ _ Hg), Hd.
    rewrite (byKeyPush_last _ _ _ _ Hk), IH, <- app_assoc. reflexivity.
Qed.

Lemma concat_nonEmptyEntries byKey :
  concat (map snd (nonEmptyEntries byKey)) = concat (map snd byKey).
Proof.
  induction byKey as [|[k [|d arr]] byKey IH]; cbn [nonEmptyEntries List.filter map snd concat app];
    [reflexivity | exact IH|].
  fold (nonEmptyEntries byKey). rewrite IH. reflexivity.
Qed.

(** Bucketing arrays laid end to end, each under its own key, gives the
    arrays back. *)
Lemma bucketStep_blocks (blocks : keyedDoses) byKey pass :
  List.NoDup (map fst byKey ++ map fst blocks) ->
  (forall k arr x, In (k, arr) blocks -> In x arr ->
     hasGroup x = true /\ groupKey x = k) ->
  fold_left bucketStep (concat (map snd blocks)) (byKey, pass)
  = (byKey ++ nonEmptyEntries blocks, pass).
Proof.
  revert byKey. induction blocks as [|[k arr] blocks IH]; intros byKey Hnd Hgrouped;
    cbn [map fst snd concat nonEmptyEntries List.filter].
  - rewrite app_nil_r. reflexivity.
  - fold (nonEmptyEntries blocks). rewrite fold_left_app.
    assert (Hk : ~ In k (map fst byKey)).
    { intros Hin. apply NoDup_remove_2 in Hnd. apply Hnd, in_or_app. left. exact Hin. }
    assert (Harr : Forall (fun d => hasGroup d = true /\ groupKey d = k) arr).
    { apply List.Forall_forall. intros x Hx. apply (Hgrouped k arr); [left; reflexivity | exact Hx]. }
    assert (Hrest : forall k' arr' x, In (k', arr') blocks -> In x arr' ->
              hasGroup x = true /\ groupKey x = k')
      by (intros k' arr' x Hin; apply Hgrouped; right; exact Hin).
    destruct arr as [|d arr]; cbn [fold_left].
    + rewrite IH; [reflexivity| |exact Hrest].
      apply NoDup_remove_1 in Hnd. exact Hnd.
    + inversion Harr as [|? ? [Hg Hd] Harr']; subst.
      rewrite (bucketStep_grouped _ _ _ Hg).
      rewrite (byKeyPush_fresh _ _ _ Hk), (bucketStep_block _ _ _ _ _ Hk Harr').
      cbn [app]. rewrite IH; [rewrite <- app_assoc; reflexivity| |exact Hrest].
      rewrite map_app. cbn [map fst]. rewrite <- app_assoc. cbn [app].
      apply NoDup_remove in Hnd as [Hnd Hnot].
      apply (Permutation_NoDup (l := groupKey d :: map fst byKey ++ map fst blocks)).
      * apply Permutation_middle.
      * constructor; assumption.
Qed.

(** X14 (resolveOverlaps): resolving is idempotent.  When the collation tells
    distinct order identifiers apart, the resolver returns its own output
    unchanged: the kept candidates are a fixed point, none is dropped and
    none is moved. *)
Theorem resolveOverlaps_idempotent `{Runtime} (doses : list ScheduledDose) :
  collationSeparates doses ->
  resolveOverlaps (resolveOverlaps doses) = resolveOverlaps doses.
Proof.
  intros Hsep.
  pose proof (bucketDoses_invariant doses) as [Hkeys Hgrouped Hpass].
  set (byKey := (bucketDoses doses).1) in *. set (pass := (bucketDoses doses).2) in *.
  set (blocks := map (fun entry : string * list ScheduledDose =>
                        (entry.1, groupWinners entry.2)) byKey).
  assert (Hout : resolveOverlaps doses = pass ++ concat (map snd blocks)).
  { rewrite resolveOverlaps_eq. fold byKey pass. unfold blocks.
    rewrite !map_map. reflexivity. }
  assert (Hblocks : forall k w x, In (k, w) blocks -> In x w ->
            hasGroup x = true /\ groupKey x = k).
  { intros k w x ([k' arr] & [= <- <-] & Hin)%in_map_iff Hx. cbn [fst snd] in Hx.
    apply groupWinners_incl in Hx.
    destruct (Hgrouped k' arr x Hin Hx) as (? & ? & _). auto. }
  assert (Hbucket : bucketDoses (resolveOverlaps doses) = (nonEmptyEntries blocks, pass)).
  { rewrite bucketDoses_eq, Hout, fold_left_app.
    assert (Hp : fold_left bucketStep pass ([], []) = ([], pass)).
    { apply (bucketStep_ungrouped pass [] []).
      apply List.Forall_forall. intros d Hd. apply (Hpass d Hd). }
    rewrite Hp. apply (bucketStep_blocks blocks [] pass); [|exact Hblocks].
    cbn [map app]. unfold blocks. rewrite map_map. cbn [fst]. exact Hkeys. }
  rewrite (resolveOverlaps_eq (resolveOverlaps doses)), Hbucket. cbn [fst snd].
  rewrite Hout at 1. f_equal. rewrite <- (concat_nonEmptyEntries blocks). f_equal.
  rewrite map_map. apply map_ext_in.
  intros [k w] [([k' arr] & [= <- <-] & Hin)%in_map_iff _]%filter_In. cbn [fst snd].
  apply (groupWinners_fixed doses); [exact Hsep|].
  intros x Hx. apply (Hgrouped k' arr x Hin Hx).
Qed.

Lemma resolveOverlaps_idempotent_witness :
  let a := doseAt (orderGrouped "A" 1) 1768464000000 in
  let b := doseAt (orderGrouped "B" 2) 1768464000000 in
  resolveOverlaps (H := exampleRuntime) (resolveOverlaps (H := exampleRuntime) [a; b; a])
  = resolveOverlaps (H := exampleRuntime) [a; b; a].
Proof.
  intros a b. apply (resolveOverlaps_idempotent (H := exampleRuntime) [a; b; a]).
  apply codeUnit_separates.
Defined.

(** ** Timestamps, continued *)

(** X15 (parseIsoInFixedOffset, isIsoWithTz): the declared offset is used
    for naive timestamps only.  A string that is not a naive timestamp is
    read, or refused, in the same way under every declared offset: a
    zone-qualified string is the instant its own zone gives. *)
Theorem declared_offset_only_for_naive `{Runtime} (iso : string) (offset1 offset2 : Z) :
  ~ naiveForm iso ->
  parseIsoInFixedOffset iso offset1 = parseIsoInFixedOffset iso offset2.
Proof.
  intros Hn. unfold parseIsoInFixedOffset. destruct (isIsoWithTz iso); [reflexivity|].
  destruct (matchNaive iso) as [g|] eqn:Em; [|reflexivity].
  exfalso. apply Hn, matchNaive_naiveForm. rewrite Em. discriminate.
Qed.

Lemma declared_offset_only_for_naive_witness :
  parseIsoInFixedOffset (H := exampleRuntime) "2026-01-15T08:00:00Z" 0
  = parseIsoInFixedOffset (H := exampleRuntime) "2026-01-15T08:00:00Z" 330.
Proof.
  apply (declared_offset_only_for_naive (H := exampleRuntime) "2026-01-15T08:00:00Z" 0 330).
  intros Hn. apply naiveForm_not_zoned in Hn. discriminate Hn.
Defined.

Lemma MakeTime_fields_floor (t : Z) :
  MakeTime (HourFromTime t) (MinFromTime t) (SecFromTime t) 0
  = TimeWithinDay t - t mod 1000.
Proof.
  unfold MakeTime, HourFromTime, MinFromTime, SecFromTime, TimeWithinDay,
    msPerHour, msPerMinute, msPerSecond, msPerDay.
  Z.to_euclidean_division_equations. lia.
Qed.

(** X16 (toIsoInFixedOffset, parseIsoInFixedOffset): the date and time that
    the rendering shows are the wall-clock time at the given offset.  For an
    offset of at most 10^11 minutes and an instant whose local year has four
    digits, the text is a naive timestamp followed by the offset, and that
    naive timestamp, read under the same offset, is the instant with its
    milliseconds dropped; beyond 99 hours the offset itself is no longer
    written in two digits. *)
Theorem rendered_local_time_reads_back `{Runtime} (t offset : Z) :
  exactOffset offset ->
  1000 <= YearFromTime (t + offset * MS_PER_MIN) <= 9999 ->
  exists naive : string,
    chars (toIsoInFixedOffset t offset) = chars naive ++ chars (formatOffset offset)
    /\ naiveForm naive
    /\ parseIsoInFixedOffset naive offset = inr (Some (t - t mod 1000)).
Proof.
  intros Ho Hy.
  pose proof (four_digit_year_time _ Hy) as Hclip.
  assert (Hexact : addDouble t (mulDouble offset MS_PER_MIN) = t + offset * MS_PER_MIN).
  { destruct (exactOffset_ms _ Ho) as [_ Hb]. apply localMs_exact; lia. }
  set (localMs := t + offset * MS_PER_MIN) in *.
  assert (Hf : utcFields (addDouble t (mulDouble offset MS_PER_MIN))
               = Some {| fullYear := YearFromTime localMs;
                         month := MonthFromTime localMs + 1;
                         date := DateFromTime localMs;
                         hours := HourFromTime localMs;
                         minutes := MinFromTime localMs;
                         seconds := SecFromTime localMs |}).
  { rewrite Hexact. unfold utcFields. rewrite TimeClip_small by lia. reflexivity. }
  pose proof (toIsoInFixedOffset_chars t offset _ Hf) as Hchars.
  cbn [fullYear month date hours minutes seconds] in Hchars.
  destruct (fourDigits_spec _ Hy) as [Dy Vy].
  pose proof (MonthFromTime_range localMs) as Rm.
  pose proof (DateFromTime_range localMs) as Rd.
  pose proof (time_fields_range localMs) as (Rh & Rn & Rs).
  pose proof (DaysInMonth_le_31 (YearFromTime localMs) (MonthFromTime localMs + 1)
                ltac:(lia)) as Rdm.
  destruct (twoDigits_spec (MonthFromTime localMs + 1)) as [Dm Vm]; [lia|].
  destruct (twoDigits_spec (DateFromTime localMs)) as [Dd Vd]; [lia|].
  destruct (twoDigits_spec (HourFromTime localMs)) as [Dh Vh]; [lia|].
  destruct (twoDigits_spec (MinFromTime localMs)) as [Dn Vn]; [lia|].
  destruct (twoDigits_spec (SecFromTime localMs)) as [Ds Vs]; [lia|].
  set (ys := chars (Z_toString (YearFromTime localMs))) in *.
  set (ms := twoDigits (MonthFromTime localMs + 1)) in *.
  set (ds := twoDigits (DateFromTime localMs)) in *.
  set (hs := twoDigits (HourFromTime localMs)) in *.
  set (ns := twoDigits (MinFromTime localMs)) in *.
  set (ss := twoDigits (SecFromTime localMs)) in *.
  assert (Hss : secondsPart ss = ":"%char :: ss).
  { destruct ss as [|c l]; [destruct Ds; discriminate | reflexivity]. }
  set (naive := str (ys ++ "-"%char :: ms ++ "-"%char :: ds ++ "T"%char :: hs
                        ++ ":"%char :: ns ++ secondsPart ss)).
  assert (Hnaive : chars naive = ys ++ "-"%char :: ms ++ "-"%char :: ds ++ "T"%char :: hs
                                   ++ ":"%char :: ns ++ secondsPart ss).
  { unfold naive, chars, str. apply list_ascii_of_string_of_list_ascii. }
  exists naive. split; [|split].
  - rewrite Hchars, Hnaive, Hss. repeat (rewrite <- app_assoc; cbn [app]). reflexivity.
  - apply (naiveForm_parts naive ys ms ds hs ns ss); auto.
  - rewrite (parseIsoInFixedOffset_naive_value naive ys ms ds hs ns ss offset); auto.
    rewrite Vy, Vm, Vd, Vh, Vn, Vs. do 2 f_equal.
    unfold MakeFullYear.
    replace ((0 <=? YearFromTime localMs) && (YearFromTime localMs <=? 99)) with false
      by (symmetry; apply andb_false_iff; right; apply Z.leb_gt; lia).
    rewrite MakeDay_fields, MakeTime_fields_floor.
    unfold MakeDate, Day, TimeWithinDay, localMs, MS_PER_MIN, msPerDay.
    Z.to_euclidean_division_equations. lia.
Qed.

Lemma rendered_local_time_reads_back_witness :
  exists naive : string,
    chars (toIsoInFixedOffset 1768464000123 6000)
    = chars naive ++ chars (formatOffset 6000)
    /\ naiveForm naive
    /\ parseIsoInFixedOffset (H := exampleRuntime) naive 6000
       = inr (Some (1768464000123 - 1768464000123 mod 1000)).
Proof.
  apply (rendered_local_time_reads_back (H := exampleRuntime) 1768464000123 6000).
  - unfold exactOffset. vm_compute. discriminate.
  - vm_compute. split; discriminate.
Defined.

(** *** Nothing is made up *)

Lemma byKeyPush_Permutation key d byKey :
  Permutation (concat (map snd (byKeyPush key d byKey)))
              (d :: concat (map snd byKey)).
Proof.
  induction byKey as [|[k arr] byKey IH]; cbn [byKeyPush map snd concat]; [reflexivity|].
  destruct (String.eqb k key); cbn [map snd concat].
  - rewrite <- app_assoc. cbn [app]. symmetry. apply Permutation_middle.
  - rewrite IH. symmetry. apply Permutation_middle.
Qed.

(** The first loop deals every candidate into the pass-through array or into
    one array of the map. *)
Lemma bucketDoses_Permutation doses :
  Permutation doses ((bucketDoses doses).2 ++ concat (map snd (bucketDoses doses).1)).
Proof.
  rewrite bucketDoses_eq.
  assert (Hgen : forall l st,
            Permutation (st.2 ++ concat (map snd st.1) ++ l)
                        ((fold_left bucketStep l st).2
                         ++ concat (map snd (fold_left bucketStep l st).1))).
  { induction l as [|d l IH]; intros [byKey pass]; cbn [fold_left fst snd].
    - rewrite app_nil_r. reflexivity.
    - rewrite <- IH. unfold bucketStep. cbn [fst snd].
      destruct (hasGroup d); cbn [negb fst snd].
      + rewrite byKeyPush_Permutation. apply Permutation_app_head.
        symmetry. apply Permutation_middle.
      + rewrite <- app_assoc. cbn [app]. apply Permutation_app_head.
        symmetry. apply Permutation_middle. }
  apply (Hgen doses ([], [])).
Qed.

(** A scan splits its candidates into the accepted and the rejected. *)
Lemma scan_Permutation l keptByMinute :
  exists rejected,
    Permutation l ((fold_left scanDose l (keptByMinute, [])).2 ++ rejected).
Proof.
  revert keptByMinute. induction l as [|d l IH]; intros keptByMinute; cbn [fold_left].
  - exists []. reflexivity.
  - rewrite scanDose_eq. destruct (hasConflict keptByMinute d).
    + destruct (IH keptByMinute) as [rejected Hp]. exists (d :: rejected).
      rewrite Hp at 1. apply Permutation_middle.
    + destruct (IH (<[minuteOf d := d]> keptByMinute)) as [rejected Hp].
      exists rejected. rewrite scan_kept. cbn [snd app]. constructor. exact Hp.
Qed.

Lemma groupWinners_Permutation `{Runtime} g :
  exists rejected, Permutation g (groupWinners g ++ rejected).
Proof.
  destruct (scan_Permutation (sortBy comparePriority g) ∅) as [rejected Hp].
  exists rejected. rewrite <- Hp. symmetry. apply sortBy_Permutation.
Qed.

Lemma winners_Permutation `{Runtime} (groups : list (list ScheduledDose)) :
  exists rejected,
    Permutation (concat groups) (concat (map groupWinners groups) ++ rejected).
Proof.
  induction groups as [|g groups [rejected IH]]; cbn [map concat].
  - exists []. reflexivity.
  - destruct (groupWinners_Permutation g) as [rej Hp]. exists (rej ++ rejected).
    rewrite Hp at 1. rewrite IH. rewrite <- !app_assoc. apply Permutation_app_head.
    rewrite !app_assoc. apply Permutation_app_tail, Permutation_app_comm.
Qed.

Lemma resolveOverlaps_Permutation `{Runtime} doses :
  exists rejected,
    Permutation doses (resolveOverlaps doses ++ rejected)
    /\ Forall (fun d => hasGroup d = true) rejected.
Proof.
  destruct (winners_Permutation (map snd (bucketDoses doses).1)) as [rejected Hp].
  exists rejected. split.
  - rewrite resolveOverlaps_eq, <- app_assoc, <- Hp. apply bucketDoses_Permutation.
  - pose proof (bucketDoses_invariant doses) as [_ Hgrouped _].
    apply List.Forall_forall. intros d Hd.
    assert (Hin : In d (concat (map snd (bucketDoses doses).1))).
    { apply (Permutation_in _ (Permutation_sym Hp)), in_or_app. right. exact Hd. }
    apply in_concat in Hin as (arr & Harr & Hin).
    apply in_map_iff in Harr as ([k arr'] & <- & Hentry).
    apply (Hgrouped k arr' d Hentry Hin).
Qed.

(** X17 (resolveOverlaps): the resolver only drops candidates.  Its input is
    the output together with the rejected candidates, each counted as often
    as it occurs: no candidate is made up, none is copied, and every
    rejected candidate has a group. *)
Theorem resolveOverlaps_only_drops `{Runtime} (doses : list ScheduledDose) :
  exists rejected,
    Permutation doses (resolveOverlaps doses ++ rejected)
    /\ Forall (fun d => hasGroup d = true) rejected.
Proof. apply resolveOverlaps_Permutation. Qed.

Lemma resolveOverlaps_length `{Runtime} doses :
  (length (resolveOverlaps doses) <= length doses)%nat.
Proof.
  destruct (resolveOverlaps_Permutation doses) as (rejected & Hp & _).
  rewrite (Permutation_length Hp), length_app. lia.
Qed.

Lemma scheduleWinners_length `{Runtime} allDoses :
  (length (scheduleWinners allDoses) <= length allDoses)%nat.
Proof.
  unfold scheduleWinners.
  rewrite (Permutation_length (sortBy_Permutation compareInstant _)).
  apply resolveOverlaps_length.
Qed.

Lemma collectDoses_length `{Runtime} start_date days orders allDoses :
  0 <= days <= 30 ->
  dateOnlyForm start_date ->
  exactOffsets orders ->
  Forall (fun o => validateOrder o = ret tt) orders ->
  collectDoses start_date days orders = inr allDoses ->
  Z.of_nat (length allDoses) <= days * dosesPerDay orders.
Proof.
  intros Hdays Hdate Hex Hv. revert allDoses Hex.
  induction Hv as [|o orders Ho _ IH]; intros allDoses Hex; cbn [collectDoses].
  - intros [= <-]. unfold dosesPerDay. cbn. lia.
  - destruct (generateScheduledTimes start_date days o) as [?|doses] eqn:Eg;
      [discriminate|]. unfold bind at 1.
    destruct (collectDoses start_date days orders) as [?|more]; [discriminate|].
    inversion Hex as [|? ? Hxo Hxs]; subst.
    intros [= <-]. specialize (IH more Hxs eq_refl).
    destruct (generateScheduledTimes_within_horizon _ _ _ _ Ho Hdays Hdate Hxo Eg)
      as [_ Hlen].
    pose proof (validateOrder_frequency o Ho) as Hn.
    rewrite length_app. unfold dosesPerDay in *. cbn [map sumZ fold_right].
    fold (sumZ (map (fun o => intValue (frequency_per_day o)) orders)).
    apply Nat2Z.inj_le in Hlen. rewrite Z2Nat.id in Hlen by nia.
    rewrite Z.mul_add_distr_l, Nat2Z.inj_add. lia.
Qed.

(** X18 (generateDoseEvents): for a start date [YYYY-MM-DD] and orders
    whose offsets are at most 10^11 minutes, a call that returns gives at
    most one event for each dose of each day of the horizon: no more than
    [days] times the sum of the orders' frequencies, so at most 180 events an
    order. *)
Theorem generateDoseEvents_count `{Runtime} (start_date : string) (days : number)
    (orders : list Order) (events : list DoseEvent) :
  dateOnlyForm start_date ->
  exactOffsets orders ->
  generateDoseEvents start_date days orders = inr events ->
  Z.of_nat (length events) <= intValue days * dosesPerDay orders
  /\ (length events <= 180 * length orders)%nat.
Proof.
  intros Hdate Hex Hrun.
  destruct (generateDoseEvents_inv _ _ _ _ Hrun)
    as ((n & -> & Hn) & Hv & allDoses & Hc & ->).
  cbn [intValue] in *. rewrite length_map.
  pose proof (scheduleWinners_length allDoses) as Hw.
  assert (Hdays : 0 <= n <= 30) by lia.
  pose proof (collectDoses_length _ _ _ _ Hdays Hdate Hex Hv Hc) as Hall.
  split; [lia|].
  assert (Hfreq : dosesPerDay orders <= 6 * Z.of_nat (length orders)).
  { clear -Hv. unfold dosesPerDay.
    induction Hv as [|o orders Ho _ IH]; [cbn; lia|].
    pose proof (validateOrder_frequency o Ho). cbn [map sumZ fold_right length].
    fold (sumZ (map (fun o => intValue (frequency_per_day o)) orders)). lia. }
  nia.
Qed.

Lemma generateDoseEvents_count_witness :
  exists events,
    generateDoseEvents (H := exampleRuntime) "2026-01-15" (Int 2) [orderThrice]
    = inr events
    /\ Z.of_nat (length events) <= 2 * 3.
Proof.
  destruct (generateDoseEvents (H := exampleRuntime) "2026-01-15" (Int 2) [orderThrice])
    as [e|events] eqn:Erun; [vm_compute in Erun; discriminate|].
  exists events. split; [reflexivity|].
  apply (generateDoseEvents_count (H := exampleRuntime) "2026-01-15" (Int 2)
           [orderThrice] events dateOnlyForm_2026_01_15); [|exact Erun].
  repeat constructor. unfold exactOffset. vm_compute. discriminate.
Defined.

(** ** The events and the horizon *)

Lemma collectDoses_In `{Runtime} start_date days orders allDoses d :
  collectDoses start_date days orders = inr allDoses ->
  In d allDoses ->
  exists o doses, In o orders
                  /\ generateScheduledTimes start_date days o = inr doses
                  /\ In d doses.
Proof.
  revert allDoses. induction orders as [|o orders IH]; cbn [collectDoses]; intros allDoses.
  - intros [= <-] [].
  - destruct (generateScheduledTimes start_date days o) as [?|doses] eqn:Eg;
      [discriminate|]. unfold bind at 1.
    destruct (collectDoses start_date days orders) as [?|more]; [discriminate|].
    intros [= <-] [Hd|Hd]%in_app_or.
    + exists o, doses. split; [left; reflexivity | auto].
    + destruct (IH more eq_refl Hd) as (o' & doses' & Ho' & Hg & Hin).
      exists o', doses'. split; [right; exact Ho' | auto].
Qed.

Lemma num_le_max (a b : num) (t : Z) :
  num_le (Math_max a b) (Fin t) = true ->
  num_le a (Fin t) = true /\ num_le b (Fin t) = true.
Proof.
  destruct a as [|x|], b as [|y|]; cbn [Math_max num_le]; try discriminate.
  intros Hle%Z.leb_le. split; apply Z.leb_le; lia.
Qed.

Lemma num_le_min_both (a b : num) (t : Z) :
  num_le (Fin t) (Math_min a b) = true ->
  num_le (Fin t) a = true /\ num_le (Fin t) b = true.
Proof.
  destruct a as [|x|], b as [|y|]; cbn [Math_min num_le]; try discriminate; auto.
  intros Hle%Z.leb_le. split; apply Z.leb_le; lia.
Qed.

(** X19 (generateDoseEvents, generateScheduledTimes): for a start date
    [YYYY-MM-DD] and orders whose offsets are at most 10^11 minutes, every
    event is a dose of one of the given orders inside the horizon and inside
    that order's active window.  Its time is the rendering, at the order's
    offset, of an instant no earlier than 08:00 local time of the start
    date, no later than the end of the horizon, no earlier than the order's
    start and no later than its end, if it has one. *)
Theorem events_within_horizon_and_window `{Runtime} (start_date : string)
    (days : number) (orders : list Order) (events : list DoseEvent) (e : DoseEvent) :
  dateOnlyForm start_date ->
  exactOffsets orders ->
  generateDoseEvents start_date days orders = inr events ->
  In e events ->
  exists o t anchor orderStartUtc orderEndUtc,
    In o orders
    /\ event_order_id e = order_id o
    /\ scheduled_time e = toIsoInFixedOffset t (intValue (tz_offset_minutes o))
    /\ localMidnightUtcMs start_date (intValue (tz_offset_minutes o)) = inr (Some anchor)
    /\ anchor + START_HOUR * 60 * MS_PER_MIN <= t <= anchor + intValue days * MS_PER_DAY
    /\ parseIsoInFixedOffset (start_datetime o) (intValue (tz_offset_minutes o))
       = inr orderStartUtc
    /\ num_le (ofTime orderStartUtc) (Fin t) = true
    /\ orderEndIs o orderEndUtc
    /\ num_le (Fin t) orderEndUtc = true.
Proof.
  intros Hdate Hex Hrun He.
  destruct (generateDoseEvents_inv _ _ _ _ Hrun)
    as ((n & -> & Hn) & Hv & allDoses & Hc & ->).
  cbn [intValue] in *.
  apply in_map_iff in He as (d & <- & Hd).
  apply (proj1 (sortBy_In compareInstant d _)) in Hd. apply resolveOverlaps_incl in Hd.
  destruct (collectDoses_In _ _ _ _ _ Hc Hd) as (o & doses & Ho & Hg & Hin).
  rewrite List.Forall_forall in Hv. specialize (Hv o Ho).
  unfold exactOffsets in Hex. rewrite List.Forall_forall in Hex. specialize (Hex o Ho).
  assert (Hdays : 0 <= n <= 30) by lia.
  destruct (generateScheduledTimes_within_horizon _ _ _ _ Hv Hdays Hdate Hex Hg)
    as [Hcyc _].
  destruct (Hcyc d Hin) as (anchor & cycle & i & Hanchor & _ & _ & _ & Hrange).
  destruct (generateScheduledTimes_inv _ _ _ _ Hg) as (g & s & oe & Hg' & Hs & Hoe & Hdoses).
  rewrite Hanchor in Hg'. injection Hg' as <-.
  assert (Hwin : num_le (ofTime s) (Fin (utcMs d)) = true
                 /\ num_le (Fin (utcMs d)) oe = true).
  { rewrite Hdoses in Hin. cbv zeta in Hin.
    destruct (num_gt _ _); [destruct Hin|].
    apply dedupe_sound in Hin as [Hin _].
    apply templateDoses_In in Hin as (? & ? & ? & _ & _ & _ & _ & Hlo & Hhi).
    unfold effectiveWindow in Hlo, Hhi. cbn [fst snd] in Hlo, Hhi.
    apply num_le_max in Hlo as [_ Hlo]. apply num_le_min_both in Hhi as [_ Hhi]. auto. }
  pose proof (generateScheduledTimes_shape _ _ _ _ Hg d Hin) as Hshape.
  exists o, (utcMs d), anchor, s, oe.
  split; [exact Ho|]. split; [rewrite Hshape; reflexivity|].
  split; [rewrite Hshape at 1 2; reflexivity|].
  split; [exact Hanchor|]. split; [exact Hrange|]. split; [exact Hs|].
  split; [apply Hwin|]. split; [exact Hoe | apply Hwin].
Qed.

Lemma events_within_horizon_and_window_witness :
  exists o t anchor orderStartUtc orderEndUtc,
    In o [orderA]
    /\ event_order_id (eventA "2026-01-15T08:00:00+00:00") = order_id o
    /\ scheduled_time (eventA "2026-01-15T08:00:00+00:00")
       = toIsoInFixedOffset t (intValue (tz_offset_minutes o))
    /\ localMidnightUtcMs "2026-01-15" (intValue (tz_offset_minutes o))
       = inr (Some anchor)
    /\ anchor + START_HOUR * 60 * MS_PER_MIN <= t <= anchor + 1 * MS_PER_DAY
    /\ parseIsoInFixedOffset (H := exampleRuntime) (start_datetime o)
         (intValue (tz_offset_minutes o)) = inr orderStartUtc
    /\ num_le (ofTime orderStartUtc) (Fin t) = true
    /\ orderEndIs (H := exampleRuntime) o orderEndUtc
    /\ num_le (Fin t) orderEndUtc = true.
Proof.
  apply (events_within_horizon_and_window (H := exampleRuntime) "2026-01-15" (Int 1)
           [orderA] [eventA "2026-01-15T08:00:00+00:00"]).
  - exact dateOnlyForm_2026_01_15.
  - repeat constructor. unfold exactOffset. vm_compute. discriminate.
  - exact one_day_of_orderA.
  - left. reflexivity.
Defined.

(** ** Resolution, seen from the returned list *)

Lemma hasGroup_grouped (d : ScheduledDose) : hasGroup d = true <-> grouped d.
Proof.
  unfold hasGroup, grouped. destruct (group d) as [g|].
  - destruct (String.eqb_spec g "") as [->|Hne]; cbn [negb]; split.
    + discriminate.
    + intros (g' & [= <-] & Hne). contradiction.
    + intros _. exists g. auto.
    + reflexivity.
  - split; [discriminate|]. intros (g & [=] & _).
Qed.

Lemma within60_window (a b : ScheduledDose) :
  within60 a b <-> Z.abs (utcMs a - utcMs b) < OVERLAP_WINDOW_MS.
Proof. reflexivity. Qed.


(** The scan of a sorted array: a candidate that is not accepted lies
    strictly within the window of an accepted one that comes no later. *)
Lemma scan_rejected (R : ScheduledDose -> ScheduledDose -> Prop) l keptByMinute acc :
  scanInvariant keptByMinute acc ->
  StronglySorted R l ->
  (forall a x, In a acc -> In x l -> R a x) ->
  exists winners rejected,
    (fold_left scanDose l (keptByMinute, acc)).2 = acc ++ winners
    /\ Permutation l (winners ++ rejected)
    /\ forall d, In d rejected ->
         exists other, In other (acc ++ winners)
                       /\ Z.abs (utcMs d - utcMs other) < OVERLAP_WINDOW_MS
                       /\ R other d.
Proof.
  revert keptByMinute acc. induction l as [|d l IH]; intros kbm acc Hinv Hs Hcross;
    cbn [fold_left].
  - exists [], []. rewrite app_nil_r. split; [reflexivity|]. split; [reflexivity|].
    intros ? [].
  - inversion Hs as [|? ? Hs' Hd]; subst. rewrite scanDose_eq.
    destruct (hasConflict kbm d) eqn:Ec.
    + destruct (IH kbm acc Hinv Hs') as (w & rej & Hw & Hp & Hrej).
      { intros a x Ha Hx. apply Hcross; [exact Ha | right; exact Hx]. }
      exists w, (d :: rej). split; [exact Hw|]. split.
      * apply Permutation_cons_app, Hp.
      * intros x [<-|Hx]; [|apply Hrej, Hx].
        apply (hasConflict_iff _ _ d Hinv) in Ec as (other & Hin & Hnear).
        exists other. split; [apply in_or_app; left; exact Hin|].
        split; [exact Hnear|]. apply Hcross; [exact Hin | left; reflexivity].
    + pose proof (scanDose_invariant _ _ d Hinv) as Hstep. cbv zeta in Hstep.
      rewrite scanDose_eq, Ec in Hstep. cbn [fst snd] in Hstep.
      destruct (IH _ _ Hstep Hs') as (w & rej & Hw & Hp & Hrej).
      { intros a x [Ha|[<-|[]]]%in_app_or Hx;
          [apply Hcross; [exact Ha | right; exact Hx]|].
        rewrite List.Forall_forall in Hd. apply Hd, Hx. }
      exists (d :: w), rej. split; [rewrite Hw, <- app_assoc; reflexivity|].
      split; [cbn [app]; constructor; exact Hp|].
      intros x Hx. destruct (Hrej x Hx) as (other & Hin & Hrest).
      exists other. split; [|exact Hrest]. rewrite <- app_assoc in Hin. exact Hin.
Qed.

Lemma groupWinners_rejected `{Runtime} (R : ScheduledDose -> ScheduledDose -> Prop) g :
  StronglySorted R (sortBy comparePriority g) ->
  exists rejected,
    Permutation g (groupWinners g ++ rejected)
    /\ forall d, In d rejected ->
         exists other, In other (groupWinners g)
                       /\ Z.abs (utcMs d - utcMs other) < OVERLAP_WINDOW_MS
                       /\ R other d.
Proof.
  intros Hs.
  destruct (scan_rejected R (sortBy comparePriority g) ∅ [] scanInvariant_empty Hs)
    as (w & rej & Hw & Hp & Hrej); [intros a x []|].
  cbn [app] in Hw, Hrej. exists rej. unfold groupWinners. rewrite Hw. split.
  - rewrite <- Hp. symmetry. apply sortBy_Permutation.
  - exact Hrej.
Qed.

Lemma winners_rejected `{Runtime} (R : ScheduledDose -> ScheduledDose -> Prop)
    (groups : list (list ScheduledDose)) :
  (forall g, In g groups -> StronglySorted R (sortBy comparePriority g)) ->
  exists rejected,
    Permutation (concat groups) (concat (map groupWinners groups) ++ rejected)
    /\ forall d, In d rejected ->
         exists g other, In g groups /\ In d g /\ In other (groupWinners g)
                         /\ Z.abs (utcMs d - utcMs other) < OVERLAP_WINDOW_MS
                         /\ R other d.
Proof.
  induction groups as [|g groups IH]; intros Hs; cbn [map concat].
  - exists []. split; [reflexivity | intros ? []].
  - destruct IH as (rejected & Hp & Hrej);
      [intros g' Hg'; apply Hs; right; exact Hg'|].
    destruct (groupWinners_rejected R g (Hs g (or_introl eq_refl)))
      as (rej & Hpg & Hrejg).
    exists (rej ++ rejected). split.
    + rewrite Hpg at 1. rewrite Hp. rewrite <- !app_assoc. apply Permutation_app_head.
      rewrite !app_assoc. apply Permutation_app_tail, Permutation_app_comm.
    + intros d [Hd|Hd]%in_app_or.
      * destruct (Hrejg d Hd) as (other & Hin & Hrest).
        exists g, other. split; [left; reflexivity|]. split; [|auto].
        apply (Permutation_in _ (Permutation_sym Hpg)), in_or_app. right. exact Hd.
      * destruct (Hrej d Hd) as (g' & other & Hg' & Hrest).
        exists g', other. split; [right; exact Hg' | exact Hrest].
Qed.

(** The resolver's input is its output and the rejected candidates; each of
    these has a group and lies strictly within the window of a returned
    candidate under the same key that the group's order puts no later. *)
Lemma resolveOverlaps_rejected `{Runtime} (R : ScheduledDose -> ScheduledDose -> Prop)
    doses :
  (forall g, incl g doses -> StronglySorted R (sortBy comparePriority g)) ->
  exists rejected,
    Permutation doses (resolveOverlaps doses ++ rejected)
    /\ forall d, In d rejected ->
         In d doses /\ hasGroup d = true
         /\ exists other, In other (resolveOverlaps doses) /\ In other doses
              /\ hasGroup other = true /\ groupKey other = groupKey d
              /\ Z.abs (utcMs d - utcMs other) < OVERLAP_WINDOW_MS
              /\ R other d.
Proof.
  intros Hs. pose proof (bucketDoses_invariant doses) as [_ Hgrouped _].
  assert (Hgroup : forall g, In g (map snd (bucketDoses doses).1) ->
            exists k, forall x, In x g ->
              hasGroup x = true /\ groupKey x = k /\ In x doses).
  { intros g ([k arr] & <- & Hin)%in_map_iff. exists k. intros x Hx.
    apply (Hgrouped k arr x Hin Hx). }
  destruct (winners_rejected R (map snd (bucketDoses doses).1)) as (rejected & Hp & Hrej).
  { intros g Hg. destruct (Hgroup g Hg) as [k Hk]. apply Hs. intros x Hx.
    apply (Hk x Hx). }
  exists rejected. split.
  - rewrite resolveOverlaps_eq, <- app_assoc, <- Hp. apply bucketDoses_Permutation.
  - intros d Hd. destruct (Hrej d Hd) as (g & other & Hg & Hdg & Ho & Hnear & HR).
    destruct (Hgroup g Hg) as [k Hk].
    destruct (Hk d Hdg) as (Hgd & Hkd & Hind).
    destruct (Hk other (groupWinners_incl g other Ho)) as (Hgo & Hko & Hino).
    split; [exact Hind|]. split; [exact Hgd|]. exists other.
    split.
    { rewrite resolveOverlaps_eq. apply in_or_app. right. apply in_concat.
      exists (groupWinners g). split; [apply in_map, Hg | exact Ho]. }
    split; [exact Hino|]. split; [exact Hgo|]. split; [congruence|].
    split; [exact Hnear | exact HR].
Qed.


(** The pair of a key, where the keys tell the pairs apart. *)
Lemma keysSeparate_pair (doses : list ScheduledDose) (a b : ScheduledDose) :
  keysSeparate doses -> In a doses -> In b doses ->
  hasGroup a = true -> hasGroup b = true -> groupKey a = groupKey b ->
  patientId a = patientId b /\ group a = group b.
Proof.
  intros Hsep Ha Hb Hga Hgb Hk.
  apply (Hsep a b Ha Hb); [apply hasGroup_grouped, Hga | apply hasGroup_grouped, Hgb
                          | exact Hk].
Qed.





(** *** The tie-break order of a rejection *)

(** The group's comparator puts [a] no later than [b] exactly when the
    tuple of [a] is earlier or the same, where the collation tells the two
    order identifiers apart. *)
Lemma comparePriority_tuple `{Runtime} (a b : ScheduledDose) :
  (localeCompare (orderId a) (orderId b) = 0 -> orderId a = orderId b) ->
  comparePriority a b <= 0 -> tupleEarlier a b \/ tupleSame a b.
Proof.
  intros Hsep Hle. apply comparePriority_le in Hle as [Hp|[Hp [[Hne Hl]|[Hid Ht]]]].
  - left. left. exact Hp.
  - left. right. split; [exact Hp|]. left.
    destruct (Z.eq_dec (localeCompare (orderId a) (orderId b)) 0) as [Hz|Hz]; [|lia].
    exfalso. apply Hne, Hsep, Hz.
  - destruct (Z.eq_dec (utcMs a) (utcMs b)) as [Heq|Hneq].
    + right. split; [exact Hp|]. split; [exact Hid | exact Heq].
    + left. right. split; [exact Hp|]. right. split; [exact Hid | lia].
Qed.

(** C4, as the code has it: where the collation tells distinct order
    identifiers apart and the key [patient::group] tells the (patient, group)
    pairs apart, the input is the output together with the rejected
    candidates, and every rejected candidate has a returned candidate of its
    patient and group strictly within 60 minutes whose tuple of priority
    (descending), order identifier and instant (ascending) is strictly
    earlier, or the same: the same order identifier at the same instant. *)
Theorem rejected_is_dominated `{Runtime} (doses : list ScheduledDose) :
  collationSeparates doses ->
  keysSeparate doses ->
  exists rejected,
    Permutation doses (resolveOverlaps doses ++ rejected)
    /\ forall d, In d rejected ->
         exists other, In other (resolveOverlaps doses)
           /\ patientId other = patientId d /\ group other = group d
           /\ within60 d other
           /\ (tupleEarlier other d \/ tupleSame other d).
Proof.
  intros Hcol Hsep.
  destruct (resolveOverlaps_rejected (fun a b => comparePriority a b <= 0) doses)
    as (rejected & Hp & Hrej); [intros g Hg; apply (group_sorted doses g Hcol Hg)|].
  exists rejected. split; [exact Hp|]. intros d Hd.
  destruct (Hrej d Hd) as (Hind & Hgd & other & Ho & Hino & Hgo & Hk & Hnear & Hle).
  exists other. split; [exact Ho|].
  destruct (keysSeparate_pair doses other d Hsep Hino Hind Hgo Hgd Hk) as [Hpat Hgrp].
  split; [exact Hpat|]. split; [exact Hgrp|]. split; [exact Hnear|].
  apply comparePriority_tuple; [apply (Hcol other d Hino Hind) | exact Hle].
Qed.

Lemma rejected_is_dominated_witness :
  let a := doseAt (orderGrouped "A" 2) 1768464000000 in
  let b := doseAt (orderGrouped "B" 1) 1768464000000 in
  let c := doseAt (orderGrouped "C" 1) 1768471200000 in
  resolveOverlaps (H := exampleRuntime) [b; a; c] = [a; c]
  /\ exists rejected,
       Permutation [b; a; c] (resolveOverlaps (H := exampleRuntime) [b; a; c] ++ rejected)
       /\ forall d, In d rejected ->
            exists other, In other (resolveOverlaps (H := exampleRuntime) [b; a; c])
              /\ patientId other = patientId d /\ group other = group d
              /\ within60 d other
              /\ (tupleEarlier (H := exampleRuntime) other d \/ tupleSame other d).
Proof.
  intros a b c. split; [reflexivity|].
  apply (rejected_is_dominated (H := exampleRuntime) [b; a; c]).
  - apply codeUnit_separates.
  - intros x y Hx Hy _ _ _.
    destruct Hx as [<-|[<-|[<-|[]]]]; destruct Hy as [<-|[<-|[<-|[]]]];
      split; reflexivity.
Defined.

(** C4 as stated fails in three ways.  When an order is listed twice, the
    second copy of a candidate is rejected for the first, whose tuple is the
    same.  When the collation ties two distinct order identifiers, here A
    with a soft hyphen and A, the array of the group is left as it came, and
    the 07:30 candidate of order A is rejected for the 08:00 candidate of the
    other order, whose tuple is not earlier: the same priority, an order
    identifier that collates the same and is the later by code units, and a
    later instant.  And when two (patient, group) pairs share a key, the only
    returned candidate is of another patient and group. *)
Lemma rejected_for_a_winner_not_earlier :
  let c := doseAt (orderGrouped "A" 1) 1768464000000 in
  let v := doseAt (orderIn idSoftA "P" "G" 0 1) 1768464000000 in
  let w := doseAt (orderIn "A" "P" "G" 30 1) 1768462200000 in
  let x := doseAt (orderIn "A" "a::b" "c" 0 1) 1768464000000 in
  let y := doseAt (orderIn "B" "a" "b::c" 0 1) 1768464000000 in
  (collectDoses (H := exampleRuntime) "2026-01-15" 1
     [orderGrouped "A" 1; orderGrouped "A" 1] = inr [c; c]
   /\ resolveOverlaps (H := exampleRuntime) [c; c] = [c])
  /\ (collectDoses (H := ignoringRuntime) "2026-01-15" 1
        [orderIn idSoftA "P" "G" 0 1; orderIn "A" "P" "G" 30 1] = inr [v; w]
      /\ resolveOverlaps (H := ignoringRuntime) [v; w] = [v]
      /\ patientId v = patientId w /\ group v = group w
      /\ dosePriority v = dosePriority w
      /\ localeCompare (Runtime := ignoringRuntime) (orderId v) (orderId w) = 0
      /\ String.eqb (orderId v) (orderId w) = false
      /\ String.compare (orderId v) (orderId w) = Gt
      /\ utcMs w < utcMs v)
  /\ (collectDoses (H := exampleRuntime) "2026-01-15" 1
        [orderIn "A" "a::b" "c" 0 1; orderIn "B" "a" "b::c" 0 1] = inr [x; y]
      /\ resolveOverlaps (H := exampleRuntime) [x; y] = [x]
      /\ patientId x = "a::b"%string /\ patientId y = "a"%string).
Proof. vm_compute. repeat split. Qed.

(** ** The events of a call *)

(** The rendering, where the local time is exact and within the calendar. *)
Lemma toIsoInFixedOffset_localIsoText (t offset : Z) :
  Z.abs (offset * MS_PER_MIN) < 9007199254740992 ->
  Z.abs (t + offset * MS_PER_MIN) <= 8640000000000000 ->
  chars (toIsoInFixedOffset t offset) = localIsoText (t + offset * 60000) offset.
Proof.
  intros Ho Hl.
  assert (Hexact : addDouble t (mulDouble offset MS_PER_MIN) = t + offset * MS_PER_MIN)
    by (apply localMs_exact; lia).
  set (localMs := t + offset * MS_PER_MIN) in *.
  assert (Hf : utcFields (addDouble t (mulDouble offset MS_PER_MIN))
               = Some {| fullYear := YearFromTime localMs;
                         month := MonthFromTime localMs + 1;
                         date := DateFromTime localMs;
                         hours := HourFromTime localMs;
                         minutes := MinFromTime localMs;
                         seconds := SecFromTime localMs |}).
  { rewrite Hexact. unfold utcFields. rewrite TimeClip_small by lia. reflexivity. }
  rewrite (toIsoInFixedOffset_chars t offset _ Hf), formatOffset_chars.
  cbn [fullYear month date hours minutes seconds].
  change (t + offset * 60000) with localMs. unfold localIsoText.
  repeat (rewrite <- ?app_assoc; cbn [app]). reflexivity.
Qed.

(** The local time of a candidate lies within the horizon, which lies
    within the calendar. *)
Lemma generateScheduledTimes_local `{Runtime} (startDate : string) (days : Z)
    (o : Order) (doses : list ScheduledDose) (d : ScheduledDose) :
  validateOrder o = ret tt ->
  0 <= days <= 30 ->
  dateOnlyForm startDate ->
  exactOffset (intValue (tz_offset_minutes o)) ->
  generateScheduledTimes startDate days o = inr doses ->
  In d doses ->
  Z.abs (utcMs d + intValue (tz_offset_minutes o) * MS_PER_MIN) <= 8640000000000000.
Proof.
  intros Hv Hdays Hdate Ho Hrun Hd.
  destruct (generateScheduledTimes_within_horizon _ _ _ _ Hv Hdays Hdate Ho Hrun)
    as [Hin _].
  destruct (Hin d Hd) as (anchor & cycle & i & Hg & _ & _ & _ & Hrange).
  destruct (localMidnightUtcMs_exactAnchor _ _ _ Hdate Ho Hg)
    as (midnight & [= ->] & Hmid & _).
  unfold START_HOUR, MS_PER_DAY, MS_PER_MIN in *. lia.
Qed.

(** C6, as the code has it: the events of a successful call are those of the
    kept candidates ordered by instant and, at equal instants, by order
    identifier; each has the status SCHEDULED; and for a start date
    [YYYY-MM-DD] and an order whose offset is at most 10^11 minutes, the
    event's time is the text of the candidate's instant moved by that offset,
    followed by the offset. *)
Theorem generateDoseEvents_output `{Runtime} (start_date : string) (days : number)
    (orders : list Order) (events : list DoseEvent) :
  generateDoseEvents start_date days orders = inr events ->
  exists allDoses winners,
    collectDoses start_date (intValue days) orders = inr allDoses
    /\ Permutation winners (resolveOverlaps allDoses)
    /\ StronglySorted instantLe winners
    /\ Forall2 (fun e d =>
          event_order_id e = orderId d
          /\ status e = "SCHEDULED"%string
          /\ exists o, In o orders /\ d = doseAt o (utcMs d)
               /\ (dateOnlyForm start_date ->
                   exactOffset (intValue (tz_offset_minutes o)) ->
                   chars (scheduled_time e)
                   = localIsoText (utcMs d + intValue (tz_offset_minutes o) * 60000)
                                  (intValue (tz_offset_minutes o))))
        events winners.
Proof.
  intros Hrun.
  apply generateDoseEvents_inv in Hrun as ((n & -> & Hn) & Hv & allDoses & Hcollect & ->).
  cbn [intValue] in *.
  exists allDoses, (scheduleWinners allDoses). split; [exact Hcollect|].
  split; [apply sortBy_Permutation|]. split; [apply scheduleWinners_sorted|].
  assert (Hfrom : forall d, In d (scheduleWinners allDoses) ->
            exists o doses, In o orders
              /\ generateScheduledTimes start_date n o = inr doses /\ In d doses).
  { intros d Hd. apply (proj1 (sortBy_In compareInstant _ _)) in Hd.
    apply resolveOverlaps_incl in Hd. apply (collectDoses_In _ _ _ _ _ Hcollect Hd). }
  induction (scheduleWinners allDoses) as [|d l IH]; cbn [map]; constructor.
  - split; [reflexivity|]. split; [reflexivity|].
    destruct (Hfrom d (or_introl eq_refl)) as (o & doses & Ho & Hgen & Hd).
    pose proof (generateScheduledTimes_shape _ _ _ _ Hgen d Hd) as Hshape.
    exists o. split; [exact Ho|]. split; [exact Hshape|].
    intros Hdate Hoff. cbn [toEvent scheduled_time].
    rewrite List.Forall_forall in Hv.
    assert (Hdays : 0 <= n <= 30) by lia.
    pose proof (generateScheduledTimes_local _ _ _ _ d (Hv o Ho) Hdays Hdate Hoff
                  Hgen Hd) as Hlocal.
    destruct (exactOffset_ms _ Hoff) as [_ Hb].
    assert (Htz : tzOffset d = intValue (tz_offset_minutes o))
      by (rewrite Hshape; reflexivity).
    rewrite Htz. apply toIsoInFixedOffset_localIsoText; [lia | exact Hlocal].
  - apply IH. intros x Hx. apply Hfrom. right. exact Hx.
Qed.

Lemma two_days_of_two_orders :
  generateDoseEvents (H := exampleRuntime) "2026-01-15" (Int 2) [orderWindowed; orderA]
  = inr [ eventOf "A" "2026-01-15T08:00:00+00:00";
          eventOf "W" "2026-01-15T16:00:00+05:30";
          eventOf "W" "2026-01-16T00:00:00+05:30";
          eventOf "W" "2026-01-16T08:00:00+05:30";
          eventOf "A" "2026-01-16T08:00:00+00:00" ].
Proof. vm_compute. reflexivity. Qed.

Lemma generateDoseEvents_output_witness :
  exists allDoses winners,
    collectDoses (H := exampleRuntime) "2026-01-15" 2 [orderWindowed; orderA]
    = inr allDoses
    /\ Permutation winners (resolveOverlaps (H := exampleRuntime) allDoses)
    /\ StronglySorted (instantLe (H := exampleRuntime)) winners
    /\ Forall2 (fun e d =>
          event_order_id e = orderId d
          /\ status e = "SCHEDULED"%string
          /\ exists o, In o [orderWindowed; orderA] /\ d = doseAt o (utcMs d)
               /\ chars (scheduled_time e)
                  = localIsoText (utcMs d + intValue (tz_offset_minutes o) * 60000)
                                 (intValue (tz_offset_minutes o)))
        [ eventOf "A" "2026-01-15T08:00:00+00:00";
          eventOf "W" "2026-01-15T16:00:00+05:30";
          eventOf "W" "2026-01-16T00:00:00+05:30";
          eventOf "W" "2026-01-16T08:00:00+05:30";
          eventOf "A" "2026-01-16T08:00:00+00:00" ]
        winners.
Proof.
  destruct (generateDoseEvents_output (H := exampleRuntime) "2026-01-15" (Int 2)
              [orderWindowed; orderA] _ two_days_of_two_orders)
    as (allDoses & winners & Hc & Hp & Hs & Hevents).
  exists allDoses, winners. split; [exact Hc|]. split; [exact Hp|]. split; [exact Hs|].
  eapply Forall2_impl; [exact Hevents|].
  intros e d (Hid & Hstatus & o & Ho & Hshape & Htext).
  split; [exact Hid|]. split; [exact Hstatus|].
  exists o. split; [exact Ho|]. split; [exact Hshape|].
  apply Htext; [exact dateOnlyForm_2026_01_15|].
  destruct Ho as [<-|[<-|[]]]; unfold exactOffset; vm_compute; discriminate.
Defined.

(** C6 as stated fails for large offsets, which validation lets through: at
    2^53 + 6 minutes the offset in milliseconds is rounded, and the time
    shown, 07:59:50, is not the candidate's instant at that offset,
    08:00:23. *)
Lemma far_offset_renders_another_time :
  let t := -540431953515995856896 in
  collectDoses (H := exampleRuntime) "2026-01-15" 1 [orderFar] = inr [doseAt orderFar t]
  /\ generateDoseEvents (H := exampleRuntime) "2026-01-15" (Int 1) [orderFar]
     = inr [eventOf "A" "2026-01-15T07:59:50+150119987579016:38"]
  /\ str (localIsoText (t + (2 ^ 53 + 6) * 60000) (2 ^ 53 + 6))
     = "2026-01-15T08:00:23+150119987579016:38"%string.
Proof. vm_compute. repeat split. Qed.

(** * Properties of the observation normaliser *)

Import Observations.

Lemma signedOffset_normal sign h1 h2 m1 m2 minutes suffix :
  signedOffset sign h1 h2 m1 m2 = Some (minutes, suffix) -> normalOffset minutes suffix.
Proof.
  unfold signedOffset. destruct (_ && _) eqn:E; [|discriminate]. intros [= <- <-].
  apply andb_true_iff in E as [E Hm2]. apply andb_true_iff in E as [E Hm1].
  apply andb_true_iff in E as [E Hh2]. apply andb_true_iff in E as [Hs Hh1].
  right. exists sign, h1, h2, m1, m2.
  apply orb_true_iff in Hs. rewrite !Ascii.eqb_eq in Hs. auto 10.
Qed.

Lemma parseOffset_normal (iso : string) (minutes : Z) (suffix : string) :
  parseOffset iso = Some (minutes, suffix) -> normalOffset minutes suffix.
Proof.
  unfold parseOffset. destruct (rev (chars iso)) as [|z rest]; [discriminate|].
  destruct (Ascii.eqb z "Z" || Ascii.eqb z "z"); [intros [= <- <-]; left; auto|].
  cbv zeta.
  destruct rest as [|m1 [|c3 [|c4 [|c5 [|c6 rest]]]]]; try discriminate.
  - apply signedOffset_normal.
  - destruct (Ascii.eqb c3 ":"); [|apply signedOffset_normal].
    destruct (signedOffset c6 c5 c4 m1 z) as [r|] eqn:E.
    + intros [= ->]. apply (signedOffset_normal _ _ _ _ _ _ _ E).
    + apply signedOffset_normal.
Qed.

Lemma parseOffset_suffix (iso : string) (p : list ascii) (minutes : Z) (suffix : string) :
  normalOffset minutes suffix ->
  chars iso = p ++ chars suffix ->
  parseOffset iso = Some (minutes, suffix).
Proof.
  intros Hn Hs. unfold parseOffset. rewrite Hs, rev_app_distr.
  destruct Hn as [[-> ->]|(sign & h1 & h2 & m1 & m2 & Hsign & Hh1 & Hh2 & Hm1 & Hm2
                            & -> & ->)].
  - reflexivity.
  - unfold chars, str. rewrite list_ascii_of_string_of_list_ascii.
    cbn [rev app]. rewrite (isDigit_not m2 "Z" Hm2 eq_refl), (isDigit_not m2 "z" Hm2 eq_refl).
    cbn [orb]. rewrite Ascii.eqb_refl. unfold signedOffset. rewrite Hh1, Hh2, Hm1, Hm2.
    destruct Hsign as [-> | ->]; reflexivity.
Qed.

Lemma formatWithOffset_chars (ms : option Z) (offsetMinutes : Z) (suffix : string) :
  exists p, chars (formatWithOffset ms offsetMinutes suffix) = p ++ chars suffix.
Proof.
  unfold formatWithOffset. cbv zeta.
  destruct (String.eqb_spec suffix "Z") as [->|_]; rewrite !chars_append;
    rewrite ?app_assoc; eexists; reflexivity.
Qed.

Lemma toISOString_chars (ms : option Z) (text : string) :
  toISOString ms = inr text -> exists p, chars text = p ++ chars "Z".
Proof.
  unfold toISOString. destruct (match ms with Some t => TimeClip t | None => None end);
    [|discriminate].
  cbv zeta. intros [= <-]. rewrite !chars_append. rewrite ?app_assoc.
  eexists. reflexivity.
Qed.

(** X20 (roundToFiveMinutesIso, parseOffset, formatWithOffset): the rounded
    text carries the offset of the text it was made from, in normal form
    (a final [Z], or a sign and [HH:MM] with the colon); a text without an
    offset is rendered in UTC and gets the suffix [Z]. *)
Theorem roundToFiveMinutesIso_keeps_offset `{Runtime} (iso rounded : string) :
  roundToFiveMinutesIso iso = inr rounded ->
  parseOffset rounded
  = Some (match parseOffset iso with
          | Some offset => offset
          | None => (0, "Z"%string)
          end).
Proof.
  unfold roundToFiveMinutesIso. cbv zeta.
  destruct (parseOffset iso) as [[minutes suffix]|] eqn:Eo.
  - intros [= <-].
    destruct (formatWithOffset_chars (roundedMs (Date_parse iso)) minutes suffix)
      as [p Hp].
    apply (parseOffset_suffix _ p); [apply (parseOffset_normal iso), Eo | exact Hp].
  - intros Hrun. destruct (toISOString_chars _ _ Hrun) as [p Hp].
    apply (parseOffset_suffix _ p); [left; auto | exact Hp].
Qed.

Lemma roundToFiveMinutesIso_keeps_offset_witness :
  parseOffset "2026-01-15T08:05:00.000+05:30" = Some (330, "+05:30"%string).
Proof.
  apply (roundToFiveMinutesIso_keeps_offset (H := exampleRuntime)
           "2026-01-15T08:03:10+05:30" "2026-01-15T08:05:00.000+05:30").
  vm_compute. reflexivity.
Defined.

(** *** The map *)

Lemma mapGet_In key m v : mapGet key m = Some v -> In (key, v) m.
Proof.
  induction m as [|[k x] m IH]; cbn [mapGet]; [discriminate|].
  destruct (String.eqb_spec k key) as [->|_].
  - intros [= ->]. left. reflexivity.
  - intros Hg. right. apply IH, Hg.
Qed.

Lemma mapGet_None key m : mapGet key m = None -> ~ In key (map fst m).
Proof.
  induction m as [|[k x] m IH]; cbn [mapGet map fst]; [intros _ []|].
  destruct (String.eqb_spec k key) as [->|Hne]; [discriminate|].
  intros Hg [Hk|Hin]; [exact (Hne Hk) | exact (IH Hg Hin)].
Qed.

Lemma In_mapGet key m v :
  List.NoDup (map fst m) -> In (key, v) m -> mapGet key m = Some v.
Proof.
  induction m as [|[k x] m IH]; cbn [mapGet map fst]; [intros _ []|].
  intros Hnd [[= -> ->]|Hin].
  - rewrite String.eqb_refl. reflexivity.
  - inversion Hnd as [|? ? Hk Hnd']; subst.
    destruct (String.eqb_spec k key) as [->|_]; [|apply IH; assumption].
    exfalso. apply Hk. apply (in_map fst _ _ Hin).
Qed.

Lemma mapSet_keys key value m k :
  In k (map fst (mapSet key value m)) <-> k = key \/ In k (map fst m).
Proof.
  induction m as [|[k' x] m IH]; cbn [mapSet map fst].
  - split; [intros [<-|[]]; auto | intros [->|[]]; left; reflexivity].
  - destruct (String.eqb_spec k' key) as [->|Hne]; cbn [map fst].
    + split; [intros [Heq|Hin]; [left; symmetry; exact Heq | right; right; exact Hin]|].
      intros [Heq|[Heq|Hin]]; [left; symmetry; exact Heq | left; exact Heq | right; exact Hin].
    + cbn [In]. rewrite IH. tauto.
Qed.

Lemma mapSet_NoDup key value m :
  List.NoDup (map fst m) -> List.NoDup (map fst (mapSet key value m)).
Proof.
  induction m as [|[k x] m IH]; cbn [mapSet map fst]; intros Hnd.
  - repeat constructor. intros [].
  - inversion Hnd as [|? ? Hk Hnd']; subst.
    destruct (String.eqb_spec k key) as [->|Hne]; cbn [map fst];
      constructor; auto.
    rewrite mapSet_keys. intros [?|?]; [congruence | contradiction].
Qed.

Lemma mapSet_In key value m k v :
  In (k, v) (mapSet key value m) -> (k = key /\ v = value) \/ In (k, v) m.
Proof.
  induction m as [|[k' x] m IH]; cbn [mapSet].
  - intros [[= <- <-]|[]]. left. auto.
  - destruct (String.eqb_spec k' key) as [->|Hne].
    + intros [[= <- <-]|Hin]; [left; auto | right; right; exact Hin].
    + intros [Heq|Hin]; [right; left; exact Heq|].
      destruct (IH Hin) as [?|?]; [left; assumption | right; right; assumption].
Qed.

Lemma mapGet_mapSet key value m : mapGet key (mapSet key value m) = Some value.
Proof.
  induction m as [|[k x] m IH]; cbn [mapSet mapGet].
  - rewrite String.eqb_refl. reflexivity.
  - destruct (String.eqb_spec k key) as [->|Hne]; cbn [mapGet].
    + rewrite String.eqb_refl. reflexivity.
    + destruct (String.eqb_spec k key) as [?|_]; [contradiction | exact IH].
Qed.

Lemma mapSet_In_key key value m v :
  List.NoDup (map fst m) -> In (key, v) (mapSet key value m) -> v = value.
Proof.
  intros Hnd Hin. apply (In_mapGet _ _ _ (mapSet_NoDup key value m Hnd)) in Hin.
  rewrite mapGet_mapSet in Hin. congruence.
Qed.

Lemma mapSet_keeps key value m k v :
  In (k, v) m -> k <> key -> In (k, v) (mapSet key value m).
Proof.
  induction m as [|[k' x] m IH]; cbn [mapSet]; [intros []|].
  intros [[= -> ->]|Hin] Hne.
  - destruct (String.eqb_spec k key) as [?|_]; [contradiction | left; reflexivity].
  - destruct (String.eqb_spec k' key); right; auto.
Qed.

Lemma mapSet_new key value m : In (key, value) (mapSet key value m).
Proof. apply mapGet_In, mapGet_mapSet. Qed.

Lemma mergeInvariant_nil `{Runtime} allowlist : mergeInvariant allowlist [] [].
Proof. split; [constructor | intros ? ? [] | intros ? []]. Qed.

Lemma preferred_refl `{Runtime} allowlist o r :
  preferred allowlist o (withEffective o r).
Proof.
  split; [auto|]. intros _ t t' Ht Ht'. cbn [ingested_at withEffective] in Ht'.
  rewrite Ht in Ht'. injection Ht' as <-. lia.
Qed.

Lemma mergeObservation_invariant `{Runtime} allowlist seen m obs m' :
  mergeInvariant allowlist seen m ->
  mergeObservation allowlist m obs = inr m' ->
  mergeInvariant allowlist (seen ++ [obs]) m'.
Proof.
  intros [Hkeys Horigin Hheld]. unfold mergeObservation.
  destruct (roundToFiveMinutesIso (effective_datetime obs)) as [?|r] eqn:Er;
    [discriminate|]. unfold bind. cbv zeta.
  fold (withEffective obs r). set (next := withEffective obs r).
  change (buildKey (patient_id obs) (code obs) r (unit obs)) with (recordKey next).
  set (key := recordKey next).
  assert (Hnext_origin : key = recordKey next
            /\ exists o, In o (seen ++ [obs])
                 /\ roundToFiveMinutesIso (effective_datetime o)
                    = inr (effective_datetime next)
                 /\ next = withEffective o (effective_datetime next)).
  { split; [reflexivity|]. exists obs. split; [apply in_or_app; right; left; reflexivity|].
    split; [exact Er | reflexivity]. }
  assert (Hold_origin : forall k v, In (k, v) m ->
            k = recordKey v
            /\ exists o, In o (seen ++ [obs])
                 /\ roundToFiveMinutesIso (effective_datetime o)
                    = inr (effective_datetime v)
                 /\ v = withEffective o (effective_datetime v)).
  { intros k v Hin. destruct (Horigin k v Hin) as (Hk & o & Ho & Hr & Hv).
    split; [exact Hk|]. exists o. split; [apply in_or_app; left; exact Ho | auto]. }
  (* the result of replacing the record of [key] by [next] *)
  assert (Hreplace : (forall o v, In o seen -> In (key, v) m ->
                        preferred allowlist o v -> preferred allowlist o next) ->
                     mergeInvariant allowlist (seen ++ [obs]) (mapSet key next m)).
  { intros Hbetter. split.
    - apply mapSet_NoDup, Hkeys.
    - intros k v [[-> ->]|Hin]%mapSet_In; [exact Hnext_origin | apply Hold_origin, Hin].
    - intros o [Ho|[<-|[]]]%in_app_or.
      + destruct (Hheld o Ho) as (r0 & v & Hr0 & Hin & Hpref). exists r0.
        destruct (String.eqb_spec (recordKey (withEffective o r0)) key) as [Heq|Hne].
        * exists next. split; [exact Hr0|]. rewrite Heq. split; [apply mapSet_new|].
          rewrite Heq in Hin. apply (Hbetter o v Ho Hin Hpref).
        * exists v. split; [exact Hr0|]. split; [apply mapSet_keeps; assumption | exact Hpref].
      + exists r, next. split; [exact Er|]. split; [apply mapSet_new | apply preferred_refl]. }
  (* the result of keeping the record [current] of [key] *)
  assert (Hkeep : forall current, In (key, current) m ->
                    preferred allowlist obs current ->
                    mergeInvariant allowlist (seen ++ [obs]) m).
  { intros current Hin Hpref. split; [exact Hkeys | exact Hold_origin|].
    intros o [Ho|[<-|[]]]%in_app_or.
    - destruct (Hheld o Ho) as (r0 & v & ? & ? & ?). exists r0, v. auto.
    - exists r, current. auto. }
  destruct (mapGet key m) as [current|] eqn:Eg.
  - apply mapGet_In in Eg.
    assert (Hsame : forall v, In (key, v) m -> v = current).
    { intros v Hv. apply (In_mapGet _ _ _ Hkeys) in Hv, Eg. congruence. }
    change (source next) with (source obs). change (ingested_at next) with (ingested_at obs).
    assert (Hnext : forall o, preferred allowlist o next
              <-> ((allowed allowlist o -> allowed allowlist obs)
                   /\ ((allowed allowlist o <-> allowed allowlist obs) ->
                       forall t t', Date_parse (ingested_at o) = Some t ->
                                    Date_parse (ingested_at obs) = Some t' -> t <= t')))
      by (intros o; reflexivity).
    destruct (decide (source current ∈ allowlist)) as [Hc|Hc];
      destruct (decide (source obs ∈ allowlist)) as [Hn|Hn];
      rewrite ?(bool_decide_eq_true_2 _ Hc), ?(bool_decide_eq_false_2 _ Hc),
        ?(bool_decide_eq_true_2 _ Hn), ?(bool_decide_eq_false_2 _ Hn);
      cbn [andb negb].
    + destruct (time_ge _ _) eqn:Et; intros [= <-].
      * apply Hreplace. intros o v Ho Hv [Ha Hb]. rewrite (Hsame v Hv) in Ha, Hb.
        apply Hnext. split; [intros _; exact Hn|]. intros Hiff t t' Ht Ht'.
        unfold time_ge in Et. rewrite Ht' in Et.
        destruct (Date_parse (ingested_at current)) as [tc|] eqn:Ec; [|discriminate].
        apply Z.leb_le in Et.
        assert (Hiff' : allowed allowlist o <-> allowed allowlist current)
          by (unfold allowed in *; tauto).
        specialize (Hb Hiff' t tc Ht eq_refl). lia.
      * apply (Hkeep current Eg). split; [intros _; exact Hc|]. intros _ t t' Ht Ht'.
        unfold time_ge in Et. rewrite Ht, Ht' in Et. apply Z.leb_gt in Et. lia.
    + intros [= <-]. apply (Hkeep current Eg). unfold preferred, allowed.
      split; [intros ?; contradiction | intros [_ Hback]; exfalso; apply Hn, Hback, Hc].
    + intros [= <-]. apply Hreplace. intros o v Ho Hv [Ha Hb]. rewrite (Hsame v Hv) in Ha.
      apply Hnext. split; [intros _; exact Hn|]. intros [_ Hback]. exfalso.
      apply Hc, Ha, Hback, Hn.
    + destruct (time_ge _ _) eqn:Et; intros [= <-].
      * apply Hreplace. intros o v Ho Hv [Ha Hb]. rewrite (Hsame v Hv) in Ha, Hb.
        apply Hnext. split; [intros Hao; exfalso; apply Hc, Ha, Hao|].
        intros Hiff t t' Ht Ht'.
        unfold time_ge in Et. rewrite Ht' in Et.
        destruct (Date_parse (ingested_at current)) as [tc|] eqn:Ec; [|discriminate].
        apply Z.leb_le in Et.
        assert (Hiff' : allowed allowlist o <-> allowed allowlist current)
          by (unfold allowed in *; tauto).
        specialize (Hb Hiff' t tc Ht eq_refl). lia.
      * apply (Hkeep current Eg). unfold preferred, allowed.
        split; [intros ?; contradiction|]. intros _ t t' Ht Ht'.
        unfold time_ge in Et. rewrite Ht, Ht' in Et. apply Z.leb_gt in Et. lia.
  - intros [= <-]. apply Hreplace. intros o v _ Hv _. exfalso.
    apply (mapGet_None _ _ Eg). apply (in_map fst _ _ Hv).
Qed.

Lemma mergeAll_invariant `{Runtime} allowlist observations seen m m' :
  mergeInvariant allowlist seen m ->
  mergeAll allowlist observations m = inr m' ->
  mergeInvariant allowlist (seen ++ observations) m'.
Proof.
  revert seen m. induction observations as [|obs rest IH]; intros seen m Hinv;
    cbn [mergeAll].
  - intros [= <-]. rewrite app_nil_r. exact Hinv.
  - destruct (mergeObservation allowlist m obs) as [?|m1] eqn:E1; [discriminate|].
    unfold bind. intros Hrest.
    replace (seen ++ obs :: rest) with ((seen ++ [obs]) ++ rest)
      by (rewrite <- app_assoc; reflexivity).
    apply (IH _ m1); [|exact Hrest].
    apply (mergeObservation_invariant _ _ m); assumption.
Qed.

Lemma normalizeObservations_inv `{Runtime} observations allowlist normalized :
  normalizeObservations observations allowlist = inr normalized ->
  exists m, mergeInvariant allowlist observations m
            /\ Permutation normalized (map snd m).
Proof.
  unfold normalizeObservations.
  destruct (mergeAll allowlist observations []) as [?|m] eqn:Em; [discriminate|].
  unfold bind. intros [= <-]. exists m. split; [|apply sortBy_Permutation].
  apply (mergeAll_invariant _ _ [] [] m (mergeInvariant_nil allowlist) Em).
Qed.

Lemma normalize_lab_and_app :
  normalizeObservations (H := exampleRuntime) [obsApp; obsLab] DEFAULT_ALLOWLIST
  = inr [withEffective obsLab "2026-01-15T08:05:00.000+05:30"].
Proof. vm_compute. reflexivity. Qed.

(** *** The result *)

(** X21 (normalizeObservations, buildKey): the result holds one record for
    each key met.  No two records of the result have the same patient, code,
    rounded time and unit (as the key spells them), and every observation of
    the input has the record of its key in the result. *)
Theorem normalizeObservations_one_per_key `{Runtime} (observations : list Observation)
    (allowlist : gset string) (normalized : list Observation) :
  normalizeObservations observations allowlist = inr normalized ->
  List.NoDup (map recordKey normalized)
  /\ forall o, In o observations ->
       exists r v, roundToFiveMinutesIso (effective_datetime o) = inr r
                   /\ In v normalized
                   /\ recordKey v = buildKey (patient_id o) (code o) r (unit o).
Proof.
  intros (m & [Hkeys Horigin Hheld] & Hperm)%normalizeObservations_inv.
  assert (Hmap : map recordKey (map snd m) = map fst m).
  { rewrite map_map. apply map_ext_in. intros [k v] Hin.
    destruct (Horigin k v Hin) as [-> _]. reflexivity. }
  split.
  - apply (Permutation_NoDup (l := map recordKey (map snd m))).
    + apply Permutation_map. symmetry. exact Hperm.
    + rewrite Hmap. exact Hkeys.
  - intros o Ho. destruct (Hheld o Ho) as (r & v & Hr & Hin & _).
    exists r, v. split; [exact Hr|]. split.
    + apply (Permutation_in _ (Permutation_sym Hperm)). apply (in_map snd _ _ Hin).
    + destruct (Horigin _ v Hin) as [Hk _]. symmetry. exact Hk.
Qed.

Lemma normalizeObservations_one_per_key_witness :
  List.NoDup (map recordKey [withEffective obsLab "2026-01-15T08:05:00.000+05:30"]).
Proof.
  apply (normalizeObservations_one_per_key (H := exampleRuntime) [obsApp; obsLab]
           DEFAULT_ALLOWLIST _ normalize_lab_and_app).
Defined.

(** X22 (normalizeObservations): nothing is made up.  Every record of the
    result is an observation of the input with its other fields untouched
    and its time replaced by that time rounded. *)
Theorem normalizeObservations_provenance `{Runtime} (observations : list Observation)
    (allowlist : gset string) (normalized : list Observation) (v : Observation) :
  normalizeObservations observations allowlist = inr normalized ->
  In v normalized ->
  exists o, In o observations
            /\ roundToFiveMinutesIso (effective_datetime o) = inr (effective_datetime v)
            /\ v = withEffective o (effective_datetime v).
Proof.
  intros (m & [_ Horigin _] & Hperm)%normalizeObservations_inv Hv.
  apply (Permutation_in _ Hperm) in Hv. apply in_map_iff in Hv as ([k v'] & <- & Hin).
  apply (Horigin k v' Hin).
Qed.

Lemma normalizeObservations_provenance_witness :
  exists o, In o [obsApp; obsLab]
            /\ roundToFiveMinutesIso (H := exampleRuntime) (effective_datetime o)
               = inr "2026-01-15T08:05:00.000+05:30"%string
            /\ withEffective obsLab "2026-01-15T08:05:00.000+05:30"
               = withEffective o "2026-01-15T08:05:00.000+05:30".
Proof.
  apply (normalizeObservations_provenance (H := exampleRuntime) [obsApp; obsLab]
           DEFAULT_ALLOWLIST _ (withEffective obsLab "2026-01-15T08:05:00.000+05:30")
           normalize_lab_and_app).
  left. reflexivity.
Defined.

(** X23 (normalizeObservations): which observation a key keeps.  The record
    of a key comes from an allowlisted source whenever an observation of
    that key does; and against every observation of its key that is trusted
    alike, it was ingested no earlier, where both ingestion times are read. *)
Theorem normalizeObservations_prefers `{Runtime} (observations : list Observation)
    (allowlist : gset string) (normalized : list Observation)
    (o v : Observation) (r : string) :
  normalizeObservations observations allowlist = inr normalized ->
  In o observations ->
  In v normalized ->
  roundToFiveMinutesIso (effective_datetime o) = inr r ->
  recordKey v = buildKey (patient_id o) (code o) r (unit o) ->
  (source o ∈ allowlist -> source v ∈ allowlist)
  /\ ((source o ∈ allowlist <-> source v ∈ allowlist) ->
      forall t t', Date_parse (ingested_at o) = Some t ->
                   Date_parse (ingested_at v) = Some t' -> t <= t').
Proof.
  intros (m & [Hkeys Horigin Hheld] & Hperm)%normalizeObservations_inv Ho Hv Hr Hkey.
  destruct (Hheld o Ho) as (r' & v' & Hr' & Hin' & Hpref).
  rewrite Hr in Hr'. injection Hr' as <-.
  apply (Permutation_in _ Hperm) in Hv. apply in_map_iff in Hv as ([k v2] & <- & Hin).
  cbn [snd] in Hkey |- *. destruct (Horigin k v2 Hin) as [-> _].
  change (buildKey (patient_id o) (code o) r (unit o))
    with (recordKey (withEffective o r)) in Hkey.
  rewrite Hkey in Hin.
  assert (v2 = v') as ->.
  { apply (In_mapGet _ _ _ Hkeys) in Hin, Hin'. congruence. }
  exact Hpref.
Qed.

Lemma normalizeObservations_prefers_witness :
  (source obsApp ∈ DEFAULT_ALLOWLIST -> source obsLab ∈ DEFAULT_ALLOWLIST)
  /\ ((source obsApp ∈ DEFAULT_ALLOWLIST <-> source obsLab ∈ DEFAULT_ALLOWLIST) ->
      forall t t',
        Date_parse (H := exampleRuntime) (ingested_at obsApp) = Some t ->
        Date_parse (H := exampleRuntime) (ingested_at obsLab) = Some t' -> t <= t').
Proof.
  apply (normalizeObservations_prefers (H := exampleRuntime) [obsApp; obsLab]
           DEFAULT_ALLOWLIST _ obsApp
           (withEffective obsLab "2026-01-15T08:05:00.000+05:30")
           "2026-01-15T08:05:00.000+05:30" normalize_lab_and_app).
  - left. reflexivity.
  - left. reflexivity.
  - vm_compute. reflexivity.
  - vm_compute. reflexivity.
Defined.

Lemma mergeObservation_returns `{Runtime} allowlist m obs r :
  roundToFiveMinutesIso (effective_datetime obs) = inr r ->
  exists m', mergeObservation allowlist m obs = inr m'.
Proof.
  intros Hr. unfold mergeObservation. rewrite Hr. unfold bind, ret. cbv zeta.
  destruct (mapGet _ m); [|eauto].
  repeat match goal with |- context [if ?b then _ else _] => destruct b end; eauto.
Qed.

Lemma mergeObservation_throws `{Runtime} allowlist m obs e :
  roundToFiveMinutesIso (effective_datetime obs) = inl e ->
  mergeObservation allowlist m obs = inl e.
Proof. intros Hr. unfold mergeObservation. rewrite Hr. reflexivity. Qed.

Lemma roundToFiveMinutesIso_zoned `{Runtime} iso :
  parseOffset iso <> None -> exists r, roundToFiveMinutesIso iso = inr r.
Proof.
  unfold roundToFiveMinutesIso. cbv zeta.
  destruct (parseOffset iso) as [[minutes suffix]|]; [eauto | congruence].
Qed.

Lemma mergeAll_returns `{Runtime} allowlist observations m :
  Forall (fun o => parseOffset (effective_datetime o) <> None) observations ->
  exists m', mergeAll allowlist observations m = inr m'.
Proof.
  intros Hall. revert m. induction Hall as [|o rest Ho _ IH]; intros m; cbn [mergeAll].
  - eexists. reflexivity.
  - destruct (roundToFiveMinutesIso_zoned _ Ho) as [r Hr].
    destruct (mergeObservation_returns allowlist m o r Hr) as [m1 ->]. apply IH.
Qed.

(** X24 (normalizeObservations, roundToFiveMinutesIso): when the call throws.
    A time with an offset suffix is always rendered, as NaN fields if it is
    no date, so observations whose times all carry a suffix never make the
    call throw.  The first observation whose time has no suffix and is read
    as NaN ends the call with the RangeError of [toISOString]. *)
Theorem normalizeObservations_throws `{Runtime} (allowlist : gset string) :
  (forall observations,
     Forall (fun o => parseOffset (effective_datetime o) <> None) observations ->
     exists normalized, normalizeObservations observations allowlist = inr normalized)
  /\ (forall before o after,
        Forall (fun p => parseOffset (effective_datetime p) <> None) before ->
        parseOffset (effective_datetime o) = None ->
        Date_parse (effective_datetime o) = None ->
        normalizeObservations (before ++ o :: after) allowlist
        = throw "Invalid time value").
Proof.
  split.
  - intros observations Hall. unfold normalizeObservations.
    destruct (mergeAll_returns allowlist observations [] Hall) as [m ->].
    eexists. reflexivity.
  - intros before o after Hbefore Hoff Hnan. unfold normalizeObservations.
    assert (Hround : roundToFiveMinutesIso (effective_datetime o)
                     = throw "Invalid time value").
    { unfold roundToFiveMinutesIso. rewrite Hoff, Hnan. reflexivity. }
    assert (Hgen : forall m, mergeAll allowlist (before ++ o :: after) m
                             = throw "Invalid time value").
    { induction Hbefore as [|p rest Hp _ IH]; intros m; cbn [app mergeAll].
      - rewrite (mergeObservation_throws _ _ _ _ Hround). reflexivity.
      - destruct (roundToFiveMinutesIso_zoned _ Hp) as [r Hr].
        destruct (mergeObservation_returns allowlist m p r Hr) as [m1 ->]. apply IH. }
    rewrite Hgen. reflexivity.
Qed.

Lemma normalizeObservations_throws_witness :
  normalizeObservations (H := exampleRuntime) ([obsLab] ++ obsUndated :: [obsApp])
    DEFAULT_ALLOWLIST
  = throw "Invalid time value".
Proof.
  apply (proj2 (normalizeObservations_throws (H := exampleRuntime) DEFAULT_ALLOWLIST)
           [obsLab] obsUndated [obsApp]).
  - constructor; [discriminate | constructor].
  - reflexivity.
  - reflexivity.
Defined.

(** *** The order of the result *)

Lemma comparePatientId_sym `{Runtime} (left right : PatientId) :
  Z.sgn (comparePatientId right left) = - Z.sgn (comparePatientId left right).
Proof.
  assert (Htext : forall l r,
            Z.sgn (match StringToNumber (String_ r), StringToNumber (String_ l) with
                   | Some x, Some y =>
                       if isPlainIntegerString (String_ r)
                          && isPlainIntegerString (String_ l)
                          && negb (toDouble (Qfloor x) =? toDouble (Qfloor y))
                       then toDouble (Qfloor x) - toDouble (Qfloor y)
                       else localeCompare (String_ r) (String_ l)
                   | _, _ => localeCompare (String_ r) (String_ l)
                   end)
            = - Z.sgn (match StringToNumber (String_ l), StringToNumber (String_ r) with
                       | Some x, Some y =>
                           if isPlainIntegerString (String_ l)
                              && isPlainIntegerString (String_ r)
                              && negb (toDouble (Qfloor x) =? toDouble (Qfloor y))
                           then toDouble (Qfloor x) - toDouble (Qfloor y)
                           else localeCompare (String_ l) (String_ r)
                       | _, _ => localeCompare (String_ l) (String_ r)
                       end)).
  { intros l r.
    destruct (StringToNumber (String_ l)) as [x|], (StringToNumber (String_ r)) as [y|];
      try apply localeCompare_sym.
    rewrite (andb_comm (isPlainIntegerString (String_ r))),
      (Z.eqb_sym (toDouble (Qfloor y))).
    destruct (_ && _ && _); [lia | apply localeCompare_sym]. }
  destruct left as [l|l], right as [r|r]; cbn [comparePatientId];
    [lia | apply Htext | apply Htext | apply Htext].
Qed.

(** X25 (normalizeObservations, comparePatientId): the comparator of the
    final sort is antisymmetric: exchanging the two records turns a negative
    result into a positive one and keeps zero, for patients given as numbers,
    as numerals or as other text. *)
Theorem compareObservations_antisymmetric `{Runtime} (a b : Observation) :
  Z.sgn (compareObservations b a) = - Z.sgn (compareObservations a b).
Proof.
  unfold compareObservations. cbv zeta.
  pose proof (comparePatientId_sym (patient_id a) (patient_id b)) as Hp.
  destruct (Z.eqb_spec (comparePatientId (patient_id a) (patient_id b)) 0) as [Ha|Ha];
    destruct (Z.eqb_spec (comparePatientId (patient_id b) (patient_id a)) 0) as [Hb|Hb];
    cbn [negb]; try exact Hp; try lia.
  rewrite (String.eqb_sym (code b)).
  destruct (String.eqb (code a) (code b)); cbn [negb]; apply localeCompare_sym.
Qed.

(** It is not transitive: numerals are compared as numbers and other text
    by collation, and 2, 10 and 1a come in a cycle. *)
Lemma comparePatientId_cycle :
  comparePatientId (H := exampleRuntime) (IdString "2") (IdString "10") < 0
  /\ comparePatientId (H := exampleRuntime) (IdString "10") (IdString "1a") < 0
  /\ comparePatientId (H := exampleRuntime) (IdString "1a") (IdString "2") < 0.
Proof. vm_compute. repeat split. Qed.
